(** * The struct overlay of go-capnproto2 ([struct.go])

    A shallow embedding of the struct layer of the Cap'n Proto Go library:
    typed field accessors over a segment-addressed byte buffer, bit access,
    pointer-slot access, default fallback and the version-tolerant deep
    copy.  Segments live in a heap keyed by segment identity, so that two
    struct views over the same segment alias the same bytes. *)

From Stdlib Require Import ZArith Lia Bool List.
From stdpp Require Import base option list gmap.

Open Scope Z_scope.

(** ** Machine integers

    Go's unsigned integer types wrap around; every value is kept as a [Z]
    and the wrap is written where the operation happens. *)

Definition u8 (x : Z) : Z := x mod 2 ^ 8.
Definition u16 (x : Z) : Z := x mod 2 ^ 16.
Definition u32 (x : Z) : Z := x mod 2 ^ 32.

(** ** Errors, panics and the execution monad *)

(** The package-level error values ([errors.New] constants). *)
Inductive ErrorValue : Type :=
| errObjectSize
| errOutOfBounds
| errCopyDepth
| errPointerAddress
| errAlloc
| errOther (code : nat).

(** Go's [error]: [None] is the nil error. *)
Definition error : Type := option ErrorValue.

(** What a panic carries: a value passed to [panic], or a run-time error
    of the language (nil dereference, slice bounds). *)
Inductive PanicValue : Type :=
| PanicError (e : ErrorValue)
| PanicNilDeref
| PanicBounds.

(** The store: segment identity to the bytes of the segment. *)
Abbreviation Heap := (gmap nat (list Z)).

(** A [*Segment]: [None] is the nil pointer. *)
Abbreviation SegPtr := (option nat).

(** The outcome of running a piece of code on a heap. *)
Inductive Exec (A : Type) : Type :=
| Done (a : A) (h : Heap)
| Panicked (p : PanicValue)
| OutOfFuel.
Arguments Done {A} a h.
Arguments Panicked {A} p.
Arguments OutOfFuel {A}.

Definition M (A : Type) : Type := Heap -> Exec A.

Definition ret {A} (a : A) : M A := fun h => Done a h.

Definition bind {A B} (m : M A) (k : A -> M B) : M B :=
  fun h => match m h with
           | Done a h' => k a h'
           | Panicked p => Panicked p
           | OutOfFuel => OutOfFuel
           end.

Definition panic {A} (p : PanicValue) : M A := fun _ => Panicked p.

#[global] Instance M_ret : MRet M := @ret.
#[global] Instance M_bind : MBind M := fun A B k m => bind m k.

(** ** Addresses and sizes *)

(** Modelled from the spec: the declarations of [Address], [Size],
    [DataOffset] and [BitOffset] and their methods (address.go) are not
    among the sources.  The format addresses the bytes of a segment with
    32-bit unsigned integers, and the four types are [uint32]:
    [wordSize] is 8, an address plus a size or an offset is taken modulo
    [2^32], [offset() = bit/8] and [mask() = 1 << (bit%8)].  [times]
    leaves out the overflow panic of the original, which no call of this
    file can reach: a size is multiplied by 1, and the word size by a
    [uint16]. *)
Definition wordSize : Z := 8.

Definition addOffset (a o : Z) : Z := u32 (a + o).

Definition times (sz n : Z) : Z := u32 (sz * n).

Definition element (a i sz : Z) : Z := u32 (a + times sz i).

Definition addSize (a sz : Z) : Z := element a 1 sz.

Definition padToWord (sz : Z) : Z :=
  let n := wordSize - 1 in Z.ldiff (u32 (sz + n)) n.

Definition bit_offset (bit : Z) : Z := bit / 8.

Definition bit_mask (bit : Z) : Z := u8 (Z.shiftl 1 (bit mod 8)).

Record ObjectSize : Type := mkObjectSize {
  DataSize : Z;
  PointerCount : Z
}.

(** Modelled from the spec: [ObjectSize.isValid], [pointerSize] and
    [totalSize] (address.go).  A size is representable when its data
    section fits the 16-bit word count of an encoded struct pointer;
    [PointerCount] is a [uint16] already.
    [totalSize = DataSize + PointerCount*8]. *)
Definition isValid (sz : ObjectSize) : bool :=
  DataSize sz <=? 65535 * wordSize.

Definition pointerSize (sz : ObjectSize) : Z := times wordSize (PointerCount sz).

Definition totalSize (sz : ObjectSize) : Z := u32 (DataSize sz + pointerSize sz).

Definition isZero (sz : ObjectSize) : bool :=
  (DataSize sz =? 0) && (PointerCount sz =? 0).

(** ** Segments: raw byte access *)

(** A Go slice into a segment's bytes: the segment it aliases, where it
    starts and how long it is. *)
Record ByteSlice : Type := mkByteSlice {
  bs_seg : nat;
  bs_base : Z;
  bs_len : Z
}.

(** [overwrite pos bs l] is [l] with the bytes [bs] stored from index
    [pos] on. *)
Definition overwrite (pos : nat) (bs l : list Z) : list Z :=
  take pos l ++ bs ++ drop (pos + length bs) l.

(** Modelled from the spec: [Segment.slice] (segment.go), the mutable byte
    view [slice(address, length)].  It dereferences the segment, so a nil
    segment (or one that is not in the heap) is a nil-dereference panic,
    and a range outside the buffer is a slice-bounds panic. *)
Definition slice (s : SegPtr) (base sz : Z) : M ByteSlice := fun h =>
  match s with
  | None => Panicked PanicNilDeref
  | Some k =>
      match h !! k with
      | None => Panicked PanicNilDeref
      | Some d =>
          if (0 <=? base) && (0 <=? sz) && (base + sz <=? Z.of_nat (length d))
          then Done (mkByteSlice k base sz) h
          else Panicked PanicBounds
      end
  end.

(** [b[j] = v] on a slice. *)
Definition slice_set (b : ByteSlice) (j v : Z) : M unit := fun h =>
  if (0 <=? j) && (j <? bs_len b) then
    match h !! bs_seg b with
    | Some d =>
        if bs_base b + j <? Z.of_nat (length d)
        then Done tt (<[bs_seg b := <[Z.to_nat (bs_base b + j) := v]> d]> h)
        else Panicked PanicBounds
    | None => Panicked PanicNilDeref
    end
  else Panicked PanicBounds.

(** [b[n:]]. *)
Definition slice_from (b : ByteSlice) (n : Z) : ByteSlice :=
  mkByteSlice (bs_seg b) (bs_base b + n) (bs_len b - n).

(** All the bytes a slice views, and storing bytes from its start on. *)
Definition load (b : ByteSlice) : M (list Z) := fun h =>
  match h !! bs_seg b with
  | Some d => Done (take (Z.to_nat (bs_len b)) (drop (Z.to_nat (bs_base b)) d)) h
  | None => Panicked PanicNilDeref
  end.

Definition store (b : ByteSlice) (bytes : list Z) : M unit := fun h =>
  match h !! bs_seg b with
  | Some d => Done tt (<[bs_seg b := overwrite (Z.to_nat (bs_base b)) bytes d]> h)
  | None => Panicked PanicNilDeref
  end.

(** The built-in [copy(dst, src)]: moves [min(len(dst), len(src))] bytes,
    correct for overlapping slices (the source bytes are read before any
    is written), and returns that count. *)
Definition go_copy (dst src : ByteSlice) : M Z :=
  let n := Z.min (bs_len dst) (bs_len src) in
  bytes ← load (mkByteSlice (bs_seg src) (bs_base src) n);
  store (mkByteSlice (bs_seg dst) (bs_base dst) n) bytes;;
  mret n.

(** Little-endian composition of bytes, as [binary.LittleEndian] does. *)
Fixpoint le_decode (bs : list Z) : Z :=
  match bs with
  | [] => 0
  | b :: bs' => Z.lor b (Z.shiftl (le_decode bs') 8)
  end.

Fixpoint le_encode (n : nat) (v : Z) : list Z :=
  match n with
  | O => []
  | S n' => Z.land v 255 :: le_encode n' (Z.shiftr v 8)
  end.

(** Modelled from the spec: the raw little-endian reads and writes of
    8/16/32/64-bit words at an address (segment.go), each through
    [slice]. *)
Definition readUint (n : nat) (s : SegPtr) (addr : Z) : M Z :=
  b ← slice s addr (Z.of_nat n);
  bytes ← load b;
  mret (le_decode bytes).

Definition writeUint (n : nat) (s : SegPtr) (addr v : Z) : M unit :=
  b ← slice s addr (Z.of_nat n);
  store b (le_encode n v).

Definition readUint8 := readUint 1.
Definition readUint16 := readUint 2.
Definition readUint32 := readUint 4.
Definition readUint64 := readUint 8.
Definition writeUint8 := writeUint 1.
Definition writeUint16 := writeUint 2.
Definition writeUint32 := writeUint 4.
Definition writeUint64 := writeUint 8.

(** Modelled from the spec: [writePointerWord(address, encoded)], one
    64-bit little-endian word. *)
Definition writeRawPointer (s : SegPtr) (addr v : Z) : M unit :=
  writeUint64 s addr v.

Definition readRawPointer (s : SegPtr) (addr : Z) : M Z :=
  readUint64 s addr.

(** ** Struct *)

Record Struct : Type := mkStruct {
  seg : SegPtr;
  off : Z;
  size : ObjectSize;
  flags : Z
}.

(** [Struct{}]. *)
Definition Struct_zero : Struct := mkStruct None 0 (mkObjectSize 0 0) 0.

(** The [Pointer] interface: nil, a [Struct], or one of the other
    implementations (List, Interface), of which this layer only observes
    the segment. *)
Inductive Pointer : Type :=
| PNil
| PStruct (s : Struct)
| POther (s : SegPtr).

Definition Pointer_Segment (p : Pointer) : SegPtr :=
  match p with
  | PNil => None
  | PStruct s => seg s
  | POther s => s
  end.

(** Modelled from the spec: [isValid(PointerValue)] (pointer.go), a non-nil
    pointer with a segment. *)
Definition IsValid (p : Pointer) : bool :=
  match p with
  | PNil => false
  | _ => bool_decide (Pointer_Segment p <> None)
  end.

(** Modelled from the spec: the copy context (pointer.go), a recursion
    depth counter threaded through every recursive call. *)
Record copyContext : Type := mkCopyContext { depth : Z }.

Definition incDepth (cc : copyContext) : copyContext :=
  mkCopyContext (depth cc + 1).

Definition is_nil (s : SegPtr) : bool :=
  match s with None => true | Some _ => false end.

Definition ToStruct (p : Pointer) : Struct :=
  if negb (IsValid p) then Struct_zero
  else match p with
       | PStruct s => s
       | _ => Struct_zero
       end.

Definition Segment (p : Struct) : SegPtr := seg p.

Definition Address (p : Struct) : Z := off p.

Definition HasData (p : Struct) : bool := negb (isZero (size p)).

Definition pointerAddress (p : Struct) (i : Z) : Z :=
  let ptrStart := addSize (off p) (DataSize (size p)) in
  element ptrStart i wordSize.

Definition bitInData (p : Struct) (bit : Z) : bool :=
  negb (is_nil (seg p)) && (bit <? u32 (DataSize (size p) * 8)).

Definition Bit (p : Struct) (n : Z) : M bool :=
  if negb (bitInData p n) then mret false
  else
    let addr := addOffset (off p) (bit_offset n) in
    b ← readUint8 (seg p) addr;
    mret (negb (Z.land b (bit_mask n) =? 0)).

Definition SetBit (p : Struct) (n : Z) (v : bool) : M unit :=
  if negb (bitInData p n) then panic (PanicError errOutOfBounds)
  else
    let addr := addOffset (off p) (bit_offset n) in
    b ← readUint8 (seg p) addr;
    let b' := if v then Z.lor b (bit_mask n) else Z.ldiff b (bit_mask n) in
    writeUint8 (seg p) addr b'.

Definition dataAddress (p : Struct) (o sz : Z) : Z * bool :=
  if is_nil (seg p) || (DataSize (size p) <? u32 (o + sz)) then (0, false)
  else (addOffset (off p) o, true).

Definition Uint8 (p : Struct) (o : Z) : M Z :=
  let '(addr, ok) := dataAddress p o 1 in
  if negb ok then mret 0 else readUint8 (seg p) addr.

Definition Uint16 (p : Struct) (o : Z) : M Z :=
  let '(addr, ok) := dataAddress p o 2 in
  if negb ok then mret 0 else readUint16 (seg p) addr.

Definition Uint32 (p : Struct) (o : Z) : M Z :=
  let '(addr, ok) := dataAddress p o 4 in
  if negb ok then mret 0 else readUint32 (seg p) addr.

Definition Uint64 (p : Struct) (o : Z) : M Z :=
  let '(addr, ok) := dataAddress p o 8 in
  if negb ok then mret 0 else readUint64 (seg p) addr.

Definition SetUint8 (p : Struct) (o v : Z) : M unit :=
  let '(addr, ok) := dataAddress p o 1 in
  if negb ok then panic (PanicError errOutOfBounds)
  else writeUint8 (seg p) addr v.

Definition SetUint16 (p : Struct) (o v : Z) : M unit :=
  let '(addr, ok) := dataAddress p o 2 in
  if negb ok then panic (PanicError errOutOfBounds)
  else writeUint16 (seg p) addr v.

Definition SetUint32 (p : Struct) (o v : Z) : M unit :=
  let '(addr, ok) := dataAddress p o 4 in
  if negb ok then panic (PanicError errOutOfBounds)
  else writeUint32 (seg p) addr v.

Definition SetUint64 (p : Struct) (o v : Z) : M unit :=
  let '(addr, ok) := dataAddress p o 8 in
  if negb ok then panic (PanicError errOutOfBounds)
  else writeUint64 (seg p) addr v.

(** The eight accessors differ only in the width: [UintN n] and
    [SetUintN n] are the accessors of [n] bytes. *)
Definition UintN (n : nat) (p : Struct) (o : Z) : M Z :=
  let '(addr, ok) := dataAddress p o (Z.of_nat n) in
  if negb ok then mret 0 else readUint n (seg p) addr.

Definition SetUintN (n : nat) (p : Struct) (o v : Z) : M unit :=
  let '(addr, ok) := dataAddress p o (Z.of_nat n) in
  if negb ok then panic (PanicError errOutOfBounds)
  else writeUint n (seg p) addr v.

(** Modelled from the spec: the encoding of a struct pointer word
    (pointer.go): kind in the two low bits (0 for a struct), a signed
    30-bit offset in words from the end of the pointer word to the struct,
    the data size in words in bits 32..47 and the pointer count in bits
    48..63. *)
Definition makePointerOffset (paddr addr : Z) : Z :=
  (addr - paddr - wordSize) / wordSize.

Definition rawStructPointer (o : Z) (sz : ObjectSize) : Z :=
  Z.lor (Z.lor (Z.shiftl (Z.land o (2 ^ 30 - 1)) 2)
               (Z.shiftl (DataSize sz / wordSize) 32))
        (Z.shiftl (PointerCount sz) 48).

(** [value] returns a raw struct pointer. *)
Definition value (p : Struct) (paddr : Z) : Z :=
  let o := makePointerOffset paddr (off p) in
  rawStructPointer o (size p).

(** The number of iterations a loop over a [uint16] counter can make. *)
Definition loop_fuel : nat := Z.to_nat (2 ^ 16).

Section Collaborators.

(** The segment and pointer layers this file calls into: decoding the
    pointer at an address, writing (a copy of) a pointer at an address,
    allocating bytes, and decoding a default template. *)
Variable readPtr : SegPtr -> Z -> M (Pointer * error).
Variable writePtr : copyContext -> SegPtr -> Z -> Pointer -> M error.
Variable alloc : SegPtr -> Z -> M (SegPtr * Z * error).
Variable unmarshalDefault : list Z -> M (Pointer * error).

Definition NewStruct (s : SegPtr) (sz : ObjectSize) : M (Struct * error) :=
  if negb (isValid sz) then mret (Struct_zero, Some errObjectSize)
  else
    let sz := mkObjectSize (padToWord (DataSize sz)) (PointerCount sz) in
    '(sg, addr, err) ← alloc s (totalSize sz);
    match err with
    | Some e => mret (Struct_zero, Some e)
    | None => mret (mkStruct sg addr sz 0, None)
    end.

(** [def] is a Go byte slice: [None] is the nil slice. *)
Definition ToStructDefault (p : Pointer) (def : option (list Z))
  : M (Struct * error) :=
  let fallback : M (Struct * error) :=
    match def with
    | None => mret (Struct_zero, None)
    | Some bytes =>
        '(defp, err) ← unmarshalDefault bytes;
        match err with
        | Some e => mret (Struct_zero, Some e)
        | None => mret (ToStruct defp, None)
        end
    end in
  if negb (IsValid p) then fallback
  else match p with
       | PStruct s => mret (s, None)
       | _ => fallback
       end.

Definition Struct_Pointer (p : Struct) (i : Z) : M (Pointer * error) :=
  if is_nil (seg p) || (PointerCount (size p) <=? i) then mret (PNil, None)
  else readPtr (seg p) (pointerAddress p i).

Definition SetPointer (p : Struct) (i : Z) (src : Pointer) : M error :=
  if is_nil (seg p) || (PointerCount (size p) <=? i)
  then panic (PanicError errOutOfBounds)
  else writePtr (mkCopyContext 0) (seg p) (pointerAddress p i) src.

(** [for j := range dstData { dstData[j] = 0 }], [n] iterations left. *)
Fixpoint zero_data (n : nat) (b : ByteSlice) (j : Z) : M unit :=
  match n with
  | O => mret tt
  | S n' => slice_set b j 0;; zero_data n' b (j + 1)
  end.

(** The loop copying the pointers both structs have. *)
Fixpoint copy_ptrs (fuel : nat) (cc : copyContext) (dst src : Struct)
    (srcPtrSect dstPtrSect numSrcPtrs numDstPtrs j : Z) : M error :=
  if (j <? numSrcPtrs) && (j <? numDstPtrs) then
    match fuel with
    | O => fun _ => OutOfFuel
    | S fuel' =>
        let srcAddr := element srcPtrSect j wordSize in
        let dstAddr := element dstPtrSect j wordSize in
        '(m, err) ← readPtr (seg src) srcAddr;
        match err with
        | Some e => mret (Some e)
        | None =>
            err ← writePtr (incDepth cc) (seg dst) dstAddr m;
            match err with
            | Some e => mret (Some e)
            | None =>
                copy_ptrs fuel' cc dst src srcPtrSect dstPtrSect
                          numSrcPtrs numDstPtrs (u16 (j + 1))
            end
        end
    end
  else mret None.

(** The loop zeroing the pointers only the destination has. *)
Fixpoint zero_ptrs (fuel : nat) (dst : Struct)
    (dstPtrSect numDstPtrs j : Z) : M unit :=
  if j <? numDstPtrs then
    match fuel with
    | O => fun _ => OutOfFuel
    | S fuel' =>
        let addr := element dstPtrSect j wordSize in
        writeRawPointer (seg dst) addr 0;;
        zero_ptrs fuel' dst dstPtrSect numDstPtrs (u16 (j + 1))
    end
  else mret tt.

(** [copyStruct] makes a deep copy of [src] into [dst]. *)
Definition copyStruct (cc : copyContext) (dst src : Struct) : M error :=
  if is_nil (seg dst) then mret None
  else
    srcData ← slice (seg src) (off src) (DataSize (size src));
    dstData ← slice (seg dst) (off dst) (DataSize (size dst));
    copyCount ← go_copy dstData srcData;
    let dstData := slice_from dstData copyCount in
    zero_data (Z.to_nat (bs_len dstData)) dstData 0;;
    let srcPtrSect := addSize (off src) (DataSize (size src)) in
    let dstPtrSect := addSize (off dst) (DataSize (size dst)) in
    let numSrcPtrs := PointerCount (size src) in
    let numDstPtrs := PointerCount (size dst) in
    err ← copy_ptrs loop_fuel cc dst src srcPtrSect dstPtrSect
                    numSrcPtrs numDstPtrs 0;
    match err with
    | Some e => mret (Some e)
    | None =>
        zero_ptrs loop_fuel dst dstPtrSect numDstPtrs numSrcPtrs;;
        mret None
    end.

End Collaborators.

(** ** A reference segment and pointer layer

    Modelled from the spec: the collaborators of this file (segment.go,
    pointer.go) are not among the sources.  This is the smallest layer
    that does what the spec says of them: a growable arena that hands out
    zeroed bytes at the end of the preferred segment, a pointer decoder
    for null and struct pointers within one segment, and a pointer writer
    that deep-copies a struct through [copyStruct] after checking the
    recursion depth of the context against the limit.  Lists,
    capabilities and far pointers are kept as the opaque [POther]. *)

Definition segLen (s : SegPtr) : M Z := fun h =>
  match s with
  | None => Panicked PanicNilDeref
  | Some k =>
      match h !! k with
      | Some d => Done (Z.of_nat (length d)) h
      | None => Panicked PanicNilDeref
      end
  end.

Definition grow (s : SegPtr) (sz : Z) : M unit := fun h =>
  match s with
  | None => Panicked PanicNilDeref
  | Some k =>
      match h !! k with
      | Some d => Done tt (<[k := d ++ replicate (Z.to_nat sz) 0]> h)
      | None => Panicked PanicNilDeref
      end
  end.

Definition model_alloc (s : SegPtr) (sz : Z) : M (SegPtr * Z * error) :=
  len ← segLen s;
  if len + sz <? 2 ^ 32 then grow s sz;; mret (s, len, None)
  else mret (None, 0, Some errAlloc).

Definition signed30 (x : Z) : Z := if x <? 2 ^ 29 then x else x - 2 ^ 30.

(** What a pointer word [val] read at [addr] of a segment of [len] bytes
    decodes to. *)
Definition decode_pointer (s : SegPtr) (len addr val : Z) : Pointer * error :=
  if val =? 0 then (PNil, None)
  else if Z.land val 3 =? 0 then
    let o := signed30 (Z.land (Z.shiftr val 2) (2 ^ 30 - 1)) in
    let a := addr + wordSize + o * wordSize in
    let sz := mkObjectSize (Z.land (Z.shiftr val 32) 65535 * wordSize)
                           (Z.land (Z.shiftr val 48) 65535) in
    if (0 <=? a) && (a + totalSize sz <=? len)
    then (PStruct (mkStruct s a sz 0), None)
    else (PNil, Some errPointerAddress)
  else (POther s, None).

Definition model_readPtr (s : SegPtr) (addr : Z) : M (Pointer * error) :=
  val ← readRawPointer s addr;
  len ← segLen s;
  mret (decode_pointer s len addr val).

Fixpoint model_writePtr (maxDepth : Z) (fuel : nat) (cc : copyContext)
    (s : SegPtr) (addr : Z) (src : Pointer) : M error :=
  if negb (IsValid src) then writeRawPointer s addr 0;; mret None
  else
    match src with
    | PStruct st =>
        if maxDepth <? depth cc then mret (Some errCopyDepth)
        else
          match fuel with
          | O => fun _ => OutOfFuel
          | S fuel' =>
              '(dst, err) ← NewStruct model_alloc s (size st);
              match err with
              | Some e => mret (Some e)
              | None =>
                  err ← copyStruct model_readPtr (model_writePtr maxDepth fuel')
                                   cc dst st;
                  match err with
                  | Some e => mret (Some e)
                  | None => writeRawPointer s addr (value dst addr);; mret None
                  end
              end
          end
    | _ => mret (Some (errOther 0))
    end.

(** A struct as [NewStruct] and the pointer decoder hand them out: its
    segment is in the heap, its size is representable, and the segment
    holds its data and pointer sections. *)
Definition backed (h : Heap) (p : Struct) : bool :=
  match seg p with
  | Some k =>
      match h !! k with
      | Some d =>
          isValid (size p) && (0 <=? off p) && (0 <=? DataSize (size p))
          && (0 <=? PointerCount (size p)) && (PointerCount (size p) <? 2 ^ 16)
          && (off p + DataSize (size p) + 8 * PointerCount (size p)
              <=? Z.of_nat (length d))
          && (Z.of_nat (length d) <? 2 ^ 32)
      | None => false
      end
  | None => false
  end.

(** The accessors by width in bits, for statements over every width. *)
Definition Uint_w (w : Z) : Struct -> Z -> M Z :=
  if w =? 8 then Uint8 else if w =? 16 then Uint16
  else if w =? 32 then Uint32 else Uint64.

Definition SetUint_w (w : Z) : Struct -> Z -> Z -> M unit :=
  if w =? 8 then SetUint8 else if w =? 16 then SetUint16
  else if w =? 32 then SetUint32 else SetUint64.

(** ** Sample messages *)

(** Segment 0 holds a struct of one data word and one pointer at address 0
    whose pointer leads to a second such struct at address 16; segment 1
    is 32 bytes of stale allocator memory. *)
Definition sample_heap : Heap :=
  <[0%nat := [1; 2; 3; 4; 5; 6; 7; 8;  0; 0; 0; 0; 1; 0; 1; 0;
              9; 9; 9; 9; 9; 9; 9; 9;  0; 0; 0; 0; 0; 0; 0; 0]]>
  (<[1%nat := replicate 32 171]> ∅).

Definition sample_src : Struct := mkStruct (Some 0%nat) 0 (mkObjectSize 8 1) 0.
Definition sample_inner : Struct := mkStruct (Some 0%nat) 16 (mkObjectSize 8 1) 0.
Definition sample_dst : Struct := mkStruct (Some 1%nat) 0 (mkObjectSize 16 2) 0.

(** A segment of one pointer word, a struct pointer whose target (one data
    word at address 8) lies past the end of the segment, and the struct of
    no data and one pointer slot that holds it. *)
Definition dangling_heap : Heap := <[0%nat := [0; 0; 0; 0; 1; 0; 0; 0]]> ∅.

Definition dangling_struct : Struct :=
  mkStruct (Some 0%nat) 0 (mkObjectSize 0 1) 0.

(** Modelled from the spec: [decodeDefaultTemplate(bytes)] (the absent
    [unmarshalDefault]).  The template becomes a segment of its own, whose
    first word is decoded as the root pointer; a template shorter than one
    word is malformed. *)
Definition model_unmarshalDefault (bytes : list Z) : M (Pointer * error) :=
  fun h =>
    if Z.of_nat (length bytes) <? wordSize
    then Done (PNil, Some (errOther 1)) h
    else
      let k := fresh (dom h) in
      model_readPtr (Some k) 0 (<[k := bytes]> h).

(** A default template: a root pointer to a struct of one data word
    holding 42. *)
Definition sample_default : list Z :=
  [0; 0; 0; 0; 1; 0; 0; 0;  42; 0; 0; 0; 0; 0; 0; 0].

(** ** The copy, in the words of the specification

    The definitions below say what the spec says the copy does; the
    theorems compare them with [copyStruct]. *)

(** The address of pointer slot [j]: [base + DataSize + j*8]. *)
Definition slot (p : Struct) (j : Z) : Z := off p + DataSize (size p) + 8 * j.

(** The [n] bytes of a segment from address [a] on. *)
Definition section_bytes (d : list Z) (a n : Z) : list Z :=
  take (Z.to_nat n) (drop (Z.to_nat a) d).

(** The destination data section after the copy: the source bytes that
    fit, then zeros up to the destination's size. *)
Definition data_after (srcData : list Z) (dstLen : nat) : list Z :=
  take dstLen srcData ++ replicate (dstLen - length srcData) 0.

Section CopySpec.

Variable readPtr : SegPtr -> Z -> M (Pointer * error).
Variable writePtr : copyContext -> SegPtr -> Z -> Pointer -> M error.

(** For each slot of [js] in turn: decode the source slot and write a
    copy into the same slot of the destination, one level deeper; stop
    at the first error. *)
Fixpoint copy_slots (cc : copyContext) (dst src : Struct) (js : list Z)
  : M error :=
  match js with
  | [] => mret None
  | j :: js' =>
      '(m, err) ← readPtr (seg src) (slot src j);
      match err with
      | Some e => mret (Some e)
      | None =>
          err ← writePtr (incDepth cc) (seg dst) (slot dst j) m;
          match err with
          | Some e => mret (Some e)
          | None => copy_slots cc dst src js'
          end
      end
  end.

(** Zero each slot of [js]. *)
Fixpoint zero_slots (dst : Struct) (js : list Z) : M unit :=
  match js with
  | [] => mret tt
  | j :: js' => writeRawPointer (seg dst) (slot dst j) 0;; zero_slots dst js'
  end.

Definition copy_pointer_section (cc : copyContext) (dst src : Struct)
  : M error :=
  let n := Z.min (PointerCount (size src)) (PointerCount (size dst)) in
  err ← copy_slots cc dst src (seqZ 0 n);
  match err with
  | Some e => mret (Some e)
  | None =>
      zero_slots dst (seqZ (PointerCount (size src))
                           (PointerCount (size dst) - PointerCount (size src)));;
      mret None
  end.

End CopySpec.

(** The pointer word at address [a] of segment [k] is in bounds and all
    zero. *)
Definition word_zero (h : Heap) (k : nat) (a : Z) : Prop :=
  exists d, h !! k = Some d /\ 0 <= a /\ a + 8 <= Z.of_nat (length d) /\
            forall i, (i < 8)%nat -> d !! (Z.to_nat a + i)%nat = Some 0.

(** ** Nested structs *)

(** The most bytes one struct can occupy: 65535 data words and 65535
    pointers. *)
Definition max_struct_bytes : Z := 65535 * 8 + 65535 * 8.

(** [apart kd lo hi s]: the struct [s] shares no byte with the bytes
    [[lo, hi)] of segment [kd]. *)
Definition apart (kd : nat) (lo hi : Z) (s : Struct) : Prop :=
  seg s <> Some kd \/
  off s + DataSize (size s) + 8 * PointerCount (size s) <= lo \/
  hi <= off s.

(** [chain strict js h s width kd lo hi]: from [s] the slots [js] lead,
    one after the other, through nested structs.  The first slot [j] of
    [js] is one of the first [width] slots of [s] (the slots a destination
    of [width] pointers takes over) and decodes to a struct [s'], from
    which the rest of [js] leads on in the same way, through any slots of
    [s'].  No struct a hop starts from shares a byte with [[lo, hi)] of
    segment [kd].  With [strict], the slots before each hop hold null
    pointers. *)
Fixpoint chain (strict : bool) (js : list Z) (h : Heap) (s : Struct)
    (width : Z) (kd : nat) (lo hi : Z) : Prop :=
  match js with
  | [] => True
  | j :: js' =>
      0 <= j < Z.min (PointerCount (size s)) width /\
      apart kd lo hi s /\
      (strict = true ->
       forall i, 0 <= i < j ->
         exists hx, model_readPtr (seg s) (slot s i) h = Done (PNil, None) hx) /\
      exists s' hx,
        model_readPtr (seg s) (slot s j) h = Done (PStruct s', None) hx /\
        chain strict js' h s' (PointerCount (size s')) kd lo hi
  end.

(** Segment 0 is a list of four structs of no data and one pointer, each
    pointing to the next and the last one null; segment 1 is one free
    pointer slot. *)
Definition chain_heap : Heap :=
  <[0%nat := [0; 0; 0; 0; 0; 0; 1; 0;  0; 0; 0; 0; 0; 0; 1; 0;
              0; 0; 0; 0; 0; 0; 1; 0;  0; 0; 0; 0; 0; 0; 0; 0]]>
  (<[1%nat := [7; 7; 7; 7; 7; 7; 7; 7]]> ∅).

Definition chain_src : Struct := mkStruct (Some 0%nat) 0 (mkObjectSize 0 1) 0.
Definition chain_dst : Struct := mkStruct (Some 1%nat) 0 (mkObjectSize 0 1) 0.

(** A pointer whose counts are what its Go types can hold: the pointer
    count of a struct is a [uint16]. *)
Definition ptr_ok (p : Pointer) : Prop :=
  match p with
  | PStruct st => 0 <= PointerCount (size st) <= 65535
  | _ => True
  end.

(** [only kd h h']: from [h] to [h'] no segment other than [kd] changed. *)
Definition only (kd : nat) (h h' : Heap) : Prop :=
  forall k, k <> kd -> h' !! k = h !! k.

(** ** Root structs *)

(** [NewRootStruct] creates a new struct, preferring placement in [s],
    then sets the message's root to the new struct.  [setRoot s st] stands
    for [s.msg.SetRoot(st)] (message.go is not among the sources); reading
    the field [msg] of a nil segment is a nil dereference. *)
Definition NewRootStruct (alloc : SegPtr -> Z -> M (SegPtr * Z * error))
    (setRoot : SegPtr -> Struct -> M error)
    (s : SegPtr) (sz : ObjectSize) : M (Struct * error) :=
  '(st, err) ← NewStruct alloc s sz;
  match err with
  | Some e => mret (st, Some e)
  | None =>
      err ← (if is_nil s then panic PanicNilDeref else setRoot s st);
      match err with
      | Some e => mret (st, Some e)
      | None => mret (st, None)
      end
  end.

(** Modelled from the spec: [setMessageRoot(segment, Struct)] (the absent
    [Message.SetRoot]), which registers the struct as the message's root
    pointer: the pointer word at address 0 of the segment. *)
Definition model_setRoot (s : SegPtr) (st : Struct) : M error :=
  writeRawPointer s 0 (value st 0);; mret None.

(** ** What a copy may touch *)

(** [preserved k lo hi h h']: from [h] to [h'] segment [k] did not shrink,
    and of the bytes it had only those at addresses in [[lo, hi)] may have
    changed. *)
Definition preserved (k : nat) (lo hi : Z) (h h' : Heap) : Prop :=
  forall d, h !! k = Some d ->
    exists d', h' !! k = Some d' /\ (length d <= length d')%nat /\
      forall i : nat, (i < length d)%nat ->
        Z.of_nat i < lo \/ hi <= Z.of_nat i -> d' !! i = d !! i.

(** [confined k lo hi h h']: nothing changed but segment [k], which grew
    at most and changed within [[lo, hi)] at most. *)
Definition confined (k : nat) (lo hi : Z) (h h' : Heap) : Prop :=
  only k h h' /\ preserved k lo hi h h'.

(** A pointer whose sizes are what the Go types and the pointer encoding
    can hold: at most 65535 data words and 65535 pointers. *)
Definition ptr_sized (p : Pointer) : Prop :=
  match p with
  | PStruct st =>
      0 <= DataSize (size st) <= 524280 /\ 0 <= PointerCount (size st) <= 65535
  | _ => True
  end.

(** What [copyStruct] relies on in the pointer layer: the decoder leaves
    the heap alone and returns pointers of such sizes; the writer, given
    such a pointer and a slot of segment [kd], changes nothing but that
    slot and memory it allocates in [kd]. *)
Definition decoder_ok (readPtr : SegPtr -> Z -> M (Pointer * error)) : Prop :=
  forall s a (h h' : Heap) m e,
    readPtr s a h = Done (m, e) h' -> h' = h /\ ptr_sized m.

Definition writer_ok (writePtr : copyContext -> SegPtr -> Z -> Pointer -> M error)
    (cc : copyContext) (kd : nat) : Prop :=
  forall a m (h h' : Heap) e,
    ptr_sized m -> 0 <= a ->
    writePtr cc (Some kd) a m h = Done e h' -> confined kd a (a + 8) h h'.

(** A source whose only pointer slot dangles (segment 0, as in
    [dangling_heap]) beside a destination of no data and two pointer
    slots, whose memory (segment 1) holds stale bytes [0xAB]. *)
Definition stale_heap : Heap :=
  <[0%nat := [0; 0; 0; 0; 1; 0; 0; 0]]> (<[1%nat := replicate 16 171]> ∅).

Definition stale_dst : Struct := mkStruct (Some 1%nat) 0 (mkObjectSize 0 2) 0.

(** A destination without pointer slots, in the free segment of
    [chain_heap]. *)
Definition flat_dst : Struct := mkStruct (Some 1%nat) 0 (mkObjectSize 8 0) 0.

(** [settles kd lo hi h r]: the run [r], started on [h], did not panic;
    if it returned, it changed no segment but [kd], and of the bytes of
    [kd] only those in [[lo, hi)], and segment [kd] is still shorter than
    [2^32] bytes. *)
Definition settles {A} (kd : nat) (lo hi : Z) (h : Heap) (r : Exec A) : Prop :=
  match r with
  | Done _ h' =>
      confined kd lo hi h h' /\
      forall d', h' !! kd = Some d' -> Z.of_nat (length d') < 2 ^ 32
  | Panicked _ => False
  | OutOfFuel => True
  end.

(** One segment that holds four structs of no data and two pointers, the
    first slot of each null and the second one pointing to the next
    struct (the last one holds two null pointers), followed by 16 stale
    bytes for a destination of two pointers. *)
Definition ladder_heap : Heap :=
  <[0%nat := [0; 0; 0; 0; 0; 0; 0; 0;  0; 0; 0; 0; 0; 0; 2; 0;
              0; 0; 0; 0; 0; 0; 0; 0;  0; 0; 0; 0; 0; 0; 2; 0;
              0; 0; 0; 0; 0; 0; 0; 0;  0; 0; 0; 0; 0; 0; 2; 0;
              0; 0; 0; 0; 0; 0; 0; 0;  0; 0; 0; 0; 0; 0; 0; 0;
              7; 7; 7; 7; 7; 7; 7; 7;  7; 7; 7; 7; 7; 7; 7; 7]]> ∅.

Definition ladder_src : Struct := mkStruct (Some 0%nat) 0 (mkObjectSize 0 2) 0.
Definition ladder_dst : Struct := mkStruct (Some 0%nat) 64 (mkObjectSize 0 2) 0.

(** The errors a copy over the reference layer can return: the depth
    error of the writer, the error of the decoder for a struct pointer
    that leads out of its segment, the error of the allocator, and the
    error of the writer for a pointer that is not a struct. *)
Definition copy_error (e : ErrorValue) : Prop :=
  e = errCopyDepth \/ e = errPointerAddress \/ e = errAlloc \/ e = errOther 0.

(** * Properties *)

(** ** The execution monad *)

Lemma bind_Done {A B} (m : M A) (k : A -> M B) h a h' :
  m h = Done a h' -> (m ≫= k) h = k a h'.
Proof. intros E. unfold mbind, M_bind, bind. now rewrite E. Qed.

Lemma bind_Panicked {A B} (m : M A) (k : A -> M B) h x :
  m h = Panicked x -> (m ≫= k) h = Panicked x.
Proof. intros E. unfold mbind, M_bind, bind. now rewrite E. Qed.

Lemma bind_OutOfFuel {A B} (m : M A) (k : A -> M B) h :
  m h = OutOfFuel -> (m ≫= k) h = OutOfFuel.
Proof. intros E. unfold mbind, M_bind, bind. now rewrite E. Qed.

Lemma mret_run {A} (a : A) h : (mret a : M A) h = Done a h.
Proof. reflexivity. Qed.

(** ** Lists of bytes *)

Lemma length_overwrite pos bs (l : list Z) :
  (pos + length bs <= length l)%nat -> length (overwrite pos bs l) = length l.
Proof.
  intros H. unfold overwrite.
  rewrite !length_app, length_take, length_drop. lia.
Qed.

Lemma lookup_overwrite_ne pos bs (l : list Z) i :
  (pos + length bs <= length l)%nat ->
  (i < pos \/ pos + length bs <= i)%nat ->
  overwrite pos bs l !! i = l !! i.
Proof.
  intros Hlen Hi. unfold overwrite. destruct Hi as [Hi | Hi].
  - rewrite lookup_app_l by (rewrite length_take; lia).
    now rewrite lookup_take_lt by lia.
  - rewrite lookup_app_r by (rewrite length_take; lia).
    rewrite length_take, Nat.min_l by lia.
    rewrite lookup_app_r by lia.
    rewrite lookup_drop. f_equal. lia.
Qed.

Lemma lookup_overwrite_in pos bs (l : list Z) i :
  (pos + length bs <= length l)%nat ->
  (pos <= i < pos + length bs)%nat ->
  overwrite pos bs l !! i = bs !! (i - pos)%nat.
Proof.
  intros Hlen Hi. unfold overwrite.
  rewrite lookup_app_r by (rewrite length_take; lia).
  rewrite length_take, Nat.min_l by lia.
  now rewrite lookup_app_l by lia.
Qed.

Lemma take_drop_overwrite pos bs (l : list Z) :
  (pos + length bs <= length l)%nat ->
  take (length bs) (drop pos (overwrite pos bs l)) = bs.
Proof.
  intros Hlen. unfold overwrite.
  rewrite drop_app_length' by (rewrite length_take; lia).
  now rewrite take_app_length.
Qed.

(** ** Little-endian words *)

Lemma length_le_encode n v : length (le_encode n v) = n.
Proof. revert v. induction n; intros; simpl; auto. Qed.

Lemma le_decode_encode n v :
  0 <= v < 2 ^ (8 * Z.of_nat n) -> le_decode (le_encode n v) = v.
Proof.
  revert v. induction n as [| n IH]; intros v Hv.
  - simpl in *. lia.
  - cbn [le_encode le_decode]. rewrite IH.
    + apply Z.bits_inj'. intros i Hi.
      rewrite Z.lor_spec, Z.land_spec.
      destruct (Z.lt_ge_cases i 8) as [Hlt | Hge].
      * rewrite Z.shiftl_spec_low by lia. rewrite orb_false_r.
        change 255 with (Z.ones 8). rewrite Z.ones_spec_low by lia.
        apply andb_true_r.
      * rewrite Z.shiftl_spec by lia. rewrite Z.shiftr_spec by lia.
        change 255 with (Z.ones 8). rewrite Z.ones_spec_high by lia.
        rewrite andb_false_r. simpl. f_equal. lia.
    + rewrite Z.shiftr_div_pow2 by lia.
      replace (8 * Z.of_nat (S n)) with (8 + 8 * Z.of_nat n) in Hv by lia.
      rewrite Z.pow_add_r in Hv by lia.
      split; [apply Z.div_pos; lia |].
      apply Z.div_lt_upper_bound; lia.
Qed.

(** ** Machine arithmetic *)

Lemma u32_small x : 0 <= x < 2 ^ 32 -> u32 x = x.
Proof. intros H. unfold u32. now apply Z.mod_small. Qed.

Lemma u16_small x : 0 <= x < 2 ^ 16 -> u16 x = x.
Proof. intros H. unfold u16. now apply Z.mod_small. Qed.

Lemma backed_inv h p :
  backed h p = true ->
  exists k d,
    seg p = Some k /\ h !! k = Some d /\
    DataSize (size p) <= 524280 /\ 0 <= off p /\ 0 <= DataSize (size p) /\
    0 <= PointerCount (size p) < 65536 /\
    off p + DataSize (size p) + 8 * PointerCount (size p) <= Z.of_nat (length d) /\
    Z.of_nat (length d) < 4294967296.
Proof.
  unfold backed, isValid, wordSize. intros H.
  destruct (seg p) as [k |]; [| discriminate].
  destruct (h !! k) as [d |] eqn:Hd; [| discriminate].
  exists k, d.
  repeat (apply andb_prop in H; destruct H as [H ?]).
  repeat match goal with
         | H : (_ <=? _) = true |- _ => apply Z.leb_le in H
         | H : (_ <? _) = true |- _ => apply Z.ltb_lt in H
         end.
  change (2 ^ 16) with 65536 in *. change (2 ^ 32) with 4294967296 in *.
  repeat split; auto; lia.
Qed.

(** ** Raw segment access *)

Lemma slice_run k (d : list Z) base sz (h : Heap) :
  h !! k = Some d -> 0 <= base -> 0 <= sz -> base + sz <= Z.of_nat (length d) ->
  slice (Some k) base sz h = Done (mkByteSlice k base sz) h.
Proof.
  intros Hd H1 H2 H3. unfold slice. rewrite Hd.
  rewrite (proj2 (Z.leb_le 0 base)), (proj2 (Z.leb_le 0 sz)) by assumption.
  now rewrite (proj2 (Z.leb_le _ _) H3).
Qed.

Lemma readUint_run n k (d : list Z) a (h : Heap) :
  h !! k = Some d -> 0 <= a -> a + Z.of_nat n <= Z.of_nat (length d) ->
  readUint n (Some k) a h
  = Done (le_decode (take n (drop (Z.to_nat a) d))) h.
Proof.
  intros Hd H1 H2. unfold readUint.
  rewrite (bind_Done _ _ _ _ _ (slice_run k d a (Z.of_nat n) h Hd H1 ltac:(lia) H2)).
  unfold mbind, M_bind, bind, load. cbn [bs_seg bs_base bs_len].
  rewrite Hd. now rewrite Nat2Z.id.
Qed.

Lemma writeUint_run n k (d : list Z) a v (h : Heap) :
  h !! k = Some d -> 0 <= a -> a + Z.of_nat n <= Z.of_nat (length d) ->
  writeUint n (Some k) a v h
  = Done tt (<[k := overwrite (Z.to_nat a) (le_encode n v) d]> h).
Proof.
  intros Hd H1 H2. unfold writeUint.
  rewrite (bind_Done _ _ _ _ _ (slice_run k d a (Z.of_nat n) h Hd H1 ltac:(lia) H2)).
  unfold store. cbn [bs_seg bs_base bs_len]. now rewrite Hd.
Qed.

Lemma read_after_write n k (d : list Z) a v (h : Heap) :
  h !! k = Some d -> 0 <= a -> a + Z.of_nat n <= Z.of_nat (length d) ->
  0 <= v < 2 ^ (8 * Z.of_nat n) ->
  readUint n (Some k) a (<[k := overwrite (Z.to_nat a) (le_encode n v) d]> h)
  = Done v (<[k := overwrite (Z.to_nat a) (le_encode n v) d]> h).
Proof.
  intros Hd H1 H2 Hv.
  assert (Hlen : (Z.to_nat a + length (le_encode n v) <= length d)%nat)
    by (rewrite length_le_encode; lia).
  rewrite (readUint_run n k (overwrite (Z.to_nat a) (le_encode n v) d)).
  - pose proof (take_drop_overwrite _ _ _ Hlen) as E.
    rewrite length_le_encode in E. rewrite E.
    now rewrite le_decode_encode.
  - apply lookup_insert_eq.
  - assumption.
  - rewrite length_overwrite by assumption. lia.
Qed.

(** ** Scalar fields *)

Lemma dataAddress_in_range p o sz k :
  seg p = Some k -> 0 <= off p -> 0 <= o -> 0 <= sz ->
  o + sz <= DataSize (size p) -> off p + DataSize (size p) < 2 ^ 32 ->
  dataAddress p o sz = (off p + o, true).
Proof.
  intros Hk H0 H1 H2 H3 H4. unfold dataAddress. rewrite Hk. cbn [is_nil orb].
  rewrite u32_small by lia.
  rewrite (proj2 (Z.ltb_ge _ _)) by lia.
  unfold addOffset. now rewrite u32_small by lia.
Qed.

Lemma SetUintN_UintN n p o v h :
  backed h p = true -> 0 <= o -> o + Z.of_nat n <= DataSize (size p) ->
  0 <= v < 2 ^ (8 * Z.of_nat n) ->
  exists h', SetUintN n p o v h = Done tt h' /\ UintN n p o h' = Done v h'.
Proof.
  intros Hb Ho Hr Hv.
  destruct (backed_inv _ _ Hb) as (k & d & Hk & Hd & Hs & Hoff & Hds & Hpc & Hin & Hlen).
  assert (Ha : dataAddress p o (Z.of_nat n) = (off p + o, true)).
  { apply (dataAddress_in_range p o (Z.of_nat n) k); auto; lia. }
  eexists. unfold SetUintN, UintN. rewrite Ha. cbn [negb]. rewrite Hk. split.
  - apply (writeUint_run n k d); auto; lia.
  - apply read_after_write; auto; lia.
Qed.

(** C4. Round trip of the scalar accessors: on a backed struct, for every
    width [w] of 8, 16, 32 or 64 bits, every offset with
    [o + w/8 <= DataSize] and every value of that width, [SetUint_w]
    returns normally and [Uint_w] at the same offset then returns exactly
    the value. *)
Theorem SetUint_Uint_roundtrip (w : Z) (p : Struct) (o v : Z) (h : Heap) :
  In w [8; 16; 32; 64] ->
  backed h p = true ->
  0 <= o -> o + w / 8 <= DataSize (size p) ->
  0 <= v < 2 ^ w ->
  exists h', SetUint_w w p o v h = Done tt h' /\ Uint_w w p o h' = Done v h'.
Proof.
  intros Hw Hb Ho Hr Hv. simpl in Hw.
  destruct Hw as [<- | [<- | [<- | [<- | []]]]].
  - apply (SetUintN_UintN 1); auto.
  - apply (SetUintN_UintN 2); auto.
  - apply (SetUintN_UintN 4); auto.
  - apply (SetUintN_UintN 8); auto.
Qed.

(** An instance: a 16-bit field at offset 3 of the first sample struct. *)
Lemma SetUint_Uint_roundtrip_witness :
  In 16 [8; 16; 32; 64] /\ backed sample_heap sample_src = true /\
  0 <= 3 /\ 3 + 16 / 8 <= DataSize (size sample_src) /\ 0 <= 51966 < 2 ^ 16 /\
  exists h', SetUint_w 16 sample_src 3 51966 sample_heap = Done tt h'
             /\ Uint_w 16 sample_src 3 h' = Done 51966 h'.
Proof.
  assert (H1 : In 16 [8; 16; 32; 64]) by (simpl; auto).
  assert (H2 : backed sample_heap sample_src = true) by reflexivity.
  assert (H3 : 0 <= 3) by lia.
  assert (H4 : 3 + 16 / 8 <= DataSize (size sample_src)) by (vm_compute; discriminate).
  assert (H5 : 0 <= 51966 < 2 ^ 16) by lia.
  repeat (split; [assumption |]).
  exact (SetUint_Uint_roundtrip 16 sample_src 3 51966 sample_heap H1 H2 H3 H4 H5).
Defined.

(** ** Bit fields *)

Lemma land_pow2 x m :
  0 <= m -> Z.land x (2 ^ m) = if Z.testbit x m then 2 ^ m else 0.
Proof.
  intros Hm. apply Z.bits_inj'. intros i Hi. rewrite Z.land_spec.
  destruct (Z.eq_dec i m) as [-> | Hne].
  - rewrite Z.pow2_bits_true by lia.
    destruct (Z.testbit x m); [now rewrite Z.pow2_bits_true by lia |].
    now rewrite Z.bits_0.
  - rewrite Z.pow2_bits_false by lia. rewrite andb_false_r.
    destruct (Z.testbit x m); [now rewrite Z.pow2_bits_false by lia |].
    now rewrite Z.bits_0.
Qed.

Lemma land_pow2_eqb x m :
  0 <= m -> negb (Z.land x (2 ^ m) =? 0) = Z.testbit x m.
Proof.
  intros Hm. rewrite land_pow2 by assumption.
  destruct (Z.testbit x m); [| reflexivity].
  assert (0 < 2 ^ m) by (apply Z.pow_pos_nonneg; lia).
  destruct (Z.eqb_spec (2 ^ m) 0); [lia | reflexivity].
Qed.

Lemma bit_mask_pow2 n : bit_mask n = 2 ^ (n mod 8).
Proof.
  unfold bit_mask, u8.
  assert (0 <= n mod 8 < 8) by (apply Z.mod_pos_bound; lia).
  rewrite Z.shiftl_1_l. apply Z.mod_small. split.
  - apply Z.pow_nonneg; lia.
  - apply Z.pow_lt_mono_r; lia.
Qed.

Lemma testbit_land_255 x i : 0 <= i < 8 -> Z.testbit (Z.land x 255) i = Z.testbit x i.
Proof.
  intros Hi. rewrite Z.land_spec. change 255 with (Z.ones 8).
  rewrite Z.ones_spec_low by lia. apply andb_true_r.
Qed.

Lemma le_decode_single b : le_decode [b] = b.
Proof. simpl. apply Z.lor_0_r. Qed.

Lemma overwrite_single i x (l : list Z) :
  (i < length l)%nat -> overwrite i [x] l = <[i := x]> l.
Proof.
  intros Hi. unfold overwrite. rewrite insert_take_drop by assumption.
  simpl. now rewrite Nat.add_1_r.
Qed.

Lemma readUint8_run k (d : list Z) a b (h : Heap) :
  h !! k = Some d -> 0 <= a -> d !! Z.to_nat a = Some b ->
  readUint8 (Some k) a h = Done b h.
Proof.
  intros Hd Ha Hb. unfold readUint8.
  pose proof (lookup_lt_Some _ _ _ Hb) as Hlt.
  rewrite (readUint_run 1 k d) by (auto; lia).
  rewrite (drop_S _ _ _ Hb). cbn [take]. now rewrite take_0, le_decode_single.
Qed.

Lemma writeUint8_run k (d : list Z) a v (h : Heap) :
  h !! k = Some d -> 0 <= a -> a < Z.of_nat (length d) ->
  writeUint8 (Some k) a v h
  = Done tt (<[k := <[Z.to_nat a := Z.land v 255]> d]> h).
Proof.
  intros Hd Ha Hlt. unfold writeUint8.
  rewrite (writeUint_run 1 k d) by (auto; lia).
  cbn [le_encode]. now rewrite overwrite_single by lia.
Qed.

Lemma bitInData_in_range h p n :
  backed h p = true -> 0 <= n < DataSize (size p) * 8 -> bitInData p n = true.
Proof.
  intros Hb Hn.
  destruct (backed_inv _ _ Hb) as (k & d & Hk & Hd & Hs & Hoff & Hds & Hpc & Hin & Hlen).
  unfold bitInData. rewrite Hk. cbn [is_nil negb andb].
  rewrite u32_small by lia. now apply Z.ltb_lt.
Qed.

(** C9. Bit isolation: on a backed struct and an in-range bit offset [n],
    [SetBit] returns normally; the segment keeps its length, every byte
    other than the one at [off + n/8] and every other segment are
    unchanged; in that byte the bits other than [n mod 8] are unchanged;
    and [Bit n] afterwards returns the value set. *)
Theorem SetBit_frame (p : Struct) (n : Z) (v : bool) (h : Heap) :
  backed h p = true -> 0 <= n < DataSize (size p) * 8 ->
  exists k d d' b b' h',
    seg p = Some k /\ h !! k = Some d /\
    SetBit p n v h = Done tt h' /\
    h' !! k = Some d' /\ length d' = length d /\
    (forall k', k' <> k -> h' !! k' = h !! k') /\
    (forall j, j <> Z.to_nat (off p + n / 8) -> d' !! j = d !! j) /\
    d !! Z.to_nat (off p + n / 8) = Some b /\
    d' !! Z.to_nat (off p + n / 8) = Some b' /\
    (forall i, 0 <= i < 8 -> i <> n mod 8 -> Z.testbit b' i = Z.testbit b i) /\
    Z.testbit b' (n mod 8) = v /\
    Bit p n h' = Done v h'.
Proof.
  intros Hb Hn.
  pose proof (bitInData_in_range _ _ _ Hb Hn) as Hin.
  destruct (backed_inv _ _ Hb) as (k & d & Hk & Hd & Hs & Hoff & Hds & Hpc & Hfit & Hlen).
  assert (Hq : 0 <= n / 8 < DataSize (size p)).
  { split; [apply Z.div_pos; lia | apply Z.div_lt_upper_bound; lia]. }
  assert (Hm : 0 <= n mod 8 < 8) by (apply Z.mod_pos_bound; lia).
  set (a := off p + n / 8) in *.
  assert (Haddr : addOffset (off p) (bit_offset n) = a).
  { unfold addOffset, bit_offset. apply u32_small. subst a. lia. }
  assert (Hlt : (Z.to_nat a < length d)%nat) by (subst a; lia).
  destruct (lookup_lt_is_Some_2 _ _ Hlt) as [b Hbyte].
  set (b0 := if v then Z.lor b (bit_mask n) else Z.ldiff b (bit_mask n)).
  set (d' := <[Z.to_nat a := Z.land b0 255]> d).
  assert (Hd' : (<[k := d']> h : Heap) !! k = Some d') by apply lookup_insert_eq.
  assert (Hbyte' : d' !! Z.to_nat a = Some (Z.land b0 255))
    by (subst d'; now apply list_lookup_insert_eq).
  assert (Hbit : Z.testbit (Z.land b0 255) (n mod 8) = v).
  { rewrite testbit_land_255 by lia. subst b0. rewrite bit_mask_pow2.
    destruct v.
    - rewrite Z.lor_spec, Z.pow2_bits_true by lia. apply orb_true_r.
    - rewrite Z.ldiff_spec, Z.pow2_bits_true by lia. apply andb_false_r. }
  exists k, d, d', b, (Z.land b0 255), (<[k := d']> h).
  split; [assumption |]. split; [assumption |]. split.
  { unfold SetBit. rewrite Hin. cbn [negb]. rewrite Haddr, Hk.
    rewrite (bind_Done _ _ _ _ _ (readUint8_run k d a b h Hd ltac:(subst a; lia) Hbyte)).
    apply writeUint8_run; auto; subst a; lia. }
  split; [assumption |]. split; [subst d'; apply length_insert |].
  split; [intros k' Hk'; now apply lookup_insert_ne |].
  split; [intros j Hj; subst d'; now apply list_lookup_insert_ne |].
  split; [assumption |]. split; [assumption |]. split.
  { intros i Hi Hne. rewrite testbit_land_255 by lia. subst b0.
    rewrite bit_mask_pow2. destruct v.
    - rewrite Z.lor_spec, Z.pow2_bits_false by lia. apply orb_false_r.
    - rewrite Z.ldiff_spec, Z.pow2_bits_false by lia. apply andb_true_r. }
  split; [assumption |].
  unfold Bit. rewrite Hin. cbn [negb]. rewrite Haddr, Hk.
  rewrite (bind_Done _ _ _ _ _
             (readUint8_run k d' a _ _ Hd' ltac:(subst a; lia) Hbyte')).
  rewrite mret_run. f_equal.
  rewrite bit_mask_pow2, land_pow2_eqb by lia. assumption.
Qed.

(** An instance: bit 3 of the first sample struct. *)
Lemma SetBit_frame_witness :
  backed sample_heap sample_src = true /\
  0 <= 3 < DataSize (size sample_src) * 8 /\
  exists k d d' b b' h',
    seg sample_src = Some k /\ sample_heap !! k = Some d /\
    SetBit sample_src 3 true sample_heap = Done tt h' /\
    h' !! k = Some d' /\ length d' = length d /\
    (forall k', k' <> k -> h' !! k' = sample_heap !! k') /\
    (forall j, j <> Z.to_nat (off sample_src + 3 / 8) -> d' !! j = d !! j) /\
    d !! Z.to_nat (off sample_src + 3 / 8) = Some b /\
    d' !! Z.to_nat (off sample_src + 3 / 8) = Some b' /\
    (forall i, 0 <= i < 8 -> i <> 3 mod 8 -> Z.testbit b' i = Z.testbit b i) /\
    Z.testbit b' (3 mod 8) = true /\
    Bit sample_src 3 h' = Done true h'.
Proof.
  assert (H1 : backed sample_heap sample_src = true) by reflexivity.
  assert (H2 : 0 <= 3 < DataSize (size sample_src) * 8) by (simpl; lia).
  split; [assumption |]. split; [assumption |].
  exact (SetBit_frame sample_src 3 true sample_heap H1 H2).
Defined.

(** ** Reads out of range *)

Lemma UintN_unbacked n p o h : seg p = None -> UintN n p o h = Done 0 h.
Proof. intros Hs. unfold UintN, dataAddress. now rewrite Hs. Qed.

(** Without wrap-around of [off + width], a read past the data section
    returns zero. *)
Lemma UintN_past_end n p o h :
  0 <= o -> o + Z.of_nat n < 2 ^ 32 -> DataSize (size p) < o + Z.of_nat n ->
  UintN n p o h = Done 0 h.
Proof.
  intros Ho Hw Hr. unfold UintN, dataAddress.
  rewrite u32_small by lia. rewrite (proj2 (Z.ltb_lt _ _) Hr).
  now rewrite orb_true_r.
Qed.

Lemma Bit_out_of_range p n h :
  0 <= DataSize (size p) ->
  seg p = None \/ DataSize (size p) * 8 <= n -> Bit p n h = Done false h.
Proof.
  intros Hd H. unfold Bit, bitInData. destruct H as [-> | H]; [reflexivity |].
  assert (u32 (DataSize (size p) * 8) <= DataSize (size p) * 8).
  { unfold u32. apply Z.mod_le; lia. }
  rewrite (proj2 (Z.ltb_ge _ _)) by lia. now rewrite andb_false_r.
Qed.

(** The bounds check of [dataAddress] passes at the offset [2^32 - n] of
    every struct that has a segment, whatever its data size: the 32-bit
    sum [Size(off)+sz] is 0 there. *)
Lemma dataAddress_wraps p n :
  seg p <> None -> 0 <= DataSize (size p) -> 0 < n <= 8 ->
  dataAddress p (2 ^ 32 - n) n = (addOffset (off p) (2 ^ 32 - n), true).
Proof.
  intros Hs Hd Hn. unfold dataAddress.
  destruct (seg p); [| congruence]. cbn [is_nil orb].
  replace (2 ^ 32 - n + n) with (2 ^ 32) by lia.
  change (u32 (2 ^ 32)) with 0.
  now rewrite (proj2 (Z.ltb_ge _ _)) by lia.
Qed.

(** C3, at the inputs where it fails.  [Size(off)+sz] is computed in 32
    bits: for [off = 2^32-2] and a 16-bit read the sum wraps to 0, the
    bounds check passes, and the read returns the two bytes before the
    struct; for [off = 2^32-1] and an 8-bit read on a struct at address 0
    the address wraps to [2^32-1] and the segment access panics. *)
Theorem Uint_offset_wraps :
  backed sample_heap sample_inner = true /\
  DataSize (size sample_inner) < (2 ^ 32 - 2) + 16 / 8 /\
  Uint_w 16 sample_inner (2 ^ 32 - 2) sample_heap = Done 1 sample_heap /\
  backed sample_heap sample_src = true /\
  DataSize (size sample_src) < (2 ^ 32 - 1) + 8 / 8 /\
  Uint_w 8 sample_src (2 ^ 32 - 1) sample_heap = Panicked PanicBounds.
Proof. repeat split; vm_compute; congruence. Qed.

(** ** Writes out of range *)

Lemma SetUintN_unbacked n p o v h :
  seg p = None -> SetUintN n p o v h = Panicked (PanicError errOutOfBounds).
Proof. intros Hs. unfold SetUintN, dataAddress. now rewrite Hs. Qed.

Lemma SetUintN_past_end n p o v h :
  0 <= o -> o + Z.of_nat n < 2 ^ 32 -> DataSize (size p) < o + Z.of_nat n ->
  SetUintN n p o v h = Panicked (PanicError errOutOfBounds).
Proof.
  intros Ho Hw Hr. unfold SetUintN, dataAddress.
  rewrite u32_small by lia. rewrite (proj2 (Z.ltb_lt _ _) Hr).
  now rewrite orb_true_r.
Qed.

Lemma SetUintN_in_range n p o v h :
  backed h p = true -> 0 <= o -> o + Z.of_nat n <= DataSize (size p) ->
  exists h', SetUintN n p o v h = Done tt h'.
Proof.
  intros Hb Ho Hr.
  destruct (backed_inv _ _ Hb) as (k & d & Hk & Hd & Hs & Hoff & Hds & Hpc & Hin & Hlen).
  unfold SetUintN.
  rewrite (dataAddress_in_range p o (Z.of_nat n) k) by (auto; lia).
  cbn [negb]. rewrite Hk. eexists. apply (writeUint_run n k d); auto; lia.
Qed.

Lemma SetBit_out_of_range p n v h :
  0 <= DataSize (size p) ->
  seg p = None \/ DataSize (size p) * 8 <= n ->
  SetBit p n v h = Panicked (PanicError errOutOfBounds).
Proof.
  intros Hd H. unfold SetBit, bitInData. destruct H as [-> | H]; [reflexivity |].
  assert (u32 (DataSize (size p) * 8) <= DataSize (size p) * 8).
  { unfold u32. apply Z.mod_le; lia. }
  rewrite (proj2 (Z.ltb_ge _ _)) by lia. now rewrite andb_false_r.
Qed.

Lemma SetPointer_out_of_range writePtr p i src h :
  seg p = None \/ PointerCount (size p) <= i ->
  SetPointer writePtr p i src h = Panicked (PanicError errOutOfBounds).
Proof.
  intros H. unfold SetPointer. destruct H as [-> | H]; [reflexivity |].
  rewrite (proj2 (Z.leb_le _ _) H). now rewrite orb_true_r.
Qed.

Lemma SetPointer_in_range writePtr p i src h k :
  seg p = Some k -> i < PointerCount (size p) ->
  SetPointer writePtr p i src h
  = writePtr (mkCopyContext 0) (seg p) (pointerAddress p i) src h.
Proof.
  intros Hk H. unfold SetPointer. rewrite Hk. cbn [is_nil orb].
  now rewrite (proj2 (Z.leb_gt _ _) H).
Qed.

(** C5, at the input where it fails.  A 16-bit write at [off = 2^32-2] is
    far out of range for a data section of 8 bytes, yet the 32-bit sum
    [Size(off)+2] wraps to 0, the bounds check passes, and the write
    returns normally after storing into the two bytes before the struct
    (here the pointer count of the pointer word that leads to it). *)
Theorem write_offset_wraps :
  backed sample_heap sample_inner = true /\
  DataSize (size sample_inner) < (2 ^ 32 - 2) + 16 / 8 /\
  SetUint_w 16 sample_inner (2 ^ 32 - 2) 65535 sample_heap
  = Done tt (<[0%nat := [1; 2; 3; 4; 5; 6; 7; 8;  0; 0; 0; 0; 1; 0; 255; 255;
                         9; 9; 9; 9; 9; 9; 9; 9;  0; 0; 0; 0; 0; 0; 0; 0]]>
             sample_heap).
Proof. repeat split; vm_compute; congruence. Qed.

(** ** Pointer slots *)

Lemma pointerAddress_backed h p i :
  backed h p = true -> 0 <= i < PointerCount (size p) ->
  pointerAddress p i = off p + DataSize (size p) + 8 * i.
Proof.
  intros Hb Hi.
  destruct (backed_inv _ _ Hb) as (k & d & Hk & Hd & Hs & Hoff & Hds & Hpc & Hin & Hlen).
  unfold pointerAddress, addSize, element, times, wordSize.
  rewrite Z.mul_1_r. rewrite (u32_small (DataSize (size p))) by lia.
  rewrite (u32_small (off p + DataSize (size p))) by lia.
  rewrite (u32_small (8 * i)) by lia.
  apply u32_small. lia.
Qed.

(** The counterexample to C2: a slot that holds a struct pointer whose
    target lies outside the segment is reported by [Struct.Pointer] as the
    error of the decoder. *)
Lemma Struct_Pointer_error :
  backed dangling_heap dangling_struct = true /\
  0 < PointerCount (size dangling_struct) /\
  Struct_Pointer model_readPtr dangling_struct 0 dangling_heap
  = Done (PNil, Some errPointerAddress) dangling_heap.
Proof. repeat split; vm_compute; congruence. Qed.

(** C2, amended.  [Struct.Pointer] adds no failure of its own: it returns
    the nil pointer and no error when the struct is unbacked or the index
    is not below [PointerCount], and otherwise exactly what the segment's
    [readPtr] returns for the slot at [off + DataSize + 8*i], its error
    included. *)
Theorem Struct_Pointer_spec (readPtr : SegPtr -> Z -> M (Pointer * error))
    (p : Struct) (i : Z) (h : Heap) :
  seg p = None \/ backed h p = true ->
  0 <= i < 2 ^ 16 ->
  Struct_Pointer readPtr p i h
  = if is_nil (seg p) || (PointerCount (size p) <=? i)
    then Done (PNil, None) h
    else readPtr (seg p) (off p + DataSize (size p) + 8 * i) h.
Proof.
  intros Hp Hi. unfold Struct_Pointer.
  destruct (is_nil (seg p)) eqn:Hnil; [reflexivity |].
  destruct (Z.leb_spec (PointerCount (size p)) i) as [Hge | Hlt]; [reflexivity |].
  cbn [orb]. destruct Hp as [Hp | Hp]; [rewrite Hp in Hnil; discriminate |].
  now rewrite (pointerAddress_backed h p i) by (auto; lia).
Qed.

(** An instance: slot 0 of the first sample struct. *)
Lemma Struct_Pointer_spec_witness :
  (seg sample_src = None \/ backed sample_heap sample_src = true) /\
  0 <= 0 < 2 ^ 16 /\
  Struct_Pointer model_readPtr sample_src 0 sample_heap
  = if is_nil (seg sample_src) || (PointerCount (size sample_src) <=? 0)
    then Done (PNil, None) sample_heap
    else model_readPtr (seg sample_src)
           (off sample_src + DataSize (size sample_src) + 8 * 0) sample_heap.
Proof.
  assert (H1 : seg sample_src = None \/ backed sample_heap sample_src = true)
    by (right; reflexivity).
  assert (H2 : 0 <= 0 < 2 ^ 16) by lia.
  split; [assumption |]. split; [assumption |].
  exact (Struct_Pointer_spec model_readPtr sample_src 0 sample_heap H1 H2).
Defined.

(** ** Default fallback *)

(** C6. When [p] is invalid or not a struct, [ToStructDefault] returns the
    zero struct and no error for a nil default.  For a default that is
    present it runs the decoder of defaults on it: when the decoder
    returns a struct pointer that has a segment, that struct is returned
    with no error; when it returns the nil pointer, a pointer that is not
    a struct, or a struct without a segment, the zero struct is returned
    with no error; and when it returns an error, that error is the error
    of the call, beside the zero struct. *)
Theorem ToStructDefault_fallback
    (unmarshalDefault : list Z -> M (Pointer * error))
    (p : Pointer) (def : option (list Z)) (h : Heap) :
  IsValid p = false \/ (forall s, p <> PStruct s) ->
  ToStructDefault unmarshalDefault p def h
  = match def with
    | None => Done (Struct_zero, None) h
    | Some bytes =>
        match unmarshalDefault bytes h with
        | Done (PStruct s, None) h' =>
            Done (match seg s with Some _ => s | None => Struct_zero end, None) h'
        | Done (PNil, None) h' | Done (POther _, None) h' =>
            Done (Struct_zero, None) h'
        | Done (_, Some e) h' => Done (Struct_zero, Some e) h'
        | Panicked x => Panicked x
        | OutOfFuel => OutOfFuel
        end
    end.
Proof.
  intros Hp.
  assert (E : forall f s, (if negb (IsValid p) then f
                           else match p with PStruct s' => s s' | _ => f end)
                          = (f : M (Struct * error))).
  { intros f s. destruct Hp as [Hp | Hp]; [now rewrite Hp |].
    destruct (IsValid p); [| reflexivity].
    destruct p; try reflexivity. now destruct (Hp s0). }
  unfold ToStructDefault. rewrite E. destruct def as [bytes |]; [| reflexivity].
  unfold mbind, M_bind, bind.
  destruct (unmarshalDefault bytes h) as [[defp [e |]] h' | x |];
    try reflexivity.
  - destruct defp; reflexivity.
  - destruct defp as [| s | o]; try reflexivity.
    + unfold mret, M_ret, ret, ToStruct, IsValid, Pointer_Segment.
      destruct (seg s) as [k |]; reflexivity.
    + unfold mret, M_ret, ret, ToStruct.
      destruct (IsValid (POther o)); reflexivity.
Qed.

(** An instance: the nil pointer with the sample default, whose root
    pointer leads to a struct of one data word at address 8 of the
    template's segment; the struct returned reads 42 in its first field. *)
Lemma ToStructDefault_fallback_witness :
  (IsValid PNil = false \/ (forall s, PNil <> PStruct s)) /\
  exists k h',
    ToStructDefault model_unmarshalDefault PNil (Some sample_default)
                    sample_heap
    = Done (mkStruct (Some k) 8 (mkObjectSize 8 0) 0, None) h' /\
    h' !! k = Some sample_default /\
    Uint64 (mkStruct (Some k) 8 (mkObjectSize 8 0) 0) 0 h' = Done 42 h'.
Proof.
  assert (H1 : IsValid PNil = false \/ (forall s, PNil <> PStruct s))
    by (left; reflexivity).
  split; [assumption |].
  exists (fresh (dom sample_heap)), (<[fresh (dom sample_heap) := sample_default]> sample_heap).
  rewrite (ToStructDefault_fallback model_unmarshalDefault PNil
             (Some sample_default) sample_heap H1).
  split; [vm_compute; reflexivity |].
  split; [apply lookup_insert_eq | vm_compute; reflexivity].
Defined.

(** ** Allocation *)

Lemma padToWord_round sz :
  0 <= sz <= 524280 -> padToWord sz = 8 * ((sz + 7) / 8).
Proof.
  intros H. unfold padToWord, wordSize. rewrite u32_small by lia.
  change (8 - 1) with (Z.ones 3). rewrite Z.ldiff_ones_r by lia.
  rewrite Z.shiftl_mul_pow2, Z.shiftr_div_pow2 by lia.
  change (2 ^ 3) with 8. change (Z.ones 3) with 7. lia.
Qed.

Lemma round_up_word sz :
  let r := 8 * ((sz + 7) / 8) in
  sz <= r < sz + 8 /\ r mod 8 = 0.
Proof.
  intros r. subst r. split.
  - pose proof (Z.div_mod (sz + 7) 8 ltac:(lia)).
    pose proof (Z.mod_pos_bound (sz + 7) 8 ltac:(lia)). lia.
  - rewrite Z.mul_comm. apply Z.mod_mul. lia.
Qed.



(** ** Deep copy: the data section *)

Lemma lookup_overwrite pos bs (l : list Z) i :
  (pos + length bs <= length l)%nat ->
  overwrite pos bs l !! i
  = if decide (pos <= i < pos + length bs)%nat then bs !! (i - pos)%nat
    else l !! i.
Proof.
  intros Hlen. case_decide.
  - now apply lookup_overwrite_in.
  - apply lookup_overwrite_ne; [assumption | lia].
Qed.

Lemma overwrite_overwrite_app pos a b (l : list Z) :
  (pos + length a + length b <= length l)%nat ->
  overwrite (pos + length a) b (overwrite pos a l) = overwrite pos (a ++ b) l.
Proof.
  intros Hlen. apply list_eq. intros i.
  rewrite lookup_overwrite by (rewrite length_overwrite; lia).
  rewrite (lookup_overwrite pos a) by lia.
  rewrite (lookup_overwrite pos (a ++ b)) by (rewrite length_app; lia).
  rewrite length_app.
  repeat case_decide; try lia; try reflexivity.
  - rewrite lookup_app_r by lia. f_equal. lia.
  - now rewrite lookup_app_l by lia.
Qed.

Lemma insert_overwrite pos x bs (l : list Z) :
  (pos + S (length bs) <= length l)%nat ->
  overwrite (S pos) bs (<[pos := x]> l) = overwrite pos (x :: bs) l.
Proof.
  intros Hlen.
  rewrite <- (overwrite_single pos x l) by lia.
  replace (S pos) with (pos + length [x])%nat by (simpl; lia).
  rewrite overwrite_overwrite_app by (simpl; lia). reflexivity.
Qed.

Lemma overwrite_nil pos (l : list Z) : overwrite pos [] l = l.
Proof. unfold overwrite. simpl. rewrite Nat.add_0_r. apply take_drop. Qed.

Lemma zero_data_run n b j (d : list Z) (h : Heap) :
  h !! bs_seg b = Some d -> 0 <= bs_base b -> 0 <= j ->
  j + Z.of_nat n <= bs_len b ->
  bs_base b + bs_len b <= Z.of_nat (length d) ->
  zero_data n b j h
  = Done tt (<[bs_seg b := overwrite (Z.to_nat (bs_base b + j)) (replicate n 0) d]> h).
Proof.
  revert j d h. induction n as [| n IH]; intros j d h Hd Hb Hj Hn Hlen.
  - cbn [zero_data replicate]. rewrite overwrite_nil.
    rewrite insert_id by assumption. reflexivity.
  - cbn [zero_data].
    assert (Hs : slice_set b j 0 h
                 = Done tt (<[bs_seg b := <[Z.to_nat (bs_base b + j) := 0]> d]> h)).
    { unfold slice_set. rewrite Hd.
      rewrite (proj2 (Z.leb_le 0 j)) by lia.
      rewrite (proj2 (Z.ltb_lt j (bs_len b))) by lia. cbn [andb].
      now rewrite (proj2 (Z.ltb_lt _ _)) by lia. }
    rewrite (bind_Done _ _ _ _ _ Hs).
    rewrite (IH (j + 1) (<[Z.to_nat (bs_base b + j) := 0]> d)).
    + rewrite insert_insert_eq. f_equal. f_equal.
      replace (Z.to_nat (bs_base b + (j + 1))) with (S (Z.to_nat (bs_base b + j))) by lia.
      rewrite insert_overwrite by (rewrite length_replicate; lia).
      reflexivity.
    + apply lookup_insert_eq.
    + assumption.
    + lia.
    + lia.
    + rewrite length_insert. assumption.
Qed.

Lemma length_data_after srcData n :
  length (data_after srcData n) = n.
Proof.
  unfold data_after. rewrite length_app, length_take, length_replicate. lia.
Qed.

Lemma length_section_bytes (d : list Z) a n :
  0 <= a -> 0 <= n -> a + n <= Z.of_nat (length d) ->
  length (section_bytes d a n) = Z.to_nat n.
Proof.
  intros Ha Hn Hlen. unfold section_bytes.
  rewrite length_take, length_drop. lia.
Qed.

Lemma lookup_section_bytes (d : list Z) a n i :
  (i < Z.to_nat n)%nat -> section_bytes d a n !! i = d !! (Z.to_nat a + i)%nat.
Proof.
  intros Hi. unfold section_bytes.
  rewrite lookup_take_lt by assumption. apply lookup_drop.
Qed.

(** The data part of [copyStruct]: both slices, the built-in copy and the
    zeroing loop, as one store into the destination segment, after which
    the rest [k] of the function runs. *)
Lemma copy_data_run {B} (k : M B) ks kd (sd dd : list Z) (dst src : Struct)
    (h : Heap) :
  seg src = Some ks -> seg dst = Some kd ->
  h !! ks = Some sd -> h !! kd = Some dd ->
  0 <= off src -> 0 <= DataSize (size src) ->
  off src + DataSize (size src) <= Z.of_nat (length sd) ->
  0 <= off dst -> 0 <= DataSize (size dst) ->
  off dst + DataSize (size dst) <= Z.of_nat (length dd) ->
  (srcData ← slice (seg src) (off src) (DataSize (size src));
   dstData ← slice (seg dst) (off dst) (DataSize (size dst));
   copyCount ← go_copy dstData srcData;
   let dstData := slice_from dstData copyCount in
   zero_data (Z.to_nat (bs_len dstData)) dstData 0;; k) h
  = k (<[kd := overwrite (Z.to_nat (off dst))
                 (data_after (section_bytes sd (off src) (DataSize (size src)))
                             (Z.to_nat (DataSize (size dst)))) dd]> h).
Proof.
  intros Hks Hkd Hsd Hdd Hso Hss Hsl Hdo Hds Hdl.
  rewrite Hks, Hkd.
  rewrite (bind_Done _ _ _ _ _ (slice_run ks sd _ _ h Hsd Hso Hss Hsl)).
  rewrite (bind_Done _ _ _ _ _ (slice_run kd dd _ _ h Hdd Hdo Hds Hdl)).
  set (n := Z.min (DataSize (size dst)) (DataSize (size src))).
  set (bytes := take (Z.to_nat n) (drop (Z.to_nat (off src)) sd)).
  set (h1 := (<[kd := overwrite (Z.to_nat (off dst)) bytes dd]> h : Heap)).
  assert (Hcopy : go_copy (mkByteSlice kd (off dst) (DataSize (size dst)))
                          (mkByteSlice ks (off src) (DataSize (size src))) h
                  = Done n h1).
  { unfold go_copy, load, store, mbind, M_bind, bind.
    cbn [bs_seg bs_base bs_len]. now rewrite Hsd, Hdd. }
  rewrite (bind_Done _ _ _ _ _ Hcopy).
  assert (Hbl : length bytes = Z.to_nat n).
  { subst bytes. rewrite length_take, length_drop. lia. }
  unfold slice_from. cbn [bs_seg bs_base bs_len].
  erewrite bind_Done; [reflexivity |].
  rewrite (zero_data_run _ _ 0 (overwrite (Z.to_nat (off dst)) bytes dd)).
  - cbn [bs_seg bs_base]. subst h1. rewrite insert_insert_eq. f_equal. f_equal.
    replace (Z.to_nat (off dst + n + 0)) with (Z.to_nat (off dst) + length bytes)%nat by lia.
    rewrite overwrite_overwrite_app by (rewrite length_replicate; lia).
    f_equal. unfold data_after, section_bytes. f_equal.
    + subst bytes. rewrite take_take. f_equal. lia.
    + f_equal. rewrite length_take, length_drop. lia.
  - cbn [bs_seg]. subst h1. apply lookup_insert_eq.
  - cbn [bs_base]. lia.
  - lia.
  - cbn [bs_len]. lia.
  - cbn [bs_base bs_len]. rewrite length_overwrite by lia. lia.
Qed.

(** ** Deep copy: the pointer section *)

Lemma element_slot p j :
  0 <= off p -> 0 <= DataSize (size p) -> 0 <= j ->
  off p + DataSize (size p) + 8 * j < 2 ^ 32 ->
  element (addSize (off p) (DataSize (size p))) j wordSize = slot p j.
Proof.
  intros Ho Hd Hj Hlt. unfold addSize, element, times, wordSize, slot.
  rewrite Z.mul_1_r. rewrite (u32_small (DataSize (size p))) by lia.
  rewrite (u32_small (off p + DataSize (size p))) by lia.
  rewrite (u32_small (8 * j)) by lia.
  apply u32_small. lia.
Qed.

Lemma loop_fuel_ge x : x <= 65536 -> (Z.to_nat x <= loop_fuel)%nat.
Proof. intros H. unfold loop_fuel. change (2 ^ 16) with 65536. lia. Qed.

Section Loops.

Variable readPtr : SegPtr -> Z -> M (Pointer * error).
Variable writePtr : copyContext -> SegPtr -> Z -> Pointer -> M error.
Variables (cc : copyContext) (dst src : Struct).

Hypothesis src_off : 0 <= off src.
Hypothesis src_data : 0 <= DataSize (size src).
Hypothesis src_ptrs : 0 <= PointerCount (size src) < 65536.
Hypothesis src_fits :
  off src + DataSize (size src) + 8 * PointerCount (size src) < 2 ^ 32.
Hypothesis dst_off : 0 <= off dst.
Hypothesis dst_data : 0 <= DataSize (size dst).
Hypothesis dst_ptrs : 0 <= PointerCount (size dst) < 65536.
Hypothesis dst_fits :
  off dst + DataSize (size dst) + 8 * PointerCount (size dst) < 2 ^ 32.

Let n := Z.min (PointerCount (size src)) (PointerCount (size dst)).

Lemma copy_ptrs_run fuel j h :
  0 <= j <= n -> (Z.to_nat (n - j) <= fuel)%nat ->
  copy_ptrs readPtr writePtr fuel cc dst src
    (addSize (off src) (DataSize (size src)))
    (addSize (off dst) (DataSize (size dst)))
    (PointerCount (size src)) (PointerCount (size dst)) j h
  = copy_slots readPtr writePtr cc dst src (seqZ j (n - j)) h.
Proof.
  revert j h. induction fuel as [| fuel IH]; intros j h Hj Hfuel.
  - assert (j = n) by lia. subst j. rewrite Z.sub_diag. cbn [copy_ptrs].
    replace ((n <? PointerCount (size src)) && (n <? PointerCount (size dst)))
      with false; [reflexivity |].
    symmetry. apply andb_false_iff. subst n.
    destruct (Z.min_spec (PointerCount (size src)) (PointerCount (size dst)))
      as [[_ ->] | [_ ->]]; [left | right]; apply Z.ltb_irrefl.
  - cbn [copy_ptrs].
    destruct (Z.eq_dec j n) as [-> | Hne].
    + rewrite Z.sub_diag.
      replace ((n <? PointerCount (size src)) && (n <? PointerCount (size dst)))
        with false; [reflexivity |].
      symmetry. apply andb_false_iff. subst n.
      destruct (Z.min_spec (PointerCount (size src)) (PointerCount (size dst)))
        as [[_ ->] | [_ ->]]; [left | right]; apply Z.ltb_irrefl.
    + assert (Hlt : j < n) by lia.
      rewrite (proj2 (Z.ltb_lt j (PointerCount (size src)))) by (subst n; lia).
      rewrite (proj2 (Z.ltb_lt j (PointerCount (size dst)))) by (subst n; lia).
      cbn [andb].
      rewrite seqZ_cons by lia. cbn [copy_slots].
      rewrite (element_slot src j) by (subst n; lia).
      rewrite (element_slot dst j) by (subst n; lia).
      unfold mbind, M_bind, bind.
      destruct (readPtr (seg src) (slot src j) h) as [[m [e |]] h1 | x |];
        try reflexivity.
      destruct (writePtr (incDepth cc) (seg dst) (slot dst j) m h1)
        as [[e |] h2 | x |]; try reflexivity.
      rewrite u16_small by (change (2 ^ 16) with 65536; subst n; lia).
      rewrite IH by lia.
      replace (Z.pred (n - j)) with (n - (j + 1)) by lia.
      reflexivity.
Qed.

Lemma zero_ptrs_run fuel j h :
  0 <= j < 65536 ->
  (Z.to_nat (PointerCount (size dst) - j) <= fuel)%nat ->
  zero_ptrs fuel dst (addSize (off dst) (DataSize (size dst)))
    (PointerCount (size dst)) j h
  = zero_slots dst (seqZ j (PointerCount (size dst) - j)) h.
Proof.
  revert j h. induction fuel as [| fuel IH]; intros j h Hj Hfuel.
  - cbn [zero_ptrs]. rewrite (proj2 (Z.ltb_ge _ _)) by lia.
    replace (seqZ j (PointerCount (size dst) - j)) with (@nil Z);
      [reflexivity |].
    unfold seqZ. replace (Z.to_nat (PointerCount (size dst) - j)) with O by lia.
    reflexivity.
  - cbn [zero_ptrs].
    destruct (Z.ltb_spec j (PointerCount (size dst))) as [Hlt | Hge].
    + rewrite seqZ_cons by lia. cbn [zero_slots].
      rewrite (element_slot dst j) by lia.
      unfold mbind, M_bind, bind.
      destruct (writeRawPointer (seg dst) (slot dst j) 0 h) as [[] h1 | x |];
        try reflexivity.
      rewrite u16_small by (change (2 ^ 16) with 65536; lia).
      rewrite IH by lia.
      replace (Z.pred (PointerCount (size dst) - j))
        with (PointerCount (size dst) - (j + 1)) by lia.
      reflexivity.
    + replace (seqZ j (PointerCount (size dst) - j)) with (@nil Z);
        [reflexivity |].
      unfold seqZ. replace (Z.to_nat (PointerCount (size dst) - j)) with O by lia.
      reflexivity.
Qed.

(** The two pointer loops of [copyStruct] are the pointer section of
    the specification. *)
Lemma pointer_loops_run h :
  (err ← copy_ptrs readPtr writePtr loop_fuel cc dst src
           (addSize (off src) (DataSize (size src)))
           (addSize (off dst) (DataSize (size dst)))
           (PointerCount (size src)) (PointerCount (size dst)) 0;
   match err with
   | Some e => mret (Some e)
   | None =>
       zero_ptrs loop_fuel dst (addSize (off dst) (DataSize (size dst)))
                 (PointerCount (size dst)) (PointerCount (size src));;
       mret None
   end) h
  = copy_pointer_section readPtr writePtr cc dst src h.
Proof.
  unfold copy_pointer_section. fold n. unfold mbind, M_bind, bind.
  rewrite copy_ptrs_run by (try apply loop_fuel_ge; subst n; lia).
  rewrite Z.sub_0_r.
  destruct (copy_slots readPtr writePtr cc dst src (seqZ 0 n) h)
    as [[e |] h1 | x |]; try reflexivity.
  rewrite zero_ptrs_run by (try apply loop_fuel_ge; lia).
  reflexivity.
Qed.

End Loops.

Lemma slice_inv s base sz (h h' : Heap) b :
  slice s base sz h = Done b h' ->
  exists k d, s = Some k /\ h !! k = Some d /\ 0 <= base /\ 0 <= sz /\
              base + sz <= Z.of_nat (length d) /\
              b = mkByteSlice k base sz /\ h' = h.
Proof.
  unfold slice. destruct s as [k |]; [| discriminate].
  destruct (h !! k) as [d |] eqn:Hd; [| discriminate].
  destruct (0 <=? base) eqn:H1; [| discriminate].
  destruct (0 <=? sz) eqn:H2; [| discriminate].
  destruct (base + sz <=? Z.of_nat (length d)) eqn:H3; [| discriminate].
  cbn [andb]. intros [= <- <-]. exists k, d.
  apply Z.leb_le in H1, H2, H3. auto 10.
Qed.

Lemma writeUint_inv n s a v (h h' : Heap) :
  writeUint n s a v h = Done tt h' ->
  exists k d, s = Some k /\ h !! k = Some d /\ 0 <= a /\
              a + Z.of_nat n <= Z.of_nat (length d) /\
              h' = <[k := overwrite (Z.to_nat a) (le_encode n v) d]> h.
Proof.
  unfold writeUint, mbind, M_bind, bind. intros H.
  destruct (slice s a (Z.of_nat n) h) as [b h1 | x |] eqn:Hs; try discriminate.
  destruct (slice_inv _ _ _ _ _ _ Hs) as (k & d & -> & Hd & Ha & _ & Hlen & -> & ->).
  unfold store in H. cbn [bs_seg bs_base] in H. rewrite Hd in H.
  injection H as <-. exists k, d. auto 10.
Qed.

Lemma word_zero_read h k a : word_zero h k a -> readRawPointer (Some k) a h = Done 0 h.
Proof.
  intros (d & Hd & Ha & Hlen & Hz). unfold readRawPointer, readUint64.
  rewrite (readUint_run 8 k d) by (auto; lia).
  replace (take 8 (drop (Z.to_nat a) d)) with (replicate 8 0); [reflexivity |].
  apply list_eq. intros i. destruct (Nat.lt_ge_cases i 8) as [Hi | Hi].
  - rewrite lookup_replicate_2 by assumption.
    rewrite lookup_take_lt by assumption. rewrite lookup_drop.
    symmetry. now apply Hz.
  - rewrite (proj1 (lookup_replicate_None 8 0 i)) by assumption.
    symmetry. now apply lookup_take_ge.
Qed.

Lemma le_encode_zero n : le_encode n 0 = replicate n 0.
Proof.
  induction n as [| n IH]; [reflexivity |]. cbn [le_encode replicate].
  change (Z.shiftr 0 8) with 0. change (Z.land 0 255) with 0. now rewrite IH.
Qed.

(** Storing a zero word yields a zero word there and keeps every zero
    word zero. *)
Lemma writeRawPointer_zero s a (h h' : Heap) :
  writeRawPointer s a 0 h = Done tt h' ->
  (exists k, s = Some k /\ word_zero h' k a) /\
  (forall k0 a0, word_zero h k0 a0 -> word_zero h' k0 a0).
Proof.
  intros H. unfold writeRawPointer, writeUint64 in H.
  destruct (writeUint_inv _ _ _ _ _ _ H) as (k & d & -> & Hd & Ha & Hlen & ->).
  rewrite le_encode_zero.
  assert (Hfit : (Z.to_nat a + length (replicate 8 0) <= length d)%nat)
    by (rewrite length_replicate; lia).
  split.
  - exists k. split; [reflexivity |].
    exists (overwrite (Z.to_nat a) (replicate 8 0) d).
    split; [apply lookup_insert_eq |]. split; [assumption |].
    split; [rewrite length_overwrite by assumption; lia |].
    intros i Hi. rewrite lookup_overwrite_in by (try rewrite length_replicate; lia).
    apply lookup_replicate_2. lia.
  - intros k0 a0 (d0 & Hd0 & Ha0 & Hlen0 & Hz0).
    destruct (decide (k0 = k)) as [-> | Hne].
    + assert (d0 = d) by congruence. subst d0.
      exists (overwrite (Z.to_nat a) (replicate 8 0) d).
      split; [apply lookup_insert_eq |]. split; [assumption |].
      split; [rewrite length_overwrite by assumption; lia |].
      intros i Hi. rewrite lookup_overwrite by assumption.
      case_decide; [| now apply Hz0].
      apply lookup_replicate_2. rewrite length_replicate in *. lia.
    + exists d0. rewrite lookup_insert_ne by congruence. auto.
Qed.

Lemma zero_slots_zero dst js (h h' : Heap) :
  zero_slots dst js h = Done tt h' ->
  (forall j, In j js -> exists k, seg dst = Some k /\ word_zero h' k (slot dst j)) /\
  (forall k0 a0, word_zero h k0 a0 -> word_zero h' k0 a0).
Proof.
  revert h. induction js as [| j js IH]; intros h H.
  - cbn [zero_slots] in H. injection H as <-. split; [intros j [] | auto].
  - cbn [zero_slots] in H. unfold mbind, M_bind, bind in H.
    destruct (writeRawPointer (seg dst) (slot dst j) 0 h) as [[] h1 | x |] eqn:Hw;
      try discriminate.
    destruct (writeRawPointer_zero _ _ _ _ Hw) as [(k & Hk & Hz) Hkeep].
    destruct (IH _ H) as [Hjs Hkeep'].
    split.
    + intros j' [<- | Hin]; [| now apply Hjs].
      exists k. split; [assumption |]. now apply Hkeep'.
    + intros k0 a0 Hz0. apply Hkeep'. now apply Hkeep.
Qed.

(** [copy_slots] consults the decoder only at the listed source slots. *)
Lemma copy_slots_ext readPtr readPtr' writePtr cc dst src js h :
  (forall j hx, In j js ->
     readPtr' (seg src) (slot src j) hx = readPtr (seg src) (slot src j) hx) ->
  copy_slots readPtr' writePtr cc dst src js h
  = copy_slots readPtr writePtr cc dst src js h.
Proof.
  revert h. induction js as [| j js IH]; intros h Hext; [reflexivity |].
  cbn [copy_slots]. unfold mbind, M_bind, bind.
  rewrite Hext by (left; reflexivity).
  destruct (readPtr (seg src) (slot src j) h) as [[m [e |]] h1 | x |];
    try reflexivity.
  destruct (writePtr (incDepth cc) (seg dst) (slot dst j) m h1)
    as [[e |] h2 | x |]; try reflexivity.
  apply IH. intros j' hx Hin. apply Hext. now right.
Qed.

(** When the pointer loop returns an error, one listed slot produced it:
    its decoding, or the writing of its copy, returned that error and
    left the heap the loop returns. *)
Lemma copy_slots_error readPtr writePtr cc dst src js (h h' : Heap) e :
  copy_slots readPtr writePtr cc dst src js h = Done (Some e) h' ->
  exists j hj,
    In j js /\
    ((exists m, readPtr (seg src) (slot src j) hj = Done (m, Some e) h') \/
     (exists m hm,
        readPtr (seg src) (slot src j) hj = Done (m, None) hm /\
        writePtr (incDepth cc) (seg dst) (slot dst j) m hm = Done (Some e) h')).
Proof.
  revert h. induction js as [| j0 js IH]; intros h Hrun; [discriminate |].
  cbn [copy_slots] in Hrun. unfold mbind, M_bind, bind in Hrun.
  destruct (readPtr (seg src) (slot src j0) h) as [[m [e1 |]] h1 | x |] eqn:Hr;
    try discriminate.
  - injection Hrun as <- <-. exists j0, h. split; [now left |].
    left. now exists m.
  - destruct (writePtr (incDepth cc) (seg dst) (slot dst j0) m h1)
      as [[e2 |] h2 | x |] eqn:Hw; try discriminate.
    + injection Hrun as <- <-. exists j0, h. split; [now left |].
      right. now exists m, h1.
    + destruct (IH h2 Hrun) as (j & hj & Hin & Hor).
      exists j, hj. split; [now right | assumption].
Qed.

(** When the pointer loop returns without error, every listed slot was
    decoded and written without error. *)
Lemma copy_slots_all readPtr writePtr cc dst src js (h h' : Heap) :
  copy_slots readPtr writePtr cc dst src js h = Done None h' ->
  forall j, In j js ->
    exists hx m hx' hy,
      readPtr (seg src) (slot src j) hx = Done (m, None) hx' /\
      writePtr (incDepth cc) (seg dst) (slot dst j) m hx' = Done None hy.
Proof.
  revert h. induction js as [| j0 js IH]; intros h Hrun j Hin; [destruct Hin |].
  cbn [copy_slots] in Hrun. unfold mbind, M_bind, bind in Hrun.
  destruct (readPtr (seg src) (slot src j0) h) as [[m [e |]] h1 | x |] eqn:Hr;
    try discriminate.
  destruct (writePtr (incDepth cc) (seg dst) (slot dst j0) m h1)
    as [[e |] h2 | x |] eqn:Hw; try discriminate.
  destruct Hin as [<- | Hin]; [exists h, m, h1, h2; auto |].
  exact (IH h2 Hrun j Hin).
Qed.

Lemma In_seqZ j m n : In j (seqZ m n) <-> m <= j < m + n.
Proof.
  rewrite <- list_elem_of_In, list_elem_of_lookup. split.
  - intros [i Hi]. apply lookup_seqZ in Hi. lia.
  - intros Hj. exists (Z.to_nat (j - m)). apply lookup_seqZ. lia.
Qed.

(** ** Deep copy: the whole function *)

Lemma copyStruct_unbacked_dst readPtr writePtr cc dst src h :
  seg dst = None -> copyStruct readPtr writePtr cc dst src h = Done None h.
Proof. intros Hd. unfold copyStruct. now rewrite Hd. Qed.

Lemma copyStruct_refines readPtr writePtr cc dst src (h : Heap) ks kd sd dd :
  backed h dst = true -> backed h src = true ->
  seg src = Some ks -> seg dst = Some kd ->
  h !! ks = Some sd -> h !! kd = Some dd ->
  copyStruct readPtr writePtr cc dst src h
  = copy_pointer_section readPtr writePtr cc dst src
      (<[kd := overwrite (Z.to_nat (off dst))
                 (data_after (section_bytes sd (off src) (DataSize (size src)))
                             (Z.to_nat (DataSize (size dst)))) dd]> h).
Proof.
  intros Hbd Hbs Hks Hkd Hsd Hdd.
  destruct (backed_inv _ _ Hbd) as (kd' & dd' & Hkd' & Hdd' & ? & ? & ? & ? & ? & ?).
  destruct (backed_inv _ _ Hbs) as (ks' & sd' & Hks' & Hsd' & ? & ? & ? & ? & ? & ?).
  assert (kd' = kd) by congruence. subst kd'.
  assert (ks' = ks) by congruence. subst ks'.
  assert (dd' = dd) by congruence. subst dd'.
  assert (sd' = sd) by congruence. subst sd'.
  unfold copyStruct.
  replace (is_nil (seg dst)) with false by (now rewrite Hkd).
  rewrite (copy_data_run _ ks kd sd dd) by (auto; lia).
  apply pointer_loops_run; lia.
Qed.

Lemma lookup_data_after_src srcData n i :
  (i < n)%nat -> (i < length srcData)%nat ->
  data_after srcData n !! i = srcData !! i.
Proof.
  intros Hn Hs. unfold data_after.
  rewrite lookup_app_l by (rewrite length_take; lia).
  now apply lookup_take_lt.
Qed.

Lemma lookup_data_after_zero srcData n i :
  (length srcData <= i < n)%nat -> data_after srcData n !! i = Some 0.
Proof.
  intros Hi. unfold data_after.
  rewrite lookup_app_r by (rewrite length_take; lia).
  apply lookup_replicate_2. rewrite length_take. lia.
Qed.

(** The counterexample to C1: the only source slot dangles, so the decoder
    fails at slot 0 and [copyStruct] returns its error before the loop
    that zeroes the slots only the destination has; destination slot 1,
    which lies in [[src.PointerCount, dst.PointerCount)], still holds its
    stale word [0xABABABABABABABAB], and slot 0 was not written either. *)
Lemma copyStruct_error_skips_zeroing :
  backed stale_heap stale_dst = true /\
  backed stale_heap dangling_struct = true /\
  PointerCount (size dangling_struct) <= 1 < PointerCount (size stale_dst) /\
  exists h',
    copyStruct model_readPtr (model_writePtr 4 8) (mkCopyContext 0)
               stale_dst dangling_struct stale_heap
    = Done (Some errPointerAddress) h' /\
    readRawPointer (seg stale_dst) (slot stale_dst 1) h'
    = Done 12370169555311111083 h' /\
    readRawPointer (seg stale_dst) (slot stale_dst 0) h'
    = Done 12370169555311111083 h'.
Proof.
  split; [reflexivity |]. split; [reflexivity |].
  split; [simpl; lia |].
  eexists. split; [vm_compute; reflexivity |].
  split; vm_compute; reflexivity.
Qed.

(** C1, amended.  [copyStruct] into an unbacked destination returns no
    error and leaves the heap as it is.  For a backed destination and a
    backed source it stores, at the destination's base, the first
    [min(src.DataSize, dst.DataSize)] source data bytes followed by zeros
    up to [dst.DataSize], touching no other byte; it then, for each slot
    [j < min(src.PointerCount, dst.PointerCount)] in order, decodes source
    slot [j] and writes a copy one level deeper into destination slot [j],
    and stops at the first slot whose decoding or writing fails, returning
    that error and the heap that call left; only when no slot fails does
    it store a zero word into every destination slot from
    [src.PointerCount] up to [dst.PointerCount], which then read as
    zero words, and return no error.  The result does not depend on what
    the decoder would return for any other source slot. *)
Theorem copyStruct_spec (readPtr : SegPtr -> Z -> M (Pointer * error))
    (writePtr : copyContext -> SegPtr -> Z -> Pointer -> M error)
    (cc : copyContext) (dst src : Struct) (h : Heap) :
  (seg dst = None -> copyStruct readPtr writePtr cc dst src h = Done None h) /\
  (backed h dst = true -> backed h src = true ->
   exists ks kd sd dd,
     seg src = Some ks /\ seg dst = Some kd /\
     h !! ks = Some sd /\ h !! kd = Some dd /\
     let dd1 :=
       overwrite (Z.to_nat (off dst))
         (data_after (section_bytes sd (off src) (DataSize (size src)))
                     (Z.to_nat (DataSize (size dst)))) dd in
     let n := Z.min (PointerCount (size src)) (PointerCount (size dst)) in
     length dd1 = length dd /\
     (forall i, 0 <= i < Z.min (DataSize (size src)) (DataSize (size dst)) ->
        dd1 !! Z.to_nat (off dst + i) = sd !! Z.to_nat (off src + i)) /\
     (forall i, DataSize (size src) <= i < DataSize (size dst) ->
        dd1 !! Z.to_nat (off dst + i) = Some 0) /\
     (forall a, 0 <= a -> a < off dst \/ off dst + DataSize (size dst) <= a ->
        dd1 !! Z.to_nat a = dd !! Z.to_nat a) /\
     copyStruct readPtr writePtr cc dst src h
     = copy_pointer_section readPtr writePtr cc dst src (<[kd := dd1]> h) /\
     (forall h', copyStruct readPtr writePtr cc dst src h = Done None h' ->
        forall j, PointerCount (size src) <= j < PointerCount (size dst) ->
          readRawPointer (seg dst) (slot dst j) h' = Done 0 h') /\
     (forall h', copyStruct readPtr writePtr cc dst src h = Done None h' ->
        forall j, 0 <= j < n ->
          exists hx m hx' hy,
            readPtr (seg src) (slot src j) hx = Done (m, None) hx' /\
            writePtr (incDepth cc) (seg dst) (slot dst j) m hx' = Done None hy) /\
     (forall e h', copyStruct readPtr writePtr cc dst src h = Done (Some e) h' ->
        exists j hj,
          0 <= j < n /\
          ((exists m, readPtr (seg src) (slot src j) hj = Done (m, Some e) h') \/
           (exists m hm,
              readPtr (seg src) (slot src j) hj = Done (m, None) hm /\
              writePtr (incDepth cc) (seg dst) (slot dst j) m hm
              = Done (Some e) h'))) /\
     (forall readPtr',
        (forall j hx, 0 <= j < n ->
           readPtr' (seg src) (slot src j) hx = readPtr (seg src) (slot src j) hx) ->
        copyStruct readPtr' writePtr cc dst src h
        = copyStruct readPtr writePtr cc dst src h)).
Proof.
  split; [apply copyStruct_unbacked_dst |].
  intros Hbd Hbs.
  destruct (backed_inv _ _ Hbd) as (kd & dd & Hkd & Hdd & ? & ? & ? & ? & ? & ?).
  destruct (backed_inv _ _ Hbs) as (ks & sd & Hks & Hsd & ? & ? & ? & ? & ? & ?).
  exists ks, kd, sd, dd. repeat (split; [assumption |]).
  intros dd1 n.
  assert (Hsl : length (section_bytes sd (off src) (DataSize (size src)))
                = Z.to_nat (DataSize (size src)))
    by (apply length_section_bytes; lia).
  assert (Hfit : (Z.to_nat (off dst)
                  + length (data_after (section_bytes sd (off src) (DataSize (size src)))
                                       (Z.to_nat (DataSize (size dst))))
                  <= length dd)%nat)
    by (rewrite length_data_after; lia).
  assert (Href : forall rp,
            copyStruct rp writePtr cc dst src h
            = copy_pointer_section rp writePtr cc dst src (<[kd := dd1]> h))
    by (intros rp; now apply (copyStruct_refines rp writePtr cc dst src h ks kd sd dd)).
  split; [subst dd1; now apply length_overwrite |].
  split.
  { intros i Hi. subst dd1.
    rewrite lookup_overwrite_in by (try rewrite length_data_after; lia).
    rewrite lookup_data_after_src by (try rewrite Hsl; lia).
    rewrite lookup_section_bytes by lia. f_equal. lia. }
  split.
  { intros i Hi. subst dd1.
    rewrite lookup_overwrite_in by (try rewrite length_data_after; lia).
    apply lookup_data_after_zero. rewrite Hsl. lia. }
  split.
  { intros a Ha Hout. subst dd1. apply lookup_overwrite_ne; [assumption |].
    rewrite length_data_after. lia. }
  split; [apply Href |].
  split.
  { intros h' Hrun j Hj. rewrite Href in Hrun.
    unfold copy_pointer_section, mbind, M_bind, bind in Hrun.
    destruct (copy_slots readPtr writePtr cc dst src _ _) as [[e |] h2 | x |];
      try discriminate.
    destruct (zero_slots dst _ h2) as [[] h3 | x |] eqn:Hz; try discriminate.
    injection Hrun as <-.
    destruct (zero_slots_zero _ _ _ _ Hz) as [Hzero _].
    destruct (Hzero j) as (k & Hk & Hw); [apply In_seqZ; lia |].
    rewrite Hk. now apply word_zero_read. }
  split.
  { intros h' Hrun j Hj. rewrite Href in Hrun.
    unfold copy_pointer_section, mbind, M_bind, bind in Hrun. fold n in Hrun.
    destruct (copy_slots readPtr writePtr cc dst src (seqZ 0 n) _)
      as [[e |] h2 | x |] eqn:Hslots; try discriminate.
    apply (copy_slots_all _ _ _ _ _ _ _ _ Hslots). apply In_seqZ. lia. }
  split.
  { intros e h' Hrun. rewrite Href in Hrun.
    unfold copy_pointer_section, mbind, M_bind, bind in Hrun. fold n in Hrun.
    destruct (copy_slots readPtr writePtr cc dst src (seqZ 0 n) _)
      as [[e1 |] h2 | x |] eqn:Hslots; try discriminate.
    - injection Hrun as <- <-.
      destruct (copy_slots_error _ _ _ _ _ _ _ _ _ Hslots) as (j & hj & Hin & Hor).
      apply In_seqZ in Hin. exists j, hj. split; [lia | exact Hor].
    - destruct (zero_slots dst _ h2) as [[] h3 | x |]; discriminate. }
  intros readPtr' Hext. rewrite !Href.
  unfold copy_pointer_section, mbind, M_bind, bind. fold n.
  rewrite (copy_slots_ext readPtr readPtr'); [reflexivity |].
  intros j hx Hin. apply Hext. apply In_seqZ in Hin. lia.
Qed.

(** An instance, the growth copy: one data word and one pointer copied
    into two data words and two pointers. *)
Lemma copyStruct_spec_witness :
  backed sample_heap sample_dst = true /\ backed sample_heap sample_src = true /\
  copyStruct model_readPtr (model_writePtr 4 8) (mkCopyContext 0)
             sample_dst sample_src sample_heap
  = Done None
      (<[1%nat := [1; 2; 3; 4; 5; 6; 7; 8;  0; 0; 0; 0; 0; 0; 0; 0;
                   4; 0; 0; 0; 1; 0; 1; 0;  0; 0; 0; 0; 0; 0; 0; 0;
                   9; 9; 9; 9; 9; 9; 9; 9;  0; 0; 0; 0; 0; 0; 0; 0]]>
       sample_heap) /\
  forall h',
    copyStruct model_readPtr (model_writePtr 4 8) (mkCopyContext 0)
               sample_dst sample_src sample_heap = Done None h' ->
    readRawPointer (seg sample_dst) (slot sample_dst 1) h' = Done 0 h'.
Proof.
  assert (H1 : backed sample_heap sample_dst = true) by reflexivity.
  assert (H2 : backed sample_heap sample_src = true) by reflexivity.
  split; [assumption |]. split; [assumption |].
  split; [vm_compute; reflexivity |].
  destruct (proj2 (copyStruct_spec model_readPtr (model_writePtr 4 8)
                     (mkCopyContext 0) sample_dst sample_src sample_heap) H1 H2)
    as (ks & kd & sd & dd & _ & _ & _ & _ & _ & _ & _ & _ & _ & Hzero & _).
  intros h' Hrun. apply (Hzero h' Hrun 1). simpl. lia.
Defined.

(** C10. [copyStruct] tests only the destination's segment for nil.  With
    a source that has no segment, such as the zero [Struct], and a
    destination that has one, the first thing it does is to slice the nil
    source segment, and the call panics with a nil dereference; with an
    unbacked destination it returns before looking at the source. *)
Theorem copyStruct_nil_source (readPtr : SegPtr -> Z -> M (Pointer * error))
    (writePtr : copyContext -> SegPtr -> Z -> Pointer -> M error)
    (cc : copyContext) (dst src : Struct) (h : Heap) :
  seg src = None ->
  copyStruct readPtr writePtr cc dst src h
  = if is_nil (seg dst) then Done None h else Panicked PanicNilDeref.
Proof.
  intros Hs. unfold copyStruct. destruct (is_nil (seg dst)); [reflexivity |].
  rewrite Hs. reflexivity.
Qed.

(** An instance: the zero struct copied into the sample destination. *)
Lemma copyStruct_nil_source_witness :
  seg Struct_zero = None /\ backed sample_heap sample_dst = true /\
  copyStruct model_readPtr (model_writePtr 4 8) (mkCopyContext 0)
             sample_dst Struct_zero sample_heap
  = Panicked PanicNilDeref.
Proof.
  assert (H1 : seg Struct_zero = None) by reflexivity.
  split; [assumption |]. split; [reflexivity |].
  exact (copyStruct_nil_source model_readPtr (model_writePtr 4 8)
           (mkCopyContext 0) sample_dst Struct_zero sample_heap H1).
Defined.

(** ** The recursion depth of the copy *)

(** [copyStruct] hands every sub-pointer to the pointer writer with the
    context one level deeper, and with no other context. *)
Lemma copy_ptrs_depth readPtr writePtr writePtr' fuel cc dst src a b ns nd j h :
  (forall s x m hx,
     writePtr' (incDepth cc) s x m hx = writePtr (incDepth cc) s x m hx) ->
  copy_ptrs readPtr writePtr' fuel cc dst src a b ns nd j h
  = copy_ptrs readPtr writePtr fuel cc dst src a b ns nd j h.
Proof.
  intros Hext. revert j h. induction fuel as [| fuel IH]; intros j h.
  - reflexivity.
  - cbn [copy_ptrs]. destruct ((j <? ns) && (j <? nd)); [| reflexivity].
    unfold mbind, M_bind, bind.
    destruct (readPtr (seg src) (element a j wordSize) h) as [[m [e |]] h1 | x |];
      try reflexivity.
    rewrite Hext.
    destruct (writePtr (incDepth cc) (seg dst) (element b j wordSize) m h1)
      as [[e |] h2 | x |]; try reflexivity.
    apply IH.
Qed.

Lemma copyStruct_depth readPtr writePtr writePtr' cc dst src h :
  (forall s x m hx,
     writePtr' (incDepth cc) s x m hx = writePtr (incDepth cc) s x m hx) ->
  copyStruct readPtr writePtr' cc dst src h
  = copyStruct readPtr writePtr cc dst src h.
Proof.
  intros Hext. unfold copyStruct. destruct (is_nil (seg dst)); [reflexivity |].
  unfold mbind, M_bind, bind.
  destruct (slice (seg src) _ _ h) as [sdata h1 | x |]; try reflexivity.
  destruct (slice (seg dst) _ _ h1) as [ddata h2 | x |]; try reflexivity.
  destruct (go_copy ddata sdata h2) as [c h3 | x |]; try reflexivity.
  destruct (zero_data _ _ 0 h3) as [[] h4 | x |]; try reflexivity.
  now rewrite (copy_ptrs_depth readPtr writePtr writePtr').
Qed.

(** *** Termination *)

Lemma slice_fuel s a n h : slice s a n h <> OutOfFuel.
Proof.
  unfold slice. destruct s as [k |]; [| discriminate].
  destruct (h !! k); [| discriminate].
  destruct (_ && _); discriminate.
Qed.

Lemma readUint_fuel n s a h : readUint n s a h <> OutOfFuel.
Proof.
  unfold readUint, mbind, M_bind, bind.
  pose proof (slice_fuel s a (Z.of_nat n) h).
  destruct (slice s a (Z.of_nat n) h) as [b h1 | x |]; try congruence.
  unfold load. destruct (h1 !! bs_seg b); discriminate.
Qed.

Lemma writeUint_fuel n s a v h : writeUint n s a v h <> OutOfFuel.
Proof.
  unfold writeUint, mbind, M_bind, bind.
  pose proof (slice_fuel s a (Z.of_nat n) h).
  destruct (slice s a (Z.of_nat n) h) as [b h1 | x |]; try congruence.
  unfold store. destruct (h1 !! bs_seg b); discriminate.
Qed.

Lemma go_copy_fuel d s h : go_copy d s h <> OutOfFuel.
Proof.
  unfold go_copy, mbind, M_bind, bind, load, store. cbn [bs_seg].
  destruct (h !! bs_seg s); [| discriminate].
  destruct (h !! bs_seg d); discriminate.
Qed.

Lemma zero_data_fuel n b j h : zero_data n b j h <> OutOfFuel.
Proof.
  revert j h. induction n as [| n IH]; intros j h; [discriminate |].
  cbn [zero_data]. unfold mbind, M_bind, bind.
  destruct (slice_set b j 0 h) as [[] h1 | x |] eqn:E; try discriminate.
  - apply IH.
  - unfold slice_set in E. destruct (_ && _); [| discriminate].
    destruct (h !! bs_seg b); [| discriminate].
    destruct (_ <? _); discriminate.
Qed.

Lemma segLen_fuel s h : segLen s h <> OutOfFuel.
Proof.
  unfold segLen. destruct s as [k |]; [| discriminate].
  destruct (h !! k); discriminate.
Qed.

Lemma model_readPtr_fuel s a h : model_readPtr s a h <> OutOfFuel.
Proof.
  unfold model_readPtr, readRawPointer, readUint64, mbind, M_bind, bind.
  pose proof (readUint_fuel 8 s a h).
  destruct (readUint 8 s a h) as [v h1 | x |]; try congruence.
  pose proof (segLen_fuel s h1).
  destruct (segLen s h1) as [len h2 | x |]; try congruence.
  discriminate.
Qed.

Lemma model_alloc_fuel s sz h : model_alloc s sz h <> OutOfFuel.
Proof.
  unfold model_alloc, mbind, M_bind, bind.
  pose proof (segLen_fuel s h).
  destruct (segLen s h) as [len h1 | x |]; try congruence.
  destruct (_ <? _); [| discriminate].
  unfold grow. destruct s as [k |]; [| discriminate].
  destruct (h1 !! k); discriminate.
Qed.

Section Termination.

Variable readPtr : SegPtr -> Z -> M (Pointer * error).
Variable writePtr : copyContext -> SegPtr -> Z -> Pointer -> M error.
Variables (cc : copyContext) (dst src : Struct).

Hypothesis readPtr_fuel : forall s a h, readPtr s a h <> OutOfFuel.
Hypothesis readPtr_ok :
  forall s a h m e h', readPtr s a h = Done (m, e) h' -> ptr_ok m.
Hypothesis writePtr_fuel :
  forall s a m h, ptr_ok m -> writePtr (incDepth cc) s a m h <> OutOfFuel.

Lemma copy_ptrs_fuel fuel a b ns nd j h :
  0 <= j -> nd <= 65535 -> (Z.to_nat (nd - j) <= fuel)%nat ->
  copy_ptrs readPtr writePtr fuel cc dst src a b ns nd j h <> OutOfFuel.
Proof.
  revert j h. induction fuel as [| fuel IH]; intros j h Hj Hnd Hfuel.
  - cbn [copy_ptrs]. rewrite (proj2 (Z.ltb_ge j nd)) by lia.
    rewrite andb_false_r. discriminate.
  - cbn [copy_ptrs].
    destruct (Z.ltb_spec j nd) as [Hlt | Hge];
      [| rewrite andb_false_r; discriminate].
    destruct (j <? ns); [| discriminate]. cbn [andb].
    unfold mbind, M_bind, bind.
    pose proof (readPtr_fuel (seg src) (element a j wordSize) h).
    destruct (readPtr (seg src) (element a j wordSize) h)
      as [[m [e |]] h1 | x |] eqn:Hr; try congruence; try discriminate.
    pose proof (writePtr_fuel (seg dst) (element b j wordSize) m h1
                  (readPtr_ok _ _ _ _ _ _ Hr)).
    destruct (writePtr (incDepth cc) (seg dst) (element b j wordSize) m h1)
      as [[e |] h2 | x |]; try congruence; try discriminate.
    rewrite u16_small by (change (2 ^ 16) with 65536; lia).
    apply IH; lia.
Qed.

Lemma zero_ptrs_fuel fuel b nd j h :
  0 <= j -> nd <= 65535 -> (Z.to_nat (nd - j) <= fuel)%nat ->
  zero_ptrs fuel dst b nd j h <> OutOfFuel.
Proof.
  revert j h. induction fuel as [| fuel IH]; intros j h Hj Hnd Hfuel.
  - cbn [zero_ptrs]. rewrite (proj2 (Z.ltb_ge j nd)) by lia. discriminate.
  - cbn [zero_ptrs].
    destruct (Z.ltb_spec j nd) as [Hlt | Hge]; [| discriminate].
    unfold mbind, M_bind, bind.
    pose proof (writeUint_fuel 8 (seg dst) (element b j wordSize) 0 h).
    unfold writeRawPointer, writeUint64.
    destruct (writeUint 8 (seg dst) (element b j wordSize) 0 h)
      as [[] h1 | x |]; try congruence; try discriminate.
    rewrite u16_small by (change (2 ^ 16) with 65536; lia).
    apply IH; lia.
Qed.

(** With pointer counts that fit a [uint16], the loops of [copyStruct]
    end by themselves. *)
Lemma copyStruct_fuel h :
  0 <= PointerCount (size src) -> 0 <= PointerCount (size dst) <= 65535 ->
  copyStruct readPtr writePtr cc dst src h <> OutOfFuel.
Proof.
  intros Hs Hd. unfold copyStruct.
  destruct (is_nil (seg dst)); [discriminate |].
  unfold mbind, M_bind, bind.
  pose proof (slice_fuel (seg src) (off src) (DataSize (size src)) h).
  destruct (slice (seg src) _ _ h) as [sdata h1 | x |]; try congruence; try discriminate.
  pose proof (slice_fuel (seg dst) (off dst) (DataSize (size dst)) h1).
  destruct (slice (seg dst) _ _ h1) as [ddata h2 | x |]; try congruence; try discriminate.
  pose proof (go_copy_fuel ddata sdata h2).
  destruct (go_copy ddata sdata h2) as [c h3 | x |]; try congruence; try discriminate.
  pose proof (zero_data_fuel (Z.to_nat (bs_len (slice_from ddata c)))
                (slice_from ddata c) 0 h3).
  destruct (zero_data _ _ 0 h3) as [[] h4 | x |]; try congruence; try discriminate.
  match goal with
  | |- context [copy_ptrs ?r ?w ?f ?c ?d ?s ?a ?b ?ns ?nd ?j ?hh] =>
      pose proof (copy_ptrs_fuel f a b ns nd j hh ltac:(lia) ltac:(lia)
                    ltac:(apply loop_fuel_ge; lia));
      destruct (copy_ptrs r w f c d s a b ns nd j hh) as [[e |] h5 | x |]
  end; try congruence; try discriminate.
  match goal with
  | |- context [zero_ptrs ?f ?d ?b ?nd ?j ?hh] =>
      pose proof (zero_ptrs_fuel f b nd j hh ltac:(lia) ltac:(lia)
                    ltac:(apply loop_fuel_ge; lia));
      destruct (zero_ptrs f d b nd j hh) as [[] h6 | x |]
  end; try congruence; try discriminate.
Qed.

End Termination.

(** *** The reference layer *)

Lemma land_65535_bound x : 0 <= Z.land x 65535 <= 65535.
Proof.
  change 65535 with (Z.ones 16) at 1 2. rewrite Z.land_ones by lia.
  pose proof (Z.mod_pos_bound x (2 ^ 16) ltac:(lia)).
  change (2 ^ 16) with 65536 in *. lia.
Qed.

Lemma decode_pointer_ok s len a v : ptr_ok (decode_pointer s len a v).1.
Proof.
  unfold decode_pointer.
  destruct (v =? 0); [exact I |].
  destruct (Z.land v 3 =? 0); [| exact I].
  destruct (_ && _); [| exact I].
  cbn [fst ptr_ok size PointerCount]. apply land_65535_bound.
Qed.

Lemma model_readPtr_ok s a h m e h' :
  model_readPtr s a h = Done (m, e) h' -> ptr_ok m.
Proof.
  unfold model_readPtr, mbind, M_bind, bind.
  destruct (readRawPointer s a h) as [v h1 | x |]; try discriminate.
  destruct (segLen s h1) as [len h2 | x |]; try discriminate.
  intros [= E _]. pose proof (decode_pointer_ok s len a v) as H.
  now rewrite E in H.
Qed.

Lemma NewStruct_inv alloc s sz h dst h' :
  NewStruct alloc s sz h = Done (dst, None) h' ->
  size dst = mkObjectSize (padToWord (DataSize sz)) (PointerCount sz).
Proof.
  unfold NewStruct, mbind, M_bind, bind.
  destruct (negb (isValid sz)); [discriminate |].
  destruct (alloc s _ h) as [[[sg addr] [e |]] h1 | x |]; try discriminate.
  intros [= <- _]. reflexivity.
Qed.

Lemma NewStruct_fuel alloc s sz h :
  (forall n hx, alloc s n hx <> OutOfFuel) ->
  NewStruct alloc s sz h <> OutOfFuel.
Proof.
  intros Ha. unfold NewStruct, mbind, M_bind, bind.
  destruct (negb (isValid sz)); [discriminate |].
  pose proof (Ha (totalSize (mkObjectSize (padToWord (DataSize sz)) (PointerCount sz))) h).
  destruct (alloc s _ h) as [[[sg addr] [e |]] h1 | x |];
    try congruence; discriminate.
Qed.

(** The reference pointer writer returns whenever its fuel covers the
    levels left below the depth limit. *)
Lemma model_writePtr_total maxDepth fuel :
  forall cc s a m h,
    ptr_ok m ->
    (Z.to_nat (maxDepth - depth cc + 1) <= fuel)%nat ->
    model_writePtr maxDepth fuel cc s a m h <> OutOfFuel.
Proof.
  induction fuel as [| fuel IH]; intros cc s a m h Hm Hfuel.
  - cbn [model_writePtr]. unfold mbind, M_bind, bind.
    destruct (negb (IsValid m)).
    + pose proof (writeUint_fuel 8 s a 0 h). unfold writeRawPointer, writeUint64.
      destruct (writeUint 8 s a 0 h) as [[] h1 | x |]; try congruence; discriminate.
    + destruct m as [| st | o]; try discriminate.
      rewrite (proj2 (Z.ltb_lt maxDepth (depth cc))) by lia. discriminate.
  - cbn [model_writePtr]. unfold mbind, M_bind, bind.
    destruct (negb (IsValid m)).
    + pose proof (writeUint_fuel 8 s a 0 h). unfold writeRawPointer, writeUint64.
      destruct (writeUint 8 s a 0 h) as [[] h1 | x |]; try congruence; discriminate.
    + destruct m as [| st | o]; try discriminate.
      destruct (Z.ltb_spec maxDepth (depth cc)) as [Hdeep | Hok]; [discriminate |].
      pose proof (NewStruct_fuel model_alloc s (size st) h
                    (fun n hx => model_alloc_fuel s n hx)).
      destruct (NewStruct model_alloc s (size st) h) as [[dst [e |]] h1 | x |] eqn:Hnew;
        try congruence; try discriminate.
      apply NewStruct_inv in Hnew.
      assert (Hcopy : copyStruct model_readPtr (model_writePtr maxDepth fuel)
                        cc dst st h1 <> OutOfFuel).
      { apply copyStruct_fuel.
        - apply model_readPtr_fuel.
        - apply model_readPtr_ok.
        - intros s' a' m' h' Hm'. apply IH; [assumption |].
          cbn [incDepth depth]. lia.
        - cbn [ptr_ok] in Hm. lia.
        - rewrite Hnew. cbn [PointerCount]. exact Hm. }
      destruct (copyStruct model_readPtr (model_writePtr maxDepth fuel) cc dst st h1)
        as [[e |] h2 | x |]; try congruence; try discriminate.
      pose proof (writeUint_fuel 8 s a (value dst a) h2).
      unfold writeRawPointer, writeUint64.
      destruct (writeUint 8 s a (value dst a) h2) as [[] h3 | x |];
        try congruence; discriminate.
Qed.

(** Termination of the copy: over the reference layer, [copyStruct]
    returns (or panics) for every input whose pointer counts fit a
    [uint16], once the fuel covers the levels left below the limit. *)
Lemma copyStruct_model_total maxDepth fuel cc dst src h :
  0 <= PointerCount (size src) -> 0 <= PointerCount (size dst) <= 65535 ->
  (Z.to_nat (maxDepth - depth cc) <= fuel)%nat ->
  copyStruct model_readPtr (model_writePtr maxDepth fuel) cc dst src h
  <> OutOfFuel.
Proof.
  intros Hs Hd Hfuel. apply copyStruct_fuel; try assumption.
  - apply model_readPtr_fuel.
  - apply model_readPtr_ok.
  - intros s a m hx Hm. apply model_writePtr_total; [assumption |].
    cbn [incDepth depth]. lia.
Qed.

(** *** Chains deeper than the limit *)

Lemma backed_intro h p k (d : list Z) :
  seg p = Some k -> h !! k = Some d ->
  0 <= off p -> 0 <= DataSize (size p) <= 524280 ->
  0 <= PointerCount (size p) <= 65535 ->
  off p + DataSize (size p) + 8 * PointerCount (size p) <= Z.of_nat (length d) ->
  Z.of_nat (length d) < 2 ^ 32 ->
  backed h p = true.
Proof.
  intros Hk Hd Ho Hds Hpc Hfit Hlen. unfold backed, isValid, wordSize.
  rewrite Hk, Hd.
  repeat (apply andb_true_intro; split);
    try (apply Z.leb_le; lia); apply Z.ltb_lt;
    change (2 ^ 16) with 65536; lia.
Qed.

Lemma readUint_eval n k (d : list Z) a (h : Heap) :
  h !! k = Some d ->
  readUint n (Some k) a h
  = if (0 <=? a) && (0 <=? Z.of_nat n) && (a + Z.of_nat n <=? Z.of_nat (length d))
    then Done (le_decode (take n (drop (Z.to_nat a) d))) h
    else Panicked PanicBounds.
Proof.
  intros Hd. unfold readUint, slice, mbind, M_bind, bind. rewrite Hd.
  destruct (_ && _); [| reflexivity].
  unfold load. cbn [bs_seg bs_base bs_len]. rewrite Hd.
  now rewrite Nat2Z.id.
Qed.

(** The reference decoder looks at nothing but the segment it is given,
    and leaves the heap alone. *)
Lemma model_readPtr_eval k (d : list Z) a (h : Heap) :
  h !! k = Some d ->
  model_readPtr (Some k) a h
  = if (0 <=? a) && (0 <=? 8) && (a + 8 <=? Z.of_nat (length d))
    then Done (decode_pointer (Some k) (Z.of_nat (length d)) a
                 (le_decode (take 8 (drop (Z.to_nat a) d)))) h
    else Panicked PanicBounds.
Proof.
  intros Hd. unfold model_readPtr, readRawPointer, readUint64.
  unfold mbind, M_bind, bind at 1. rewrite (readUint_eval 8 k d a h Hd).
  change (Z.of_nat 8) with 8.
  destruct (_ && _); [| reflexivity].
  unfold bind, segLen. now rewrite Hd.
Qed.

Lemma model_readPtr_local k a (h h1 : Heap) :
  h1 !! k = h !! k ->
  model_readPtr (Some k) a h1
  = match model_readPtr (Some k) a h with
    | Done r _ => Done r h1
    | Panicked x => Panicked x
    | OutOfFuel => OutOfFuel
    end.
Proof.
  intros E. destruct (h !! k) as [d |] eqn:Hd.
  - rewrite (model_readPtr_eval k d a h1 E), (model_readPtr_eval k d a h Hd).
    destruct (_ && _); reflexivity.
  - unfold model_readPtr, readRawPointer, readUint64, readUint, slice,
      mbind, M_bind, bind. now rewrite E, Hd.
Qed.

Lemma model_readPtr_struct k a (h h' : Heap) st :
  model_readPtr (Some k) a h = Done (PStruct st, None) h' ->
  h' = h /\ seg st = Some k /\
  exists d, h !! k = Some d /\ 0 <= off st /\
            0 <= DataSize (size st) <= 524280 /\
            0 <= PointerCount (size st) <= 65535 /\
            off st + DataSize (size st) + 8 * PointerCount (size st)
            <= Z.of_nat (length d).
Proof.
  destruct (h !! k) as [d |] eqn:Hd.
  - rewrite (model_readPtr_eval k d a h Hd).
    destruct (_ && _); [| discriminate].
    unfold decode_pointer. set (v := le_decode _).
    destruct (v =? 0); [discriminate |].
    destruct (Z.land v 3 =? 0); [| discriminate].
    pose proof (land_65535_bound (Z.shiftr v 32)) as Hw.
    pose proof (land_65535_bound (Z.shiftr v 48)) as Hp.
    set (sz := mkObjectSize _ _).
    assert (Ht : totalSize sz = DataSize sz + 8 * PointerCount sz).
    { unfold totalSize, pointerSize, times, wordSize. subst sz.
      cbn [DataSize PointerCount] in *. unfold wordSize.
      rewrite (u32_small (8 * _)) by lia. apply u32_small. lia. }
    rewrite Ht.
    destruct (0 <=? _) eqn:H0; [| discriminate].
    destruct (_ <=? Z.of_nat (length d)) eqn:H1; [| discriminate].
    cbn [andb]. intros [= <- <-].
    apply Z.leb_le in H0, H1. subst sz.
    cbn [seg off size DataSize PointerCount] in *. unfold wordSize in *.
    split; [reflexivity |]. split; [reflexivity |].
    exists d. repeat split; auto; lia.
  - unfold model_readPtr, readRawPointer, readUint64, readUint, slice,
      mbind, M_bind, bind. rewrite Hd. discriminate.
Qed.

Lemma padToWord_bound sz :
  0 <= sz <= 524280 -> sz <= padToWord sz <= 524280.
Proof.
  intros H. rewrite padToWord_round by assumption.
  pose proof (Z.div_mod (sz + 7) 8 ltac:(lia)).
  pose proof (Z.mod_pos_bound (sz + 7) 8 ltac:(lia)).
  assert ((sz + 7) / 8 < 65536) by (apply Z.div_lt_upper_bound; lia).
  lia.
Qed.

(** The reference allocator appends a zeroed struct to the preferred
    segment when the segment has room for it. *)
Lemma NewStruct_model_run kd (d : list Z) sz (h : Heap) :
  h !! kd = Some d ->
  0 <= DataSize sz <= 524280 -> 0 <= PointerCount sz <= 65535 ->
  Z.of_nat (length d) + max_struct_bytes < 2 ^ 32 ->
  let pad := padToWord (DataSize sz) in
  NewStruct model_alloc (Some kd) sz h
  = Done (mkStruct (Some kd) (Z.of_nat (length d))
                   (mkObjectSize pad (PointerCount sz)) 0, None)
         (<[kd := d ++ replicate (Z.to_nat (pad + 8 * PointerCount sz)) 0]> h).
Proof.
  intros Hd Hds Hpc Hroom pad.
  pose proof (padToWord_bound _ Hds) as Hpad. fold pad in Hpad.
  unfold max_struct_bytes in Hroom.
  unfold NewStruct, isValid, wordSize.
  rewrite (proj2 (Z.leb_le _ _)) by lia. cbn [negb]. fold pad.
  assert (Ht : totalSize (mkObjectSize pad (PointerCount sz))
               = pad + 8 * PointerCount sz).
  { unfold totalSize, pointerSize, times, wordSize. cbn [DataSize PointerCount].
    rewrite (u32_small (8 * _)) by lia. apply u32_small. lia. }
  rewrite Ht.
  unfold model_alloc, segLen, grow, mbind, M_bind, bind. rewrite Hd.
  rewrite (proj2 (Z.ltb_lt _ _)) by lia. rewrite Hd. reflexivity.
Qed.

Lemma model_writePtr_too_deep maxDepth fuel cc s a st h :
  seg st <> None -> maxDepth < depth cc ->
  model_writePtr maxDepth fuel cc s a (PStruct st) h
  = Done (Some errCopyDepth) h.
Proof.
  intros Hs Hd.
  assert (Hv : IsValid (PStruct st) = true)
    by (unfold IsValid, Pointer_Segment; now apply bool_decide_eq_true_2).
  destruct fuel; cbn [model_writePtr]; rewrite Hv; cbn [negb];
    now rewrite (proj2 (Z.ltb_lt _ _) Hd).
Qed.

Lemma model_writePtr_struct maxDepth fuel cc s a st h :
  seg st <> None -> depth cc <= maxDepth ->
  model_writePtr maxDepth (S fuel) cc s a (PStruct st) h
  = ('(dst, err) ← NewStruct model_alloc s (size st);
     match err with
     | Some e => mret (Some e)
     | None =>
         err ← copyStruct model_readPtr (model_writePtr maxDepth fuel) cc dst st;
         match err with
         | Some e => mret (Some e)
         | None => writeRawPointer s a (value dst a);; mret None
         end
     end) h.
Proof.
  intros Hs Hd.
  assert (Hv : IsValid (PStruct st) = true)
    by (unfold IsValid, Pointer_Segment; now apply bool_decide_eq_true_2).
  cbn [model_writePtr]. rewrite Hv. cbn [negb].
  now rewrite (proj2 (Z.ltb_ge _ _) Hd).
Qed.

(** *** What a copy may change *)

Lemma only_refl kd h : only kd h h.
Proof. intros k _. reflexivity. Qed.

Lemma only_trans kd h1 h2 h3 : only kd h1 h2 -> only kd h2 h3 -> only kd h1 h3.
Proof. intros H12 H23 k Hk. rewrite (H23 k Hk). now apply H12. Qed.

Lemma only_insert kd (d : list Z) (h : Heap) : only kd h (<[kd := d]> h).
Proof. intros k Hk. now apply lookup_insert_ne. Qed.

Lemma writeUint_only n kd a v (h h' : Heap) :
  writeUint n (Some kd) a v h = Done tt h' -> only kd h h'.
Proof.
  intros H. destruct (writeUint_inv _ _ _ _ _ _ H) as (k & d & [= <-] & _ & _ & _ & ->).
  apply only_insert.
Qed.

Lemma go_copy_only d s (h h' : Heap) n :
  go_copy d s h = Done n h' -> only (bs_seg d) h h'.
Proof.
  unfold go_copy, load, store, mbind, M_bind, bind. cbn [bs_seg bs_base bs_len].
  destruct (h !! bs_seg s); [| discriminate].
  destruct (h !! bs_seg d); [| discriminate].
  intros [= _ <-]. apply only_insert.
Qed.

Lemma zero_data_only n b j (h h' : Heap) :
  zero_data n b j h = Done tt h' -> only (bs_seg b) h h'.
Proof.
  revert j h. induction n as [| n IH]; intros j h.
  - intros [= <-]. apply only_refl.
  - cbn [zero_data]. unfold mbind, M_bind, bind.
    destruct (slice_set b j 0 h) as [[] h1 | x |] eqn:E; try discriminate.
    intros H. apply (only_trans _ _ h1); [| now apply (IH (j + 1))].
    unfold slice_set in E. destruct (_ && _); [| discriminate].
    destruct (h !! bs_seg b); [| discriminate].
    destruct (_ <? _); [| discriminate].
    injection E as <-. apply only_insert.
Qed.

Section Frame.

Variable readPtr : SegPtr -> Z -> M (Pointer * error).
Variable writePtr : copyContext -> SegPtr -> Z -> Pointer -> M error.
Variables (cc : copyContext) (dst src : Struct) (kd : nat).

Hypothesis dst_seg : seg dst = Some kd.
Hypothesis readPtr_only :
  forall s a h r h', readPtr s a h = Done r h' -> only kd h h'.
Hypothesis writePtr_only :
  forall a m h e h',
    writePtr (incDepth cc) (Some kd) a m h = Done e h' -> only kd h h'.

Lemma copy_ptrs_only fuel a b ns nd j h e h' :
  copy_ptrs readPtr writePtr fuel cc dst src a b ns nd j h = Done e h' ->
  only kd h h'.
Proof.
  revert j h. induction fuel as [| fuel IH]; intros j h.
  - cbn [copy_ptrs]. destruct (_ && _); [discriminate |].
    intros [= _ <-]. apply only_refl.
  - cbn [copy_ptrs]. destruct (_ && _);
      [| intros [= _ <-]; apply only_refl].
    unfold mbind, M_bind, bind.
    destruct (readPtr (seg src) (element a j wordSize) h)
      as [[m [e1 |]] h1 | x |] eqn:Hr; try discriminate.
    + intros [= _ <-]. eapply readPtr_only; eauto.
    + rewrite dst_seg.
      destruct (writePtr (incDepth cc) (Some kd) (element b j wordSize) m h1)
        as [[e2 |] h2 | x |] eqn:Hw; try discriminate.
      * intros [= _ <-].
        eapply only_trans; [eapply readPtr_only | eapply writePtr_only]; eauto.
      * intros H. eapply only_trans; [eapply readPtr_only; eauto |].
        eapply only_trans; [eapply writePtr_only; eauto |].
        eapply IH; eauto.
Qed.

Lemma zero_ptrs_only fuel b nd j h h' :
  zero_ptrs fuel dst b nd j h = Done tt h' -> only kd h h'.
Proof.
  revert j h. induction fuel as [| fuel IH]; intros j h.
  - cbn [zero_ptrs]. destruct (_ <? _); [discriminate |].
    intros [= <-]. apply only_refl.
  - cbn [zero_ptrs]. destruct (_ <? _); [| intros [= <-]; apply only_refl].
    unfold mbind, M_bind, bind. rewrite dst_seg.
    destruct (writeRawPointer (Some kd) (element b j wordSize) 0 h)
      as [[] h1 | x |] eqn:Hw; try discriminate.
    intros H. eapply only_trans; [eapply writeUint_only; exact Hw |].
    eapply IH; eauto.
Qed.

(** [copyStruct] changes no segment but the destination's, when the
    pointer layer it calls changes none. *)
Lemma copyStruct_only h e h' :
  copyStruct readPtr writePtr cc dst src h = Done e h' -> only kd h h'.
Proof.
  unfold copyStruct. rewrite dst_seg. cbn [is_nil].
  unfold mbind, M_bind, bind.
  destruct (slice (seg src) _ _ h) as [sdata h1 | x1 |] eqn:Hs1; try discriminate.
  destruct (slice_inv _ _ _ _ _ _ Hs1) as (? & ? & _ & _ & _ & _ & _ & _ & ->).
  destruct (slice (Some kd) _ _ h) as [ddata h2 | x2 |] eqn:Hs2; try discriminate.
  destruct (slice_inv _ _ _ _ _ _ Hs2) as (k' & ? & [= <-] & _ & _ & _ & _ & -> & ->).
  destruct (go_copy _ sdata h) as [c h3 | x3 |] eqn:Hc; try discriminate.
  apply go_copy_only in Hc. cbn [bs_seg] in Hc.
  destruct (zero_data _ _ 0 h3) as [[] h4 | x4 |] eqn:Hz; try discriminate.
  apply zero_data_only in Hz. cbn [slice_from bs_seg] in Hz.
  destruct (copy_ptrs _ _ _ _ _ _ _ _ _ _ _ h4) as [[e1 |] h5 | x5 |] eqn:Hp;
    try discriminate; apply copy_ptrs_only in Hp.
  - intros [= _ <-]. eauto using only_trans.
  - destruct (zero_ptrs _ _ _ _ _ h5) as [[] h6 | x6 |] eqn:Hzp; try discriminate.
    apply zero_ptrs_only in Hzp. intros [= _ <-]. eauto using only_trans.
Qed.

End Frame.

Lemma readUint_pure n s a (h h' : Heap) v :
  readUint n s a h = Done v h' -> h' = h.
Proof.
  unfold readUint, mbind, M_bind, bind.
  destruct (slice s a (Z.of_nat n) h) as [b h1 | x |] eqn:Hs; try discriminate.
  destruct (slice_inv _ _ _ _ _ _ Hs) as (_ & _ & _ & _ & _ & _ & _ & _ & ->).
  unfold load. destruct (h !! bs_seg b); [| discriminate].
  now intros [= _ <-].
Qed.

Lemma model_readPtr_pure s a (h h' : Heap) r :
  model_readPtr s a h = Done r h' -> h' = h.
Proof.
  unfold model_readPtr, readRawPointer, readUint64, mbind, M_bind, bind.
  destruct (readUint 8 s a h) as [v h1 | x |] eqn:Hr; try discriminate.
  apply readUint_pure in Hr. subst h1.
  unfold segLen. destruct s as [k |]; [| discriminate].
  destruct (h !! k); [| discriminate]. now intros [= _ <-].
Qed.

Lemma NewStruct_model_inv kd sz (h h' : Heap) dst :
  NewStruct model_alloc (Some kd) sz h = Done (dst, None) h' ->
  0 <= DataSize sz -> 0 <= PointerCount sz <= 65535 ->
  seg dst = Some kd /\ PointerCount (size dst) = PointerCount sz /\
  backed h' dst = true /\ only kd h h'.
Proof.
  intros H Hds Hpc. unfold NewStruct in H.
  destruct (isValid sz) eqn:Hv; [| discriminate]. cbn [negb] in H.
  unfold isValid, wordSize in Hv. apply Z.leb_le in Hv.
  pose proof (padToWord_bound (DataSize sz) ltac:(lia)) as Hpad.
  set (pad := padToWord (DataSize sz)) in *.
  assert (Ht : totalSize (mkObjectSize pad (PointerCount sz))
               = pad + 8 * PointerCount sz).
  { unfold totalSize, pointerSize, times, wordSize. cbn [DataSize PointerCount].
    rewrite (u32_small (8 * _)) by lia. apply u32_small. lia. }
  rewrite Ht in H.
  unfold model_alloc, segLen, grow, mbind, M_bind, bind in H.
  destruct (h !! kd) as [d |] eqn:Hd; [| discriminate].
  destruct (_ <? 2 ^ 32) eqn:Hroom; [| discriminate].
  rewrite Hd in H. cbn [mret M_ret ret] in H. injection H as <- <-.
  apply Z.ltb_lt in Hroom. cbn [seg size PointerCount].
  split; [reflexivity |]. split; [reflexivity |]. split; [| apply only_insert].
  eapply (backed_intro _ _ kd); cbn [seg off size DataSize PointerCount];
    first [reflexivity | apply lookup_insert_eq | lia
          | rewrite length_app, length_replicate; lia].
Qed.

Lemma NewStruct_model_only kd sz (h h' : Heap) r :
  NewStruct model_alloc (Some kd) sz h = Done r h' -> only kd h h'.
Proof.
  unfold NewStruct, model_alloc, segLen, grow, mbind, M_bind, bind.
  destruct (negb (isValid sz)); [intros [= _ <-]; apply only_refl |].
  destruct (h !! kd) as [d |] eqn:Hd; [| discriminate].
  destruct (_ <? 2 ^ 32); [| intros [= _ <-]; apply only_refl].
  rewrite Hd. cbn [mret M_ret ret]. intros [= _ <-]. apply only_insert.
Qed.

(** The reference pointer writer changes no segment but the one it
    writes into. *)
Lemma model_writePtr_only maxDepth fuel :
  forall cc kd a m (h h' : Heap) e,
    model_writePtr maxDepth fuel cc (Some kd) a m h = Done e h' ->
    only kd h h'.
Proof.
  induction fuel as [| fuel IH]; intros cc kd a m h h' e.
  - cbn [model_writePtr]. unfold mbind, M_bind, bind.
    destruct (negb (IsValid m)).
    + destruct (writeRawPointer (Some kd) a 0 h) as [[] h1 | x |] eqn:Hw;
        try discriminate.
      intros [= _ <-]. eapply writeUint_only; exact Hw.
    + destruct m as [| st | o]; try (intros [= _ <-]; apply only_refl).
      destruct (_ <? _); [intros [= _ <-]; apply only_refl | discriminate].
  - cbn [model_writePtr]. unfold mbind, M_bind, bind.
    destruct (negb (IsValid m)).
    + destruct (writeRawPointer (Some kd) a 0 h) as [[] h1 | x |] eqn:Hw;
        try discriminate.
      intros [= _ <-]. eapply writeUint_only; exact Hw.
    + destruct m as [| st | o]; try (intros [= _ <-]; apply only_refl).
      destruct (_ <? _); [intros [= _ <-]; apply only_refl |].
      destruct (NewStruct model_alloc (Some kd) (size st) h)
        as [[dst [e1 |]] h1 | x |] eqn:Hnew; try discriminate.
      * intros [= _ <-]. eapply NewStruct_model_only; exact Hnew.
      * pose proof (NewStruct_model_only _ _ _ _ _ Hnew) as Ho1.
        assert (Hsd : seg dst = Some kd).
        { unfold NewStruct, mbind, M_bind, bind in Hnew.
          destruct (negb (isValid (size st))); [discriminate |].
          unfold model_alloc, segLen, grow, mbind, M_bind, bind in Hnew.
          destruct (h !! kd) as [d |] eqn:Hd; [| discriminate].
          destruct (_ <? 2 ^ 32); [| discriminate].
          rewrite Hd in Hnew. cbn [mret M_ret ret] in Hnew.
          now injection Hnew as <- _. }
        destruct (copyStruct model_readPtr (model_writePtr maxDepth fuel) cc dst st h1)
          as [[e2 |] h2 | x |] eqn:Hcopy; try discriminate.
        -- intros [= _ <-]. eapply only_trans; [exact Ho1 |].
           eapply (copyStruct_only model_readPtr (model_writePtr maxDepth fuel));
             [exact Hsd | | | exact Hcopy].
           ++ intros s0 a0 hx r hx' Hr. apply model_readPtr_pure in Hr.
              subst hx'. apply only_refl.
           ++ intros a0 m0 hx e0 hx'. apply IH.
        -- destruct (writeRawPointer (Some kd) a (value dst a) h2)
             as [[] h3 | x |] eqn:Hw; try discriminate.
           intros [= _ <-]. eapply only_trans; [exact Ho1 |].
           eapply only_trans; [| eapply writeUint_only; exact Hw].
           eapply (copyStruct_only model_readPtr (model_writePtr maxDepth fuel));
             [exact Hsd | | | exact Hcopy].
           ++ intros s0 a0 hx r hx' Hr. apply model_readPtr_pure in Hr.
              subst hx'. apply only_refl.
           ++ intros a0 m0 hx e0 hx'. apply IH.
Qed.

(** * Further properties *)

(** ** Narrowing a pointer to a struct *)

(** X1. With a nil default, [ToStructDefault] is [ToStruct]: for every
    pointer it returns [ToStruct p] and no error, and never runs the
    decoder of defaults. *)
Theorem ToStructDefault_nil_default
    (unmarshalDefault : list Z -> M (Pointer * error)) (p : Pointer) (h : Heap) :
  ToStructDefault unmarshalDefault p None h = Done (ToStruct p, None) h.
Proof.
  unfold ToStructDefault, ToStruct.
  destruct (IsValid p); cbn [negb]; [| reflexivity].
  destruct p; reflexivity.
Qed.

(** X2. A valid struct pointer wins over the default: it is returned as it
    is, with no error and the heap untouched, whatever the default bytes
    and whatever the decoder would do with them; and [ToStruct] returns
    the same struct. *)
Theorem ToStructDefault_valid_struct
    (unmarshalDefault : list Z -> M (Pointer * error))
    (s : Struct) (def : option (list Z)) (h : Heap) :
  seg s <> None ->
  ToStructDefault unmarshalDefault (PStruct s) def h = Done (s, None) h /\
  ToStruct (PStruct s) = s.
Proof.
  intros Hs.
  assert (Hv : IsValid (PStruct s) = true)
    by (unfold IsValid, Pointer_Segment; now apply bool_decide_eq_true_2).
  unfold ToStructDefault, ToStruct. rewrite Hv. split; reflexivity.
Qed.

(** An instance: the first sample struct, with a decoder that panics. *)
Lemma ToStructDefault_valid_struct_witness :
  seg sample_src <> None /\
  ToStructDefault (fun _ => panic PanicBounds) (PStruct sample_src)
                  (Some sample_default) sample_heap
  = Done (sample_src, None) sample_heap.
Proof.
  assert (H1 : seg sample_src <> None) by discriminate.
  split; [assumption |].
  exact (proj1 (ToStructDefault_valid_struct (fun _ => panic PanicBounds)
                  sample_src (Some sample_default) sample_heap H1)).
Defined.

(** [ToStruct] returns the zero struct or the struct [p] is: a result that
    has a segment is [p] itself. *)
Lemma ToStruct_backed_inv p s :
  ToStruct p = s -> seg s <> None -> p = PStruct s.
Proof.
  unfold ToStruct. destruct (IsValid p); cbn [negb].
  - destruct p; intros <-; cbn [Struct_zero seg]; congruence.
  - intros <-. cbn [Struct_zero seg]. congruence.
Qed.

(** ** Allocation of a root struct *)

Lemma NewStruct_size alloc s sz (h h' : Heap) st :
  0 <= DataSize sz < 2 ^ 32 ->
  NewStruct alloc s sz h = Done (st, None) h' ->
  isValid sz = true /\ isValid (size st) = true /\
  DataSize (size st) mod 8 = 0 /\
  DataSize sz <= DataSize (size st) < DataSize sz + 8 /\
  PointerCount (size st) = PointerCount sz.
Proof.
  intros Hd H. pose proof (NewStruct_inv _ _ _ _ _ _ H) as Hsz.
  unfold NewStruct in H. destruct (isValid sz) eqn:Hv; [| discriminate].
  unfold isValid, wordSize in Hv. apply Z.leb_le in Hv.
  pose proof (padToWord_bound (DataSize sz) ltac:(lia)) as Hb.
  pose proof (round_up_word (DataSize sz)) as [Hr Hm].
  rewrite <- padToWord_round in Hr, Hm by lia.
  rewrite Hsz. cbn [DataSize PointerCount]. unfold isValid, wordSize.
  cbn [DataSize]. repeat split; lia.
Qed.

(** X3. Every struct that [NewRootStruct] returns without error was
    allocated by [NewStruct] on the same heap and accepted by [SetRoot];
    its data size is the requested one rounded up to a multiple of 8 and
    is representable, and its pointer count is the requested one.  A size
    that is not representable is refused with the size error before the
    allocator or [SetRoot] is run. *)
Theorem NewRootStruct_size (alloc : SegPtr -> Z -> M (SegPtr * Z * error))
    (setRoot : SegPtr -> Struct -> M error)
    (s : SegPtr) (sz : ObjectSize) (h : Heap) :
  0 <= DataSize sz < 2 ^ 32 ->
  (isValid sz = false ->
   NewRootStruct alloc setRoot s sz h = Done (Struct_zero, Some errObjectSize) h) /\
  (forall st h',
     NewRootStruct alloc setRoot s sz h = Done (st, None) h' ->
     (exists h1, NewStruct alloc s sz h = Done (st, None) h1 /\
                 setRoot s st h1 = Done None h') /\
     isValid (size st) = true /\
     DataSize (size st) mod 8 = 0 /\
     DataSize sz <= DataSize (size st) < DataSize sz + 8 /\
     PointerCount (size st) = PointerCount sz).
Proof.
  intros Hd. split.
  - intros Hv. unfold NewRootStruct, NewStruct. rewrite Hv. reflexivity.
  - intros st h' H. unfold NewRootStruct in H.
    unfold mbind, M_bind, bind in H.
    destruct (NewStruct alloc s sz h) as [[st1 [e |]] h1 | x |] eqn:Hnew;
      try discriminate.
    destruct s as [k |]; cbn [is_nil] in H; [| discriminate].
    destruct (setRoot (Some k) st1 h1) as [[e |] h2 | x |] eqn:Hroot;
      try discriminate.
    injection H as <- <-.
    destruct (NewStruct_size _ _ _ _ _ _ Hd Hnew) as (_ & ? & ? & ? & ?).
    split; [exists h1; auto | auto].
Qed.

(** An instance: 13 data bytes and 2 pointers as the root of segment 1 of
    the sample heap. *)
Lemma NewRootStruct_size_witness :
  0 <= DataSize (mkObjectSize 13 2) < 2 ^ 32 /\
  exists st h',
    NewRootStruct model_alloc model_setRoot (Some 1%nat) (mkObjectSize 13 2)
                  sample_heap = Done (st, None) h' /\
    DataSize (size st) = 16 /\ PointerCount (size st) = 2.
Proof.
  assert (H1 : 0 <= DataSize (mkObjectSize 13 2) < 2 ^ 32) by (simpl; lia).
  split; [assumption |].
  destruct (NewRootStruct model_alloc model_setRoot (Some 1%nat)
              (mkObjectSize 13 2) sample_heap) as [[st [e |]] h' | x |] eqn:E;
    try (vm_compute in E; discriminate).
  exists st, h'. split; [reflexivity |].
  destruct (proj2 (NewRootStruct_size model_alloc model_setRoot (Some 1%nat)
                     (mkObjectSize 13 2) sample_heap H1) st h' E)
    as (_ & _ & Hm & Hr & Hp).
  cbn [DataSize PointerCount] in Hr, Hp. split; [| assumption].
  pose proof (Z.div_mod (DataSize (size st)) 8 ltac:(lia)). lia.
Defined.

(** ** Scalar fields, offsets that do not wrap *)

Lemma Uint_w_UintN w :
  In w [8; 16; 32; 64] ->
  Uint_w w = UintN (Z.to_nat (w / 8)) /\ SetUint_w w = SetUintN (Z.to_nat (w / 8)) /\
  0 < w / 8 <= 8 /\ Z.of_nat (Z.to_nat (w / 8)) = w / 8.
Proof.
  simpl. intros [<- | [<- | [<- | [<- | []]]]]; repeat split;
    try reflexivity; vm_compute; (reflexivity || discriminate).
Qed.

Lemma dataAddress_no_wrap h p o sz :
  backed h p = true -> 0 <= o -> 0 <= sz -> o + sz < 2 ^ 32 ->
  dataAddress p o sz
  = if DataSize (size p) <? o + sz then (0, false) else (off p + o, true).
Proof.
  intros Hb Ho Hsz Hw.
  destruct (backed_inv _ _ Hb) as (k & d & Hk & Hd & Hs & Hoff & Hds & Hpc & Hin & Hlen).
  unfold dataAddress. rewrite Hk. cbn [is_nil orb]. rewrite u32_small by lia.
  destruct (Z.ltb_spec (DataSize (size p)) (o + sz)); [reflexivity |].
  unfold addOffset. now rewrite u32_small by lia.
Qed.

Lemma UintN_eval n p o (h : Heap) k (d : list Z) :
  backed h p = true -> seg p = Some k -> h !! k = Some d ->
  0 <= o -> o + Z.of_nat n < 2 ^ 32 ->
  UintN n p o h
  = Done (if DataSize (size p) <? o + Z.of_nat n then 0
          else le_decode (section_bytes d (off p + o) (Z.of_nat n))) h.
Proof.
  intros Hb Hk Hd Ho Hw.
  destruct (backed_inv _ _ Hb) as (k' & d' & Hk' & Hd' & Hs & Hoff & Hds & Hpc & Hin & Hlen).
  assert (k' = k) by congruence. subst k'.
  assert (d' = d) by congruence. subst d'.
  unfold UintN. rewrite (dataAddress_no_wrap h) by (auto; lia).
  destruct (Z.ltb_spec (DataSize (size p)) (o + Z.of_nat n)); [reflexivity |].
  cbn [negb]. rewrite Hk. rewrite (readUint_run n k d) by (auto; lia).
  unfold section_bytes. now rewrite Nat2Z.id.
Qed.

(** X4. Reads whose offset does not wrap are total: on an unbacked or a
    backed struct, for each of the four widths and every offset with
    [o + w/8 < 2^32], the read returns a value and leaves the heap as it
    is; the value is 0 when the struct is unbacked or the field reaches
    past the data section, and otherwise the little-endian value of the
    [w/8] bytes at [off + o] of the struct's segment. *)
Theorem Uint_w_no_wrap (w : Z) (p : Struct) (o : Z) (h : Heap) :
  In w [8; 16; 32; 64] ->
  seg p = None \/ backed h p = true ->
  0 <= o -> o + w / 8 < 2 ^ 32 ->
  exists v,
    Uint_w w p o h = Done v h /\
    (seg p = None \/ DataSize (size p) < o + w / 8 -> v = 0) /\
    (forall k d, seg p = Some k -> h !! k = Some d ->
       o + w / 8 <= DataSize (size p) ->
       v = le_decode (section_bytes d (off p + o) (w / 8))).
Proof.
  intros Hw Hp Ho Hwrap.
  destruct (Uint_w_UintN w Hw) as (-> & _ & Hpos & Hn).
  set (n := Z.to_nat (w / 8)) in *. rewrite <- Hn in *.
  destruct Hp as [Hnil | Hb].
  - exists 0. split; [now apply UintN_unbacked |].
    split; [reflexivity | congruence].
  - destruct (backed_inv _ _ Hb) as (k & d & Hk & Hd & _).
    rewrite (UintN_eval n p o h k d) by assumption.
    eexists. split; [reflexivity |]. split.
    + intros [Hnil | Hlt]; [congruence |].
      now rewrite (proj2 (Z.ltb_lt _ _) Hlt).
    + intros k' d' Hk' Hd' Hin.
      assert (k' = k) by congruence. subst k'.
      assert (d' = d) by congruence. subst d'.
      now rewrite (proj2 (Z.ltb_ge _ _) Hin).
Qed.

(** An instance: the 32-bit field at offset 6 of the first sample struct
    reaches past its 8 data bytes and reads as 0. *)
Lemma Uint_w_no_wrap_witness :
  In 32 [8; 16; 32; 64] /\
  (seg sample_src = None \/ backed sample_heap sample_src = true) /\
  0 <= 6 /\ 6 + 32 / 8 < 2 ^ 32 /\
  Uint_w 32 sample_src 6 sample_heap = Done 0 sample_heap.
Proof.
  assert (H1 : In 32 [8; 16; 32; 64]) by (simpl; auto).
  assert (H2 : seg sample_src = None \/ backed sample_heap sample_src = true)
    by (right; reflexivity).
  assert (H3 : 0 <= 6) by lia.
  assert (H4 : 6 + 32 / 8 < 2 ^ 32) by (vm_compute; reflexivity).
  repeat (split; [assumption |]).
  destruct (Uint_w_no_wrap 32 sample_src 6 sample_heap H1 H2 H3 H4)
    as (v & Hrun & Hzero & _).
  rewrite Hrun. f_equal. apply Hzero. right. vm_compute. reflexivity.
Defined.

Lemma SetUintN_run n p o v (h : Heap) k (d : list Z) :
  backed h p = true -> seg p = Some k -> h !! k = Some d ->
  0 <= o -> o + Z.of_nat n <= DataSize (size p) ->
  SetUintN n p o v h
  = Done tt (<[k := overwrite (Z.to_nat (off p + o)) (le_encode n v) d]> h).
Proof.
  intros Hb Hk Hd Ho Hr.
  destruct (backed_inv _ _ Hb) as (k' & d' & Hk' & Hd' & Hs & Hoff & Hds & Hpc & Hin & Hlen).
  assert (k' = k) by congruence. subst k'.
  assert (d' = d) by congruence. subst d'.
  unfold SetUintN.
  rewrite (dataAddress_in_range p o (Z.of_nat n) k) by (auto; lia).
  cbn [negb]. rewrite Hk. apply (writeUint_run n k d); auto; lia.
Qed.

(** Replacing a segment by one of the same length keeps every struct
    backed or not as it was. *)
Lemma backed_same_length (h : Heap) k (d d' : list Z) q :
  h !! k = Some d -> length d' = length d ->
  backed (<[k := d']> h) q = backed h q.
Proof.
  intros Hd Hlen. unfold backed. destruct (seg q) as [kq |]; [| reflexivity].
  destruct (decide (kq = k)) as [-> | Hne].
  - rewrite lookup_insert_eq, Hd, Hlen. reflexivity.
  - now rewrite lookup_insert_ne by congruence.
Qed.

Lemma section_bytes_overwrite pos bs (d : list Z) a n :
  (pos + length bs <= length d)%nat -> 0 <= a -> 0 <= n ->
  a + n <= Z.of_nat pos \/ Z.of_nat pos + Z.of_nat (length bs) <= a ->
  section_bytes (overwrite pos bs d) a n = section_bytes d a n.
Proof.
  intros Hfit Ha Hn Hdis. unfold section_bytes. apply list_eq. intros i.
  destruct (Nat.lt_ge_cases i (Z.to_nat n)) as [Hi | Hi].
  - rewrite !lookup_take_lt by assumption. rewrite !lookup_drop.
    apply lookup_overwrite_ne; [assumption | lia].
  - now rewrite !lookup_take_ge by assumption.
Qed.

(** X5. Writes whose offset does not wrap stay inside the data section: on
    a backed struct, for each width and every offset with
    [o + w/8 < 2^32], the write panics with [errOutOfBounds] when the
    field reaches past the data section, and otherwise returns after
    changing nothing but the [w/8] bytes at [off + o] of the struct's
    segment: the segment keeps its length, the other segments and bytes
    are as before, and every struct is backed or not as before. *)
Theorem SetUint_w_no_wrap (w : Z) (p : Struct) (o v : Z) (h : Heap) :
  In w [8; 16; 32; 64] ->
  backed h p = true ->
  0 <= o -> o + w / 8 < 2 ^ 32 ->
  (DataSize (size p) < o + w / 8 ->
   SetUint_w w p o v h = Panicked (PanicError errOutOfBounds)) /\
  (o + w / 8 <= DataSize (size p) ->
   exists k d d' h',
     seg p = Some k /\ h !! k = Some d /\
     SetUint_w w p o v h = Done tt h' /\
     h' !! k = Some d' /\ length d' = length d /\
     (forall k', k' <> k -> h' !! k' = h !! k') /\
     (forall i : nat,
        Z.of_nat i < off p + o \/ off p + o + w / 8 <= Z.of_nat i ->
        d' !! i = d !! i) /\
     (forall q, backed h' q = backed h q)).
Proof.
  intros Hw Hb Ho Hwrap.
  destruct (Uint_w_UintN w Hw) as (_ & -> & Hpos & Hn).
  set (n := Z.to_nat (w / 8)) in *. rewrite <- Hn in *.
  destruct (backed_inv _ _ Hb) as (k & d & Hk & Hd & Hs & Hoff & Hds & Hpc & Hin & Hlen).
  split.
  - intros Hout. apply SetUintN_past_end; lia.
  - intros Hr.
    assert (Hfit : (Z.to_nat (off p + o) + length (le_encode n v) <= length d)%nat)
      by (rewrite length_le_encode; lia).
    exists k, d, (overwrite (Z.to_nat (off p + o)) (le_encode n v) d),
      (<[k := overwrite (Z.to_nat (off p + o)) (le_encode n v) d]> h).
    split; [assumption |]. split; [assumption |].
    split; [now apply SetUintN_run |].
    split; [apply lookup_insert_eq |].
    split; [now apply length_overwrite |].
    split; [intros k' Hk'; now apply lookup_insert_ne |].
    split.
    + intros i Hi. apply lookup_overwrite_ne; [assumption |].
      rewrite length_le_encode. lia.
    + intros q. apply (backed_same_length h k d); [assumption |].
      now apply length_overwrite.
Qed.

(** An instance: a 32-bit write at offset 4 of the first sample struct. *)
Lemma SetUint_w_no_wrap_witness :
  In 32 [8; 16; 32; 64] /\ backed sample_heap sample_src = true /\
  0 <= 4 /\ 4 + 32 / 8 < 2 ^ 32 /\ 4 + 32 / 8 <= DataSize (size sample_src) /\
  exists h', SetUint_w 32 sample_src 4 305419896 sample_heap = Done tt h' /\
             forall q, backed h' q = backed sample_heap q.
Proof.
  assert (H1 : In 32 [8; 16; 32; 64]) by (simpl; auto).
  assert (H2 : backed sample_heap sample_src = true) by reflexivity.
  assert (H3 : 0 <= 4) by lia.
  assert (H4 : 4 + 32 / 8 < 2 ^ 32) by (vm_compute; reflexivity).
  assert (H5 : 4 + 32 / 8 <= DataSize (size sample_src))
    by (vm_compute; discriminate).
  repeat (split; [assumption |]).
  destruct (proj2 (SetUint_w_no_wrap 32 sample_src 4 305419896 sample_heap
                     H1 H2 H3 H4) H5)
    as (k & d & d' & h' & _ & _ & Hrun & _ & _ & _ & _ & Hbacked).
  exists h'. split; assumption.
Defined.

(** X6. Fields do not interfere: after an in-range write of one field of a
    backed struct, a read of a field of any backed struct at an offset
    that does not wrap ([o' + w'/8 < 2^32]) returns what it returned
    before, when the field read is out of range, lies in another segment,
    or shares no byte with the field written.  (Without that bound the
    sum of [dataAddress] wraps and the read can land on the bytes
    written.) *)
Theorem SetUint_w_other_field (w w' : Z) (p q : Struct) (o o' v : Z) (h : Heap) :
  In w [8; 16; 32; 64] -> In w' [8; 16; 32; 64] ->
  backed h p = true -> backed h q = true ->
  0 <= o -> o + w / 8 <= DataSize (size p) ->
  0 <= o' -> o' + w' / 8 < 2 ^ 32 ->
  DataSize (size q) < o' + w' / 8 \/ seg p <> seg q \/
  off p + o + w / 8 <= off q + o' \/ off q + o' + w' / 8 <= off p + o ->
  exists h' x,
    SetUint_w w p o v h = Done tt h' /\
    Uint_w w' q o' h = Done x h /\
    Uint_w w' q o' h' = Done x h'.
Proof.
  intros Hw Hw' Hbp Hbq Ho Hr Ho' Hwrap Hdis.
  destruct (Uint_w_UintN w Hw) as (_ & -> & Hpos & Hn).
  destruct (Uint_w_UintN w' Hw') as (-> & _ & Hpos' & Hn').
  set (n := Z.to_nat (w / 8)) in *. rewrite <- Hn in *.
  set (n' := Z.to_nat (w' / 8)) in *. rewrite <- Hn' in *.
  destruct (backed_inv _ _ Hbp) as (k & d & Hk & Hd & Hs & Hoff & Hds & Hpc & Hin & Hlen).
  destruct (backed_inv _ _ Hbq) as (kq & dq & Hkq & Hdq & Hsq & Hoffq & Hdsq & Hpcq & Hinq & Hlenq).
  set (d' := overwrite (Z.to_nat (off p + o)) (le_encode n v) d).
  assert (Hfit : (Z.to_nat (off p + o) + length (le_encode n v) <= length d)%nat)
    by (rewrite length_le_encode; lia).
  assert (Hlen' : length d' = length d) by now apply length_overwrite.
  assert (Hbq' : backed (<[k := d']> h) q = true)
    by (rewrite (backed_same_length h k d); assumption).
  exists (<[k := d']> h). eexists.
  split; [now apply SetUintN_run |].
  split; [now apply (UintN_eval n' q o' h kq dq) |].
  destruct (decide (kq = k)) as [-> | Hne].
  - assert (dq = d) by congruence. subst dq.
    rewrite (UintN_eval n' q o' _ k d') by (auto; apply lookup_insert_eq).
    f_equal. destruct (Z.ltb_spec (DataSize (size q)) (o' + Z.of_nat n'));
      [reflexivity |].
    f_equal. subst d'. apply section_bytes_overwrite; try assumption; try lia.
    rewrite length_le_encode.
    destruct Hdis as [? | [? | [? | ?]]]; try lia. congruence.
  - rewrite (UintN_eval n' q o' _ kq dq); auto.
    now rewrite lookup_insert_ne by congruence.
Qed.

(** An instance: writing the 16-bit field at offset 0 of the first sample
    struct leaves the 32-bit field at offset 4 as it was. *)
Lemma SetUint_w_other_field_witness :
  In 16 [8; 16; 32; 64] /\ In 32 [8; 16; 32; 64] /\
  backed sample_heap sample_src = true /\
  0 <= 0 /\ 0 + 16 / 8 <= DataSize (size sample_src) /\
  0 <= 4 /\ 4 + 32 / 8 < 2 ^ 32 /\
  exists h' x,
    SetUint_w 16 sample_src 0 65535 sample_heap = Done tt h' /\
    Uint_w 32 sample_src 4 sample_heap = Done x sample_heap /\
    Uint_w 32 sample_src 4 h' = Done x h'.
Proof.
  assert (H1 : In 16 [8; 16; 32; 64]) by (simpl; auto).
  assert (H2 : In 32 [8; 16; 32; 64]) by (simpl; auto).
  assert (H3 : backed sample_heap sample_src = true) by reflexivity.
  assert (H4 : 0 <= 0) by lia.
  assert (H5 : 0 + 16 / 8 <= DataSize (size sample_src))
    by (vm_compute; discriminate).
  assert (H6 : 0 <= 4) by lia.
  assert (H7 : 4 + 32 / 8 < 2 ^ 32) by (vm_compute; reflexivity).
  repeat (split; [assumption |]).
  apply (SetUint_w_other_field 16 32 sample_src sample_src 0 4 65535 sample_heap
           H1 H2 H3 H3 H4 H5 H6 H7).
  right. right. left. vm_compute. discriminate.
Defined.

(** ** Bits and bytes *)

Lemma section_bytes_single (d : list Z) a b :
  0 <= a -> d !! Z.to_nat a = Some b -> section_bytes d a 1 = [b].
Proof.
  intros Ha Hb. unfold section_bytes. rewrite (drop_S _ _ _ Hb).
  change (Z.to_nat 1) with 1%nat. cbn [take]. now rewrite take_0.
Qed.

Lemma Bit_in_range n p (h : Heap) k (d : list Z) b :
  backed h p = true -> seg p = Some k -> h !! k = Some d ->
  0 <= n < DataSize (size p) * 8 ->
  d !! Z.to_nat (off p + n / 8) = Some b ->
  Bit p n h = Done (Z.testbit b (n mod 8)) h.
Proof.
  intros Hb Hk Hd Hn Hbyte.
  pose proof (bitInData_in_range _ _ _ Hb Hn) as Hin.
  destruct (backed_inv _ _ Hb) as (k' & d' & Hk' & Hd' & Hs & Hoff & Hds & Hpc & Hfit & Hlen).
  assert (Hq : 0 <= n / 8 < DataSize (size p)).
  { split; [apply Z.div_pos; lia | apply Z.div_lt_upper_bound; lia]. }
  assert (Hm : 0 <= n mod 8 < 8) by (apply Z.mod_pos_bound; lia).
  assert (Haddr : addOffset (off p) (bit_offset n) = off p + n / 8).
  { unfold addOffset, bit_offset. apply u32_small.
    pose proof (lookup_lt_Some _ _ _ Hbyte). lia. }
  unfold Bit. rewrite Hin. cbn [negb]. rewrite Haddr, Hk.
  rewrite (bind_Done _ _ _ _ _
             (readUint8_run k d (off p + n / 8) b h Hd ltac:(lia) Hbyte)).
  rewrite mret_run. f_equal.
  rewrite bit_mask_pow2. apply land_pow2_eqb. lia.
Qed.

Lemma backed_byte h p x :
  backed h p = true -> 0 <= x < DataSize (size p) ->
  exists k d b, seg p = Some k /\ h !! k = Some d /\
                d !! Z.to_nat (off p + x) = Some b.
Proof.
  intros Hb Hx.
  destruct (backed_inv _ _ Hb) as (k & d & Hk & Hd & Hs & Hoff & Hds & Hpc & Hfit & Hlen).
  assert (Hlt : (Z.to_nat (off p + x) < length d)%nat) by lia.
  destruct (lookup_lt_is_Some_2 _ _ Hlt) as [b Hbyte]. eauto 10.
Qed.

(** X7. A bit is a bit of a byte: on an unbacked or a backed struct, for
    every bit offset [n] that fits 32 bits, [Bit n] returns bit [n mod 8]
    of what [Uint8 (n/8)] returns, and neither changes the heap.  Out of
    range (no segment, or [n] at or past [DataSize * 8]) both are zero:
    [Uint8] returns 0 and [Bit] returns false; in range the byte is the
    one at [off + n/8] of the struct's segment. *)
Theorem Bit_of_Uint8 (p : Struct) (n : Z) (h : Heap) :
  seg p = None \/ backed h p = true ->
  0 <= n < 2 ^ 32 ->
  exists b, Uint8 p (n / 8) h = Done b h /\
            Bit p n h = Done (Z.testbit b (n mod 8)) h /\
            (seg p = None \/ DataSize (size p) * 8 <= n ->
             b = 0 /\ Bit p n h = Done false h) /\
            (forall k d, seg p = Some k -> h !! k = Some d ->
               n < DataSize (size p) * 8 ->
               d !! Z.to_nat (off p + n / 8) = Some b).
Proof.
  intros Hp Hn.
  assert (Hq : 0 <= n / 8 < 2 ^ 29).
  { split; [apply Z.div_pos; lia | apply Z.div_lt_upper_bound; lia]. }
  destruct Hp as [Hnil | Hb].
  - assert (HB : Bit p n h = Done false h)
      by (unfold Bit, bitInData; now rewrite Hnil).
    exists 0. split; [now apply (UintN_unbacked 1) |].
    rewrite Z.testbit_0_l. split; [exact HB |]. split; [auto |].
    intros k d Hk. congruence.
  - destruct (backed_inv _ _ Hb) as (k & d & Hk & Hd & Hs & Hoff & Hds & Hpc & Hfit & Hlen).
    destruct (Z.lt_ge_cases n (DataSize (size p) * 8)) as [Hin | Hout].
    + assert (Hx : 0 <= n / 8 < DataSize (size p)).
      { split; [lia | apply Z.div_lt_upper_bound; lia]. }
      destruct (backed_byte h p (n / 8) Hb Hx) as (k' & d' & b & Hk' & Hd' & Hbyte).
      assert (k' = k) by congruence. subst k'.
      assert (d' = d) by congruence. subst d'.
      exists b. split; [| split; [| split]].
      * change (Uint8 p (n / 8) h) with (UintN 1 p (n / 8) h).
        rewrite (UintN_eval 1 p (n / 8) h k d) by (auto; lia).
        rewrite (proj2 (Z.ltb_ge _ _)) by lia.
        change (Z.of_nat 1) with 1.
        rewrite (section_bytes_single d (off p + n / 8) b) by (auto; lia).
        now rewrite le_decode_single.
      * apply (Bit_in_range n p h k d b); auto; lia.
      * intros [Hnil | Hge]; [congruence | lia].
      * intros k0 d0 Hk0 Hd0 _.
        assert (k0 = k) by congruence. subst k0.
        assert (d0 = d) by congruence. subst d0. exact Hbyte.
    + assert (HB : Bit p n h = Done false h)
        by (apply Bit_out_of_range; [lia | now right]).
      exists 0. split; [| split; [| split]].
      * apply (UintN_past_end 1); [lia | lia |].
        change (Z.of_nat 1) with 1.
        assert (DataSize (size p) <= n / 8) by (apply Z.div_le_lower_bound; lia).
        lia.
      * rewrite Z.testbit_0_l. exact HB.
      * auto.
      * intros k0 d0 _ _ Hlt. lia.
Qed.

(** Two instances on the first sample struct, whose data section has 64
    bits: bit 64 is out of range, [Bit] returns false and [Uint8 8]
    returns 0; bit 9 is bit 1 of byte 1, which holds 2. *)
Lemma Bit_of_Uint8_witness :
  (seg sample_src = None \/ backed sample_heap sample_src = true) /\
  0 <= 64 < 2 ^ 32 /\ 0 <= 9 < 2 ^ 32 /\
  DataSize (size sample_src) * 8 <= 64 /\
  Uint8 sample_src (64 / 8) sample_heap = Done 0 sample_heap /\
  Bit sample_src 64 sample_heap = Done false sample_heap /\
  Uint8 sample_src (9 / 8) sample_heap = Done 2 sample_heap /\
  Bit sample_src 9 sample_heap = Done true sample_heap.
Proof.
  assert (H1 : seg sample_src = None \/ backed sample_heap sample_src = true)
    by (right; reflexivity).
  assert (H2 : 0 <= 64 < 2 ^ 32) by lia.
  assert (H2' : 0 <= 9 < 2 ^ 32) by lia.
  assert (H3 : DataSize (size sample_src) * 8 <= 64) by (simpl; lia).
  repeat (split; [assumption |]).
  destruct (Bit_of_Uint8 sample_src 64 sample_heap H1 H2)
    as (b & HU & _ & Hout & _).
  destruct (Hout (or_intror H3)) as [Hb HB].
  split; [now rewrite <- Hb |]. split; [exact HB |].
  destruct (Bit_of_Uint8 sample_src 9 sample_heap H1 H2')
    as (b' & HU' & HB' & _ & Hin).
  assert (Hb' : b' = 2).
  { assert (E : Some b' = Some 2); [| now injection E].
    rewrite <- (Hin 0%nat _ eq_refl eq_refl ltac:(simpl; lia)). reflexivity. }
  rewrite Hb' in HU', HB'. split; [exact HU' | exact HB'].
Defined.

Lemma SetBit_run n v p (h : Heap) k (d : list Z) b :
  backed h p = true -> seg p = Some k -> h !! k = Some d ->
  0 <= n < DataSize (size p) * 8 ->
  d !! Z.to_nat (off p + n / 8) = Some b ->
  SetBit p n v h
  = Done tt (<[k := <[Z.to_nat (off p + n / 8) :=
                        Z.land (if v then Z.lor b (bit_mask n)
                                else Z.ldiff b (bit_mask n)) 255]> d]> h).
Proof.
  intros Hb Hk Hd Hn Hbyte.
  pose proof (bitInData_in_range _ _ _ Hb Hn) as Hin.
  pose proof (lookup_lt_Some _ _ _ Hbyte) as Hlt.
  destruct (backed_inv _ _ Hb) as (k' & d' & Hk' & Hd' & Hs & Hoff & Hds & Hpc & Hfit & Hlen).
  assert (Hq : 0 <= n / 8 < DataSize (size p)).
  { split; [apply Z.div_pos; lia | apply Z.div_lt_upper_bound; lia]. }
  assert (Haddr : addOffset (off p) (bit_offset n) = off p + n / 8).
  { unfold addOffset, bit_offset. apply u32_small. lia. }
  unfold SetBit. rewrite Hin. cbn [negb]. rewrite Haddr, Hk.
  rewrite (bind_Done _ _ _ _ _
             (readUint8_run k d (off p + n / 8) b h Hd ltac:(lia) Hbyte)).
  apply writeUint8_run; auto; lia.
Qed.

(** X8. Bits do not interfere: after [SetBit] at an in-range bit of a
    backed struct, [Bit] at any other bit of any backed struct (another
    segment, another byte, or another position in the same byte) returns
    what it returned before. *)
Theorem SetBit_other_bit (p q : Struct) (n m : Z) (v : bool) (h : Heap) :
  backed h p = true -> backed h q = true ->
  0 <= n < DataSize (size p) * 8 -> 0 <= m ->
  seg p <> seg q \/ off p + n / 8 <> off q + m / 8 \/ n mod 8 <> m mod 8 ->
  exists h' x,
    SetBit p n v h = Done tt h' /\
    Bit q m h = Done x h /\ Bit q m h' = Done x h'.
Proof.
  intros Hbp Hbq Hn Hm Hdis.
  assert (Hx : 0 <= n / 8 < DataSize (size p)).
  { split; [apply Z.div_pos; lia | apply Z.div_lt_upper_bound; lia]. }
  destruct (backed_byte h p (n / 8) Hbp Hx) as (k & d & b & Hk & Hd & Hbyte).
  pose proof (lookup_lt_Some _ _ _ Hbyte) as Hlt.
  set (b' := Z.land (if v then Z.lor b (bit_mask n)
                     else Z.ldiff b (bit_mask n)) 255).
  set (d' := <[Z.to_nat (off p + n / 8) := b']> d).
  assert (Hlen' : length d' = length d) by (subst d'; apply length_insert).
  assert (Hbq' : backed (<[k := d']> h) q = true)
    by (rewrite (backed_same_length h k d); assumption).
  exists (<[k := d']> h).
  destruct (Z.lt_ge_cases m (DataSize (size q) * 8)) as [Hin | Hout].
  - assert (Hy : 0 <= m / 8 < DataSize (size q)).
    { split; [apply Z.div_pos; lia | apply Z.div_lt_upper_bound; lia]. }
    destruct (backed_byte h q (m / 8) Hbq Hy) as (kq & dq & c & Hkq & Hdq & Hc).
    exists (Z.testbit c (m mod 8)).
    split; [now apply (SetBit_run n v p h k d b) |].
    split; [apply (Bit_in_range m q h kq dq c); auto; lia |].
    destruct (decide (kq = k)) as [-> | Hne].
    + assert (dq = d) by congruence. subst dq.
      destruct (decide (Z.to_nat (off q + m / 8) = Z.to_nat (off p + n / 8)))
        as [Heq | Hneq].
      * assert (c = b) by congruence. subst c.
        assert (Hbits : n mod 8 <> m mod 8).
        { destruct Hdis as [? | [? | ?]]; [congruence | | assumption].
          destruct (backed_inv _ _ Hbp) as (? & ? & _ & _ & _ & ? & _).
          destruct (backed_inv _ _ Hbq) as (? & ? & _ & _ & _ & ? & _). lia. }
        assert (Hmm : 0 <= m mod 8 < 8) by (apply Z.mod_pos_bound; lia).
        assert (Hnm : 0 <= n mod 8 < 8) by (apply Z.mod_pos_bound; lia).
        replace (Z.testbit b (m mod 8)) with (Z.testbit b' (m mod 8)).
        { apply (Bit_in_range m q _ k d' b'); auto; try lia.
          - apply lookup_insert_eq.
          - subst d'. rewrite Heq. now apply list_lookup_insert_eq. }
        subst b'. rewrite testbit_land_255 by lia. rewrite bit_mask_pow2.
        destruct v.
        -- rewrite Z.lor_spec, Z.pow2_bits_false by lia. apply orb_false_r.
        -- rewrite Z.ldiff_spec, Z.pow2_bits_false by lia. apply andb_true_r.
      * apply (Bit_in_range m q _ k d' c); auto; try lia.
        -- apply lookup_insert_eq.
        -- subst d'. rewrite list_lookup_insert_ne by congruence. assumption.
    + apply (Bit_in_range m q _ kq dq c); auto; try lia.
      now rewrite lookup_insert_ne by congruence.
  - exists false.
    destruct (backed_inv _ _ Hbq) as (? & ? & _ & _ & _ & _ & ? & _).
    split; [now apply (SetBit_run n v p h k d b) |].
    split; apply Bit_out_of_range; auto; lia.
Qed.

(** An instance: setting bit 3 of the first sample struct leaves its bit 0
    as it was. *)
Lemma SetBit_other_bit_witness :
  backed sample_heap sample_src = true /\
  0 <= 3 < DataSize (size sample_src) * 8 /\ 0 <= 0 /\
  exists h' x,
    SetBit sample_src 3 true sample_heap = Done tt h' /\
    Bit sample_src 0 sample_heap = Done x sample_heap /\
    Bit sample_src 0 h' = Done x h'.
Proof.
  assert (H1 : backed sample_heap sample_src = true) by reflexivity.
  assert (H2 : 0 <= 3 < DataSize (size sample_src) * 8) by (simpl; lia).
  assert (H3 : 0 <= 0) by lia.
  repeat (split; [assumption |]).
  apply (SetBit_other_bit sample_src sample_src 3 0 true sample_heap H1 H1 H2 H3).
  right. right. vm_compute. discriminate.
Defined.

(** ** Data writes and the pointer section *)

Lemma slot_read_after_store (h : Heap) k (d bs : list Z) pos a :
  h !! k = Some d -> (pos + length bs <= length d)%nat ->
  0 <= a -> a + 8 <= Z.of_nat (length d) ->
  Z.of_nat pos + Z.of_nat (length bs) <= a ->
  let h' := <[k := overwrite pos bs d]> h in
  exists x r,
    readRawPointer (Some k) a h = Done x h /\
    readRawPointer (Some k) a h' = Done x h' /\
    model_readPtr (Some k) a h = Done r h /\
    model_readPtr (Some k) a h' = Done r h'.
Proof.
  intros Hd Hfit Ha Hin Hdis h'.
  assert (Hd' : h' !! k = Some (overwrite pos bs d)) by apply lookup_insert_eq.
  assert (Hlen : length (overwrite pos bs d) = length d)
    by now apply length_overwrite.
  assert (Hsame : take 8 (drop (Z.to_nat a) (overwrite pos bs d))
                  = take 8 (drop (Z.to_nat a) d)).
  { apply (section_bytes_overwrite pos bs d a 8); try assumption; lia. }
  assert (Hc : (0 <=? a) && (0 <=? 8) && (a + 8 <=? Z.of_nat (length d)) = true).
  { rewrite (proj2 (Z.leb_le 0 a)), (proj2 (Z.leb_le (a + 8) _)) by lia.
    reflexivity. }
  exists (le_decode (take 8 (drop (Z.to_nat a) d))).
  exists (decode_pointer (Some k) (Z.of_nat (length d)) a
            (le_decode (take 8 (drop (Z.to_nat a) d)))).
  unfold readRawPointer, readUint64.
  rewrite (readUint_run 8 k d a h) by (auto; lia).
  rewrite (readUint_run 8 k _ a h' Hd') by (rewrite ?Hlen; lia).
  rewrite (model_readPtr_eval k d a h Hd), Hc.
  rewrite (model_readPtr_eval k _ a h' Hd'), Hlen, Hc, Hsame.
  auto.
Qed.

(** X9. Data writes leave the pointer section alone: after an in-range
    scalar write or an in-range bit write on a backed struct, every
    pointer slot of the struct holds the word it held, and [Pointer]
    decodes it to the same pointer (with the reference decoder). *)
Theorem data_writes_keep_pointers (w : Z) (p : Struct) (o v n : Z) (b : bool)
    (i : Z) (h : Heap) :
  In w [8; 16; 32; 64] ->
  backed h p = true ->
  0 <= o -> o + w / 8 <= DataSize (size p) ->
  0 <= n < DataSize (size p) * 8 ->
  0 <= i < PointerCount (size p) ->
  exists x r h1 h2,
    readRawPointer (seg p) (pointerAddress p i) h = Done x h /\
    Struct_Pointer model_readPtr p i h = Done r h /\
    SetUint_w w p o v h = Done tt h1 /\
    readRawPointer (seg p) (pointerAddress p i) h1 = Done x h1 /\
    Struct_Pointer model_readPtr p i h1 = Done r h1 /\
    SetBit p n b h = Done tt h2 /\
    readRawPointer (seg p) (pointerAddress p i) h2 = Done x h2 /\
    Struct_Pointer model_readPtr p i h2 = Done r h2.
Proof.
  intros Hw Hb Ho Hr Hn Hi.
  destruct (Uint_w_UintN w Hw) as (_ & -> & Hpos & Hm).
  set (m := Z.to_nat (w / 8)) in *. rewrite <- Hm in *.
  destruct (backed_inv _ _ Hb) as (k & d & Hk & Hd & Hs & Hoff & Hds & Hpc & Hfit & Hlen).
  assert (Hx : 0 <= n / 8 < DataSize (size p)).
  { split; [apply Z.div_pos; lia | apply Z.div_lt_upper_bound; lia]. }
  destruct (backed_byte h p (n / 8) Hb Hx) as (k' & d' & c & Hk' & Hd' & Hc).
  assert (k' = k) by congruence. subst k'.
  assert (d' = d) by congruence. subst d'.
  pose proof (lookup_lt_Some _ _ _ Hc) as Hclt.
  assert (Hptr : forall hx, Struct_Pointer model_readPtr p i hx
                            = model_readPtr (Some k) (pointerAddress p i) hx).
  { intros hx. unfold Struct_Pointer. rewrite Hk. cbn [is_nil orb].
    now rewrite (proj2 (Z.leb_gt _ _)) by lia. }
  set (a := off p + DataSize (size p) + 8 * i).
  assert (Hpa : pointerAddress p i = a)
    by (apply (pointerAddress_backed h p i); auto; lia).
  set (c' := Z.land (if b then Z.lor c (bit_mask n)
                     else Z.ldiff c (bit_mask n)) 255).
  destruct (slot_read_after_store h k d (le_encode m v) (Z.to_nat (off p + o)) a)
    as (x & r & Hx0 & Hx1 & Hr0 & Hr1);
    try assumption; try (rewrite length_le_encode); try (subst a; lia).
  destruct (slot_read_after_store h k d [c'] (Z.to_nat (off p + n / 8)) a)
    as (x' & r' & Hx0' & Hx2 & Hr0' & Hr2);
    try assumption; try (cbn [length]; subst a; lia).
  assert (x' = x) by congruence. subst x'.
  assert (r' = r) by congruence. subst r'.
  rewrite overwrite_single in Hx2, Hr2 by lia.
  exists x, r, (<[k := overwrite (Z.to_nat (off p + o)) (le_encode m v) d]> h),
    (<[k := <[Z.to_nat (off p + n / 8) := c']> d]> h).
  rewrite !Hptr, Hk, Hpa.
  split; [exact Hx0 |]. split; [exact Hr0 |].
  split; [now apply (SetUintN_run m p o v h k d) |].
  split; [exact Hx1 |]. split; [exact Hr1 |].
  split; [now apply (SetBit_run n b p h k d c) |].
  split; [exact Hx2 | exact Hr2].
Qed.

(** An instance: the first sample struct, whose slot 0 leads to the inner
    struct before and after the two writes. *)
Lemma data_writes_keep_pointers_witness :
  In 64 [8; 16; 32; 64] /\ backed sample_heap sample_src = true /\
  0 <= 0 /\ 0 + 64 / 8 <= DataSize (size sample_src) /\
  0 <= 63 < DataSize (size sample_src) * 8 /\
  0 <= 0 < PointerCount (size sample_src) /\
  exists h1,
    SetUint_w 64 sample_src 0 (2 ^ 64 - 1) sample_heap = Done tt h1 /\
    Struct_Pointer model_readPtr sample_src 0 h1
    = Done (PStruct sample_inner, None) h1.
Proof.
  assert (H1 : In 64 [8; 16; 32; 64]) by (simpl; auto).
  assert (H2 : backed sample_heap sample_src = true) by reflexivity.
  assert (H3 : 0 <= 0) by lia.
  assert (H4 : 0 + 64 / 8 <= DataSize (size sample_src))
    by (vm_compute; discriminate).
  assert (H5 : 0 <= 63 < DataSize (size sample_src) * 8) by (simpl; lia).
  assert (H6 : 0 <= 0 < PointerCount (size sample_src)) by (simpl; lia).
  repeat (split; [assumption |]).
  destruct (data_writes_keep_pointers 64 sample_src 0 (2 ^ 64 - 1) 63 true 0
              sample_heap H1 H2 H3 H4 H5 H6)
    as (x & r & h1 & h2 & _ & Hr0 & Hset & _ & Hr1 & _).
  exists h1. split; [assumption |].
  rewrite Hr1. f_equal.
  assert (E : Struct_Pointer model_readPtr sample_src 0 sample_heap
              = Done (PStruct sample_inner, None) sample_heap)
    by (vm_compute; reflexivity).
  congruence.
Defined.

(** ** What a copy may touch *)

Lemma preserved_refl k lo hi h : preserved k lo hi h h.
Proof. intros d Hd. exists d. auto. Qed.

Lemma preserved_trans k lo hi h1 h2 h3 :
  preserved k lo hi h1 h2 -> preserved k lo hi h2 h3 -> preserved k lo hi h1 h3.
Proof.
  intros H12 H23 d Hd.
  destruct (H12 d Hd) as (d2 & Hd2 & Hl2 & Hs2).
  destruct (H23 d2 Hd2) as (d3 & Hd3 & Hl3 & Hs3).
  exists d3. split; [assumption |]. split; [lia |].
  intros i Hi Hout. rewrite Hs3 by (auto; lia). now apply Hs2.
Qed.

Lemma preserved_weaken k lo hi lo' hi' h h' :
  lo' <= lo -> hi <= hi' -> preserved k lo hi h h' -> preserved k lo' hi' h h'.
Proof.
  intros Hlo Hhi H d Hd. destruct (H d Hd) as (d' & Hd' & Hl & Hs).
  exists d'. split; [assumption |]. split; [assumption |].
  intros i Hi Hout. apply Hs; [assumption | lia].
Qed.

Lemma preserved_store k lo hi (h : Heap) (d bs : list Z) pos :
  h !! k = Some d -> (pos + length bs <= length d)%nat ->
  lo <= Z.of_nat pos -> Z.of_nat pos + Z.of_nat (length bs) <= hi ->
  preserved k lo hi h (<[k := overwrite pos bs d]> h).
Proof.
  intros Hd Hfit Hlo Hhi d0 Hd0. assert (d0 = d) by congruence. subst d0.
  exists (overwrite pos bs d). split; [apply lookup_insert_eq |].
  split; [rewrite length_overwrite by assumption; lia |].
  intros i Hi Hout. apply lookup_overwrite_ne; [assumption | lia].
Qed.

Lemma preserved_grow k lo hi (h : Heap) (d ext : list Z) :
  h !! k = Some d -> preserved k lo hi h (<[k := d ++ ext]> h).
Proof.
  intros Hd d0 Hd0. assert (d0 = d) by congruence. subst d0.
  exists (d ++ ext). split; [apply lookup_insert_eq |].
  split; [rewrite length_app; lia |].
  intros i Hi _. now apply lookup_app_l.
Qed.

Lemma confined_refl k lo hi h : confined k lo hi h h.
Proof. split; [apply only_refl | apply preserved_refl]. Qed.

Lemma confined_trans k lo hi h1 h2 h3 :
  confined k lo hi h1 h2 -> confined k lo hi h2 h3 -> confined k lo hi h1 h3.
Proof.
  intros [Ho1 Hp1] [Ho2 Hp2].
  split; [eapply only_trans | eapply preserved_trans]; eauto.
Qed.

Lemma confined_weaken k lo hi lo' hi' h h' :
  lo' <= lo -> hi <= hi' -> confined k lo hi h h' -> confined k lo' hi' h h'.
Proof.
  intros Hlo Hhi [Ho Hp]. split; [assumption |].
  now apply (preserved_weaken k lo hi).
Qed.

Lemma confined_store k lo hi (h : Heap) (d bs : list Z) pos :
  h !! k = Some d -> (pos + length bs <= length d)%nat ->
  lo <= Z.of_nat pos -> Z.of_nat pos + Z.of_nat (length bs) <= hi ->
  confined k lo hi h (<[k := overwrite pos bs d]> h).
Proof.
  intros. split; [apply only_insert | now apply preserved_store].
Qed.

Lemma writeUint_confined n k a v (h h' : Heap) :
  writeUint n (Some k) a v h = Done tt h' ->
  confined k a (a + Z.of_nat n) h h'.
Proof.
  intros H.
  destruct (writeUint_inv _ _ _ _ _ _ H) as (k' & d & [= <-] & Hd & Ha & Hlen & ->).
  apply confined_store; try assumption; rewrite ?length_le_encode; lia.
Qed.

Lemma zero_data_confined n b j (h h' : Heap) :
  0 <= bs_base b -> 0 <= j ->
  zero_data n b j h = Done tt h' ->
  confined (bs_seg b) (bs_base b) (bs_base b + bs_len b) h h'.
Proof.
  intros Hb. revert j h. induction n as [| n IH]; intros j h Hj.
  - intros [= <-]. apply confined_refl.
  - cbn [zero_data]. unfold mbind, M_bind, bind.
    destruct (slice_set b j 0 h) as [[] h1 | x |] eqn:E; try discriminate.
    intros H. apply (confined_trans _ _ _ _ h1); [| apply (IH (j + 1)); auto; lia].
    unfold slice_set in E.
    destruct (Z.leb_spec 0 j); [| discriminate].
    destruct (Z.ltb_spec j (bs_len b)); [| discriminate]. cbn [andb] in E.
    destruct (h !! bs_seg b) as [d |] eqn:Hd; [| discriminate].
    destruct (Z.ltb_spec (bs_base b + j) (Z.of_nat (length d))); [| discriminate].
    injection E as <-.
    rewrite <- overwrite_single by lia.
    apply confined_store; try assumption; cbn [length]; lia.
Qed.

Lemma go_copy_confined kd base len s (h h' : Heap) c (dd : list Z) :
  h !! kd = Some dd -> 0 <= base -> 0 <= len ->
  base + len <= Z.of_nat (length dd) -> 0 <= bs_len s ->
  go_copy (mkByteSlice kd base len) s h = Done c h' ->
  0 <= c <= len /\ confined kd base (base + len) h h'.
Proof.
  intros Hdd Hb Hl Hfit Hs.
  unfold go_copy, load, store, mbind, M_bind, bind. cbn [bs_seg bs_base bs_len].
  destruct (h !! bs_seg s) as [sd |]; [| discriminate].
  rewrite Hdd. cbn [mret M_ret ret]. intros [= <- <-].
  split; [lia |].
  apply confined_store; try assumption.
  - rewrite length_take. lia.
  - lia.
  - rewrite length_take. lia.
Qed.

Section CopyFrame.

Variable readPtr : SegPtr -> Z -> M (Pointer * error).
Variable writePtr : copyContext -> SegPtr -> Z -> Pointer -> M error.
Variables (cc : copyContext) (dst src : Struct) (kd : nat).

Hypothesis dst_seg : seg dst = Some kd.
Hypothesis dst_off : 0 <= off dst.
Hypothesis dst_data : 0 <= DataSize (size dst).
Hypothesis dst_ptrs : 0 <= PointerCount (size dst) < 65536.
Hypothesis dst_fits :
  off dst + DataSize (size dst) + 8 * PointerCount (size dst) < 2 ^ 32.
Hypothesis readPtr_ok : decoder_ok readPtr.
Hypothesis writePtr_ok : writer_ok writePtr (incDepth cc) kd.

Lemma copy_ptrs_confined fuel a ns j h e h' :
  0 <= j ->
  copy_ptrs readPtr writePtr fuel cc dst src a
    (addSize (off dst) (DataSize (size dst))) ns (PointerCount (size dst)) j h
  = Done e h' ->
  confined kd (off dst + DataSize (size dst))
    (off dst + DataSize (size dst) + 8 * PointerCount (size dst)) h h'.
Proof.
  revert j h. induction fuel as [| fuel IH]; intros j h Hj.
  - cbn [copy_ptrs]. destruct (_ && _); [discriminate |].
    intros [= _ <-]. apply confined_refl.
  - cbn [copy_ptrs].
    destruct (j <? ns); [| intros [= _ <-]; apply confined_refl].
    destruct (Z.ltb_spec j (PointerCount (size dst))) as [Hlt | Hge];
      [| intros [= _ <-]; apply confined_refl].
    cbn [andb]. unfold mbind, M_bind, bind.
    destruct (readPtr (seg src) (element a j wordSize) h)
      as [[m [e1 |]] h1 | x |] eqn:Hr; try discriminate.
    + destruct (readPtr_ok _ _ _ _ _ _ Hr) as [-> _].
      intros [= _ <-]. apply confined_refl.
    + destruct (readPtr_ok _ _ _ _ _ _ Hr) as [-> Hm].
      rewrite dst_seg, (element_slot dst j) by lia.
      destruct (writePtr (incDepth cc) (Some kd) (slot dst j) m h)
        as [[e2 |] h2 | x |] eqn:Hw; try discriminate.
      * intros [= _ <-].
        apply (confined_weaken kd (slot dst j) (slot dst j + 8));
          [unfold slot; lia | unfold slot; lia |].
        eapply writePtr_ok; [exact Hm | unfold slot; lia | exact Hw].
      * rewrite u16_small by (change (2 ^ 16) with 65536; lia).
        intros H. apply (confined_trans _ _ _ _ h2); [| apply (IH (j + 1)); auto; lia].
        apply (confined_weaken kd (slot dst j) (slot dst j + 8));
          [unfold slot; lia | unfold slot; lia |].
        eapply writePtr_ok; [exact Hm | unfold slot; lia | exact Hw].
Qed.

Lemma zero_ptrs_confined fuel j h h' :
  0 <= j ->
  zero_ptrs fuel dst (addSize (off dst) (DataSize (size dst)))
    (PointerCount (size dst)) j h = Done tt h' ->
  confined kd (off dst + DataSize (size dst))
    (off dst + DataSize (size dst) + 8 * PointerCount (size dst)) h h'.
Proof.
  revert j h. induction fuel as [| fuel IH]; intros j h Hj.
  - cbn [zero_ptrs]. destruct (_ <? _); [discriminate |].
    intros [= <-]. apply confined_refl.
  - cbn [zero_ptrs].
    destruct (Z.ltb_spec j (PointerCount (size dst))) as [Hlt | Hge];
      [| intros [= <-]; apply confined_refl].
    unfold mbind, M_bind, bind.
    rewrite dst_seg, (element_slot dst j) by lia.
    destruct (writeRawPointer (Some kd) (slot dst j) 0 h)
      as [[] h1 | x |] eqn:Hw; try discriminate.
    rewrite u16_small by (change (2 ^ 16) with 65536; lia).
    intros H. apply (confined_trans _ _ _ _ h1); [| apply (IH (j + 1)); auto; lia].
    apply (confined_weaken kd (slot dst j) (slot dst j + 8));
      [unfold slot; lia | unfold slot; lia |].
    apply (writeUint_confined 8 kd (slot dst j) 0). exact Hw.
Qed.

(** The pointer loops of [copyStruct] stay inside the pointer section of
    the destination. *)
Lemma pointer_loops_confined a ns j h e h' :
  0 <= j -> 0 <= ns ->
  (err ← copy_ptrs readPtr writePtr loop_fuel cc dst src a
           (addSize (off dst) (DataSize (size dst))) ns
           (PointerCount (size dst)) j;
   match err with
   | Some e => mret (Some e)
   | None =>
       zero_ptrs loop_fuel dst (addSize (off dst) (DataSize (size dst)))
                 (PointerCount (size dst)) ns;;
       mret None
   end) h = Done e h' ->
  confined kd (off dst + DataSize (size dst))
    (off dst + DataSize (size dst) + 8 * PointerCount (size dst)) h h'.
Proof.
  intros Hj Hns. unfold mbind, M_bind, bind.
  destruct (copy_ptrs _ _ _ _ _ _ _ _ _ _ _ h) as [[e1 |] h1 | x1 |] eqn:Hp;
    try discriminate; apply copy_ptrs_confined in Hp; try assumption.
  - now intros [= _ <-].
  - destruct (zero_ptrs _ _ _ _ _ h1) as [[] h2 | x2 |] eqn:Hz; try discriminate.
    apply zero_ptrs_confined in Hz; [| assumption].
    intros [= _ <-]. eapply confined_trans; eauto.
Qed.

(** [copyStruct] stays inside the destination struct. *)
Lemma copyStruct_confined h e h' :
  0 <= PointerCount (size src) ->
  copyStruct readPtr writePtr cc dst src h = Done e h' ->
  confined kd (off dst)
    (off dst + DataSize (size dst) + 8 * PointerCount (size dst)) h h'.
Proof.
  intros Hps. unfold copyStruct. rewrite dst_seg. cbn [is_nil].
  unfold mbind, M_bind, bind at 1.
  destruct (slice (seg src) _ _ h) as [sdata h1 | x1 |] eqn:Hs1; try discriminate.
  destruct (slice_inv _ _ _ _ _ _ Hs1) as (ks & sd & _ & _ & _ & Hss & _ & -> & ->).
  unfold mbind, M_bind, bind at 1.
  destruct (slice (Some kd) _ _ h) as [ddata h2 | x2 |] eqn:Hs2; try discriminate.
  destruct (slice_inv _ _ _ _ _ _ Hs2)
    as (k' & dd & [= <-] & Hdd & _ & _ & Hfit & -> & ->).
  unfold mbind, M_bind, bind at 1.
  destruct (go_copy _ _ h) as [c h3 | x3 |] eqn:Hc; try discriminate.
  destruct (go_copy_confined kd (off dst) (DataSize (size dst))
              (mkByteSlice ks (off src) (DataSize (size src))) h h3 c dd
              Hdd dst_off dst_data Hfit Hss Hc) as [Hcr Hc3].
  unfold mbind, M_bind, bind at 1.
  destruct (zero_data _ _ 0 h3) as [[] h4 | x4 |] eqn:Hz; try discriminate.
  apply zero_data_confined in Hz; cbn [slice_from bs_seg bs_base bs_len] in *;
    try lia.
  intros Hloops. apply pointer_loops_confined in Hloops; try lia.
  apply (confined_trans _ _ _ _ h3);
    [apply (confined_weaken kd (off dst) (off dst + DataSize (size dst)));
       [lia | lia | exact Hc3] |].
  apply (confined_trans _ _ _ _ h4).
  - eapply confined_weaken; [| | exact Hz]; lia.
  - eapply confined_weaken; [| | exact Hloops]; lia.
Qed.

End CopyFrame.

(** *** The reference layer keeps to the contract *)

Lemma decode_pointer_sized s len a v : ptr_sized (decode_pointer s len a v).1.
Proof.
  unfold decode_pointer.
  destruct (v =? 0); [exact I |].
  destruct (Z.land v 3 =? 0); [| exact I].
  destruct (_ && _); [| exact I].
  cbn [fst ptr_sized size DataSize PointerCount]. unfold wordSize.
  pose proof (land_65535_bound (Z.shiftr v 32)).
  pose proof (land_65535_bound (Z.shiftr v 48)). lia.
Qed.

Lemma model_decoder_ok : decoder_ok model_readPtr.
Proof.
  intros s a h h' m e H. split; [eapply model_readPtr_pure; exact H |].
  unfold model_readPtr, mbind, M_bind, bind in H.
  destruct (readRawPointer s a h) as [v h1 | x |]; try discriminate.
  destruct (segLen s h1) as [len h2 | x |]; try discriminate.
  injection H as E _. pose proof (decode_pointer_sized s len a v) as Hs.
  now rewrite E in Hs.
Qed.

Lemma NewStruct_model_inv_heap kd sz (h h' : Heap) dst :
  NewStruct model_alloc (Some kd) sz h = Done (dst, None) h' ->
  exists d ext, h !! kd = Some d /\ h' = <[kd := d ++ ext]> h /\
                off dst = Z.of_nat (length d).
Proof.
  unfold NewStruct. destruct (negb (isValid sz)); [discriminate |].
  unfold model_alloc, segLen, grow, mbind, M_bind, bind.
  destruct (h !! kd) as [d |] eqn:Hd; [| discriminate].
  destruct (_ <? 2 ^ 32); [| discriminate].
  rewrite Hd. cbn [mret M_ret ret]. intros [= <- <-]. eauto.
Qed.

Lemma NewStruct_model_fail kd sz (h h' : Heap) dst e :
  NewStruct model_alloc (Some kd) sz h = Done (dst, Some e) h' -> h' = h.
Proof.
  unfold NewStruct. destruct (negb (isValid sz)); [now intros [= _ _ <-] |].
  unfold model_alloc, segLen, grow, mbind, M_bind, bind.
  destruct (h !! kd) as [d |] eqn:Hd; [| discriminate].
  destruct (_ <? 2 ^ 32); [| now intros [= _ _ <-]].
  rewrite Hd. cbn [mret M_ret ret]. discriminate.
Qed.

Lemma confined_after_grow k lo hi top (h h2 : Heap) (d ext : list Z) :
  h !! k = Some d ->
  confined k (Z.of_nat (length d)) top (<[k := d ++ ext]> h) h2 ->
  confined k lo hi h h2.
Proof.
  intros Hd [Ho Hp]. split.
  - eapply only_trans; [apply only_insert | exact Ho].
  - intros d0 Hd0. assert (d0 = d) by congruence. subst d0.
    destruct (Hp (d ++ ext) ltac:(apply lookup_insert_eq)) as (d2 & Hd2 & Hl2 & Hs2).
    exists d2. split; [assumption |].
    rewrite length_app in Hl2. split; [lia |].
    intros i Hi _. rewrite Hs2 by (rewrite ?length_app; lia).
    now apply lookup_app_l.
Qed.

(** The reference pointer writer changes nothing but the slot it is given
    and memory it allocates at the end of the segment. *)
Lemma model_writer_ok maxDepth fuel :
  forall cc kd, writer_ok (model_writePtr maxDepth fuel) cc kd.
Proof.
  induction fuel as [| fuel IH]; intros cc kd a m h h' e Hm Ha.
  - cbn [model_writePtr]. unfold mbind, M_bind, bind.
    destruct (negb (IsValid m)).
    + destruct (writeRawPointer (Some kd) a 0 h) as [[] h1 | x |] eqn:Hw;
        try discriminate.
      intros [= _ <-]. apply (writeUint_confined 8 kd a 0). exact Hw.
    + destruct m as [| st | o]; try (intros [= _ <-]; apply confined_refl).
      destruct (_ <? _); [intros [= _ <-]; apply confined_refl | discriminate].
  - cbn [model_writePtr]. unfold mbind, M_bind, bind.
    destruct (negb (IsValid m)).
    + destruct (writeRawPointer (Some kd) a 0 h) as [[] h1 | x |] eqn:Hw;
        try discriminate.
      intros [= _ <-]. apply (writeUint_confined 8 kd a 0). exact Hw.
    + destruct m as [| st | o]; try (intros [= _ <-]; apply confined_refl).
      destruct (_ <? _); [intros [= _ <-]; apply confined_refl |].
      cbn [ptr_sized] in Hm.
      destruct (NewStruct model_alloc (Some kd) (size st) h)
        as [[dst [e1 |]] h1 | x |] eqn:Hnew; try discriminate.
      * intros [= _ <-]. apply NewStruct_model_fail in Hnew. subst h1.
        apply confined_refl.
      * destruct (NewStruct_model_inv _ _ _ _ _ Hnew ltac:(lia) ltac:(lia))
          as (Hsd & Hpcd & Hbd & _).
        destruct (NewStruct_model_inv_heap _ _ _ _ _ Hnew)
          as (d & ext & Hd & -> & Hoff).
        destruct (backed_inv _ _ Hbd)
          as (k' & d1 & Hk' & Hd1 & Hv1 & Ho1 & Hds1 & Hpc1 & Hfit1 & Hlen1).
        assert (Hfits : off dst + DataSize (size dst)
                        + 8 * PointerCount (size dst) < 2 ^ 32)
          by (change (2 ^ 32) with 4294967296; lia).
        assert (Hcopy : forall e2 h2,
                   copyStruct model_readPtr (model_writePtr maxDepth fuel)
                     cc dst st (<[kd := d ++ ext]> h) = Done e2 h2 ->
                   confined kd a (a + 8) h h2).
        { intros e2 h2 Hrun.
          apply (confined_after_grow kd a (a + 8)
                   (off dst + DataSize (size dst) + 8 * PointerCount (size dst))
                   h h2 d ext Hd).
          rewrite <- Hoff.
          exact (copyStruct_confined model_readPtr (model_writePtr maxDepth fuel)
                   cc dst st kd Hsd Ho1 Hds1 Hpc1 Hfits model_decoder_ok
                   (IH (incDepth cc) kd) _ e2 h2 (proj1 (proj2 Hm)) Hrun). }
        destruct (copyStruct model_readPtr (model_writePtr maxDepth fuel) cc dst st _)
          as [[e2 |] h2 | x |] eqn:Hrun; try discriminate.
        -- intros [= _ <-]. now apply (Hcopy (Some e2)).
        -- destruct (writeRawPointer (Some kd) a (value dst a) h2)
             as [[] h3 | x |] eqn:Hw; try discriminate.
           intros [= _ <-]. apply (confined_trans _ _ _ _ h2).
           ++ now apply (Hcopy None).
           ++ apply (writeUint_confined 8 kd a (value dst a)). exact Hw.
Qed.

(** X10. A copy stays inside the destination: with a decoder that leaves
    the heap alone and returns pointers of representable sizes
    ([decoder_ok]) and a writer that changes nothing but the slot it is
    given and bytes it appends to the destination's segment ([writer_ok]),
    [copyStruct] into a backed destination, however it returns, leaves
    every other segment as it was, does not shrink the destination's
    segment, and changes none of the bytes that segment had outside
    [[off, off + DataSize + 8*PointerCount)]. *)
Theorem copyStruct_frame (readPtr : SegPtr -> Z -> M (Pointer * error))
    (writePtr : copyContext -> SegPtr -> Z -> Pointer -> M error)
    (cc : copyContext) (dst src : Struct) (kd : nat) (h h' : Heap) (e : error) :
  backed h dst = true -> seg dst = Some kd ->
  0 <= PointerCount (size src) ->
  decoder_ok readPtr -> writer_ok writePtr (incDepth cc) kd ->
  copyStruct readPtr writePtr cc dst src h = Done e h' ->
  (forall k, k <> kd -> h' !! k = h !! k) /\
  exists d d',
    h !! kd = Some d /\ h' !! kd = Some d' /\ (length d <= length d')%nat /\
    forall i : nat, (i < length d)%nat ->
      Z.of_nat i < off dst \/
      off dst + DataSize (size dst) + 8 * PointerCount (size dst) <= Z.of_nat i ->
      d' !! i = d !! i.
Proof.
  intros Hb Hkd Hps Hrp Hwp Hrun.
  destruct (backed_inv _ _ Hb) as (k & d & Hk & Hd & Hv & Ho & Hds & Hpc & Hfit & Hlen).
  assert (k = kd) by congruence. subst k.
  assert (Hfits : off dst + DataSize (size dst)
                  + 8 * PointerCount (size dst) < 2 ^ 32)
    by (change (2 ^ 32) with 4294967296; lia).
  destruct (copyStruct_confined readPtr writePtr cc dst src kd Hkd Ho Hds Hpc
              Hfits Hrp Hwp h e h' Hps Hrun) as [Honly Hpres].
  split; [exact Honly |].
  destruct (Hpres d Hd) as (d' & Hd' & Hl & Hs).
  exists d, d'. auto.
Qed.

(** An instance: the growth copy of the sample heap over the reference
    layer. *)
Lemma copyStruct_frame_witness :
  backed sample_heap sample_dst = true /\ seg sample_dst = Some 1%nat /\
  0 <= PointerCount (size sample_src) /\
  decoder_ok model_readPtr /\
  writer_ok (model_writePtr 4 8) (incDepth (mkCopyContext 0)) 1%nat /\
  exists h',
    copyStruct model_readPtr (model_writePtr 4 8) (mkCopyContext 0)
               sample_dst sample_src sample_heap = Done None h' /\
    forall k, k <> 1%nat -> h' !! k = sample_heap !! k.
Proof.
  assert (H1 : backed sample_heap sample_dst = true) by reflexivity.
  assert (H2 : seg sample_dst = Some 1%nat) by reflexivity.
  assert (H3 : 0 <= PointerCount (size sample_src)) by (simpl; lia).
  pose proof model_decoder_ok as H4.
  pose proof (model_writer_ok 4 8 (incDepth (mkCopyContext 0)) 1%nat) as H5.
  repeat (split; [assumption |]).
  destruct (copyStruct model_readPtr (model_writePtr 4 8) (mkCopyContext 0)
              sample_dst sample_src sample_heap) as [[e |] h' | x |] eqn:E;
    try (vm_compute in E; discriminate).
  exists h'. split; [reflexivity |].
  exact (proj1 (copyStruct_frame model_readPtr (model_writePtr 4 8)
                  (mkCopyContext 0) sample_dst sample_src 1%nat sample_heap h'
                  None H1 H2 H3 H4 H5 E)).
Defined.

(** ** Fields of a copy *)

Lemma le_decode_zeros n : le_decode (replicate n 0) = 0.
Proof.
  induction n as [| n IH]; [reflexivity |].
  cbn [replicate le_decode]. rewrite IH. reflexivity.
Qed.

Lemma copyStruct_data_then_loops readPtr writePtr cc dst src (h : Heap)
    ks kd sd dd :
  backed h dst = true -> backed h src = true ->
  seg src = Some ks -> seg dst = Some kd ->
  h !! ks = Some sd -> h !! kd = Some dd ->
  copyStruct readPtr writePtr cc dst src h
  = (err ← copy_ptrs readPtr writePtr loop_fuel cc dst src
             (addSize (off src) (DataSize (size src)))
             (addSize (off dst) (DataSize (size dst)))
             (PointerCount (size src)) (PointerCount (size dst)) 0;
     match err with
     | Some e => mret (Some e)
     | None =>
         zero_ptrs loop_fuel dst (addSize (off dst) (DataSize (size dst)))
                   (PointerCount (size dst)) (PointerCount (size src));;
         mret None
     end)
      (<[kd := overwrite (Z.to_nat (off dst))
                 (data_after (section_bytes sd (off src) (DataSize (size src)))
                             (Z.to_nat (DataSize (size dst)))) dd]> h).
Proof.
  intros Hbd Hbs Hks Hkd Hsd Hdd.
  destruct (backed_inv _ _ Hbd) as (kd' & dd' & Hkd' & Hdd' & ? & ? & ? & ? & ? & ?).
  destruct (backed_inv _ _ Hbs) as (ks' & sd' & Hks' & Hsd' & ? & ? & ? & ? & ? & ?).
  assert (kd' = kd) by congruence. subst kd'.
  assert (ks' = ks) by congruence. subst ks'.
  assert (dd' = dd) by congruence. subst dd'.
  assert (sd' = sd) by congruence. subst sd'.
  unfold copyStruct.
  replace (is_nil (seg dst)) with false by (now rewrite Hkd).
  now rewrite (copy_data_run _ ks kd sd dd) by (auto; lia).
Qed.

(** X11. The fields of a copy: with a pointer layer as in X10, after
    [copyStruct] between backed structs, however it returns, every field
    that lies inside the data sections of both reads in the destination
    what it read in the source before the copy, and every field of the
    destination that lies past the source's data section reads 0. *)
Theorem copyStruct_fields (readPtr : SegPtr -> Z -> M (Pointer * error))
    (writePtr : copyContext -> SegPtr -> Z -> Pointer -> M error)
    (cc : copyContext) (dst src : Struct) (kd : nat) (h h' : Heap) (e : error)
    (w o : Z) :
  backed h dst = true -> backed h src = true -> seg dst = Some kd ->
  decoder_ok readPtr -> writer_ok writePtr (incDepth cc) kd ->
  copyStruct readPtr writePtr cc dst src h = Done e h' ->
  In w [8; 16; 32; 64] -> 0 <= o -> o + w / 8 <= DataSize (size dst) ->
  (o + w / 8 <= DataSize (size src) ->
   exists x, Uint_w w src o h = Done x h /\ Uint_w w dst o h' = Done x h') /\
  (DataSize (size src) <= o -> Uint_w w dst o h' = Done 0 h').
Proof.
  intros Hbd Hbs Hkd Hrp Hwp Hrun Hw Ho Hr.
  destruct (Uint_w_UintN w Hw) as (-> & _ & Hpos & Hn).
  set (n := Z.to_nat (w / 8)) in *. rewrite <- Hn in *.
  destruct (backed_inv _ _ Hbd) as (kd' & dd & Hkd' & Hdd & Hvd & Hod & Hdsd & Hpcd & Hfitd & Hlend).
  assert (kd' = kd) by congruence. subst kd'.
  destruct (backed_inv _ _ Hbs) as (ks & sd & Hks & Hsd & Hvs & Hos & Hdss & Hpcs & Hfits & Hlens).
  rewrite (copyStruct_data_then_loops _ _ cc dst src h ks kd sd dd) in Hrun
    by assumption.
  set (srcData := section_bytes sd (off src) (DataSize (size src))) in *.
  set (dd1 := overwrite (Z.to_nat (off dst))
                (data_after srcData (Z.to_nat (DataSize (size dst)))) dd) in *.
  assert (Hsl : length srcData = Z.to_nat (DataSize (size src)))
    by (apply length_section_bytes; lia).
  assert (Hfit1 : (Z.to_nat (off dst)
                   + length (data_after srcData (Z.to_nat (DataSize (size dst))))
                   <= length dd)%nat)
    by (rewrite length_data_after; lia).
  assert (Hlen1 : length dd1 = length dd) by now apply length_overwrite.
  assert (Hfits32 : off dst + DataSize (size dst)
                    + 8 * PointerCount (size dst) < 2 ^ 32)
    by (change (2 ^ 32) with 4294967296; lia).
  apply (pointer_loops_confined readPtr writePtr cc dst src kd Hkd Hod Hdsd
           Hpcd Hfits32 Hrp Hwp) in Hrun; try lia.
  destruct Hrun as [_ Hpres].
  destruct (Hpres dd1 ltac:(apply lookup_insert_eq)) as (d' & Hd' & Hl' & Hs').
  (* the bytes of the field in the destination after the copy *)
  assert (Hbytes : section_bytes d' (off dst + o) (Z.of_nat n)
                   = section_bytes (data_after srcData (Z.to_nat (DataSize (size dst))))
                       o (Z.of_nat n)).
  { unfold section_bytes. apply list_eq. intros i.
    destruct (Nat.lt_ge_cases i (Z.to_nat (Z.of_nat n))) as [Hi | Hi].
    - rewrite !lookup_take_lt by assumption. rewrite !lookup_drop.
      rewrite Hs' by lia. subst dd1.
      rewrite lookup_overwrite_in by (rewrite ?length_data_after; lia).
      f_equal. lia.
    - now rewrite !lookup_take_ge by assumption. }
  assert (Hread : UintN n dst o h'
                  = Done (le_decode (section_bytes d' (off dst + o) (Z.of_nat n))) h').
  { unfold UintN.
    rewrite (dataAddress_in_range dst o (Z.of_nat n) kd) by (auto; lia).
    cbn [negb]. rewrite Hkd. rewrite (readUint_run n kd d') by (auto; lia).
    unfold section_bytes. now rewrite Nat2Z.id. }
  split.
  - intros Hin. eexists. split.
    + rewrite (UintN_eval n src o h ks sd) by (auto; lia).
      rewrite (proj2 (Z.ltb_ge _ _)) by lia. reflexivity.
    + rewrite Hread, Hbytes. f_equal. f_equal.
      unfold section_bytes. apply list_eq. intros i.
      destruct (Nat.lt_ge_cases i (Z.to_nat (Z.of_nat n))) as [Hi | Hi].
      * rewrite !lookup_take_lt by assumption. rewrite !lookup_drop.
        rewrite lookup_data_after_src by (rewrite ?Hsl; lia).
        subst srcData. rewrite lookup_section_bytes by lia. f_equal. lia.
      * now rewrite !lookup_take_ge by assumption.
  - intros Hnew. rewrite Hread, Hbytes. f_equal.
    replace (section_bytes _ o (Z.of_nat n)) with (replicate n 0);
      [apply le_decode_zeros |].
    unfold section_bytes. apply list_eq. intros i.
    destruct (Nat.lt_ge_cases i n) as [Hi | Hi].
    + rewrite lookup_replicate_2 by assumption.
      rewrite lookup_take_lt by lia. rewrite lookup_drop.
      symmetry. apply lookup_data_after_zero. rewrite Hsl. lia.
    + rewrite (proj1 (lookup_replicate_None n 0 i)) by assumption.
      symmetry. apply lookup_take_ge. lia.
Qed.

(** An instance: the growth copy of the sample heap, whose 64-bit field at
    offset 8 exists only in the destination. *)
Lemma copyStruct_fields_witness :
  backed sample_heap sample_dst = true /\ backed sample_heap sample_src = true /\
  seg sample_dst = Some 1%nat /\ decoder_ok model_readPtr /\
  writer_ok (model_writePtr 4 8) (incDepth (mkCopyContext 0)) 1%nat /\
  In 64 [8; 16; 32; 64] /\ 0 <= 8 /\ 8 + 64 / 8 <= DataSize (size sample_dst) /\
  DataSize (size sample_src) <= 8 /\
  exists h',
    copyStruct model_readPtr (model_writePtr 4 8) (mkCopyContext 0)
               sample_dst sample_src sample_heap = Done None h' /\
    Uint_w 64 sample_dst 8 h' = Done 0 h'.
Proof.
  assert (H1 : backed sample_heap sample_dst = true) by reflexivity.
  assert (H2 : backed sample_heap sample_src = true) by reflexivity.
  assert (H3 : seg sample_dst = Some 1%nat) by reflexivity.
  pose proof model_decoder_ok as H4.
  pose proof (model_writer_ok 4 8 (incDepth (mkCopyContext 0)) 1%nat) as H5.
  assert (H6 : In 64 [8; 16; 32; 64]) by (simpl; auto).
  assert (H7 : 0 <= 8) by lia.
  assert (H8 : 8 + 64 / 8 <= DataSize (size sample_dst))
    by (vm_compute; discriminate).
  assert (H9 : DataSize (size sample_src) <= 8) by (simpl; lia).
  repeat (split; [assumption |]).
  destruct (copyStruct model_readPtr (model_writePtr 4 8) (mkCopyContext 0)
              sample_dst sample_src sample_heap) as [[e |] h' | x |] eqn:E;
    try (vm_compute in E; discriminate).
  exists h'. split; [reflexivity |].
  exact (proj2 (copyStruct_fields model_readPtr (model_writePtr 4 8)
                  (mkCopyContext 0) sample_dst sample_src 1%nat sample_heap h'
                  None 64 8 H1 H2 H3 H4 H5 E H6 H7 H8) H9).
Defined.

(** ** Where a copy's error comes from *)

(** X12. [copyStruct] adds no error of its own: when a copy between backed
    structs returns an error, a slot [j] that both structs have produced
    it, either the decoder reading source slot [j] or the writer storing
    into destination slot [j] one level deeper, and the heap returned is
    the heap that call left.  So a copy from or into a struct without
    pointers returns no error. *)
Theorem copyStruct_error_origin (readPtr : SegPtr -> Z -> M (Pointer * error))
    (writePtr : copyContext -> SegPtr -> Z -> Pointer -> M error)
    (cc : copyContext) (dst src : Struct) (h h' : Heap) (e : ErrorValue) :
  backed h dst = true -> backed h src = true ->
  copyStruct readPtr writePtr cc dst src h = Done (Some e) h' ->
  exists j hj,
    0 <= j < PointerCount (size src) /\ j < PointerCount (size dst) /\
    ((exists m, readPtr (seg src) (slot src j) hj = Done (m, Some e) h') \/
     (exists m hm,
        readPtr (seg src) (slot src j) hj = Done (m, None) hm /\
        writePtr (incDepth cc) (seg dst) (slot dst j) m hm = Done (Some e) h')).
Proof.
  intros Hbd Hbs Hrun.
  destruct (backed_inv _ _ Hbd) as (kd & dd & Hkd & Hdd & _).
  destruct (backed_inv _ _ Hbs) as (ks & sd & Hks & Hsd & _).
  rewrite (copyStruct_refines _ _ cc dst src h ks kd sd dd) in Hrun by assumption.
  unfold copy_pointer_section, mbind, M_bind, bind in Hrun.
  match type of Hrun with
  | context [copy_slots ?r ?w ?c ?d ?s ?js ?h0] =>
      destruct (copy_slots r w c d s js h0) as [[e1 |] h1 | x |] eqn:Hslots
  end; try discriminate.
  - injection Hrun as <- <-.
    destruct (copy_slots_error _ _ _ _ _ _ _ _ _ Hslots) as (j & hj & Hin & Hor).
    apply In_seqZ in Hin. exists j, hj. repeat split; try lia. exact Hor.
  - match type of Hrun with
    | context [zero_slots ?d ?js ?h0] =>
        destruct (zero_slots d js h0) as [[] h2 | x |]
    end; discriminate.
Qed.

(** An instance: the chain of four structs copied under a limit of 1. *)
Lemma copyStruct_error_origin_witness :
  backed chain_heap chain_dst = true /\ backed chain_heap chain_src = true /\
  exists e h' j,
    copyStruct model_readPtr (model_writePtr 1 1) (mkCopyContext 0)
               chain_dst chain_src chain_heap = Done (Some e) h' /\
    0 <= j < PointerCount (size chain_src).
Proof.
  assert (H1 : backed chain_heap chain_dst = true) by reflexivity.
  assert (H2 : backed chain_heap chain_src = true) by reflexivity.
  repeat (split; [assumption |]).
  destruct (copyStruct model_readPtr (model_writePtr 1 1) (mkCopyContext 0)
              chain_dst chain_src chain_heap) as [[e |] h' | x |] eqn:E;
    try (vm_compute in E; discriminate).
  destruct (copyStruct_error_origin _ _ _ _ _ _ _ _ H1 H2 E)
    as (j & hj & Hj & _).
  exists e, h', j. split; [reflexivity | exact Hj].
Defined.

(** ** Copies without shared pointers *)

Lemma zero_slots_run dst kd :
  seg dst = Some kd ->
  forall (n : nat) a (d : list Z) (h : Heap),
    h !! kd = Some d -> 0 <= slot dst a ->
    slot dst a + 8 * Z.of_nat n <= Z.of_nat (length d) ->
    zero_slots dst (seqZ a (Z.of_nat n)) h
    = Done tt (<[kd := overwrite (Z.to_nat (slot dst a))
                         (replicate (8 * n) 0) d]> h).
Proof.
  intros Hkd. induction n as [| n IH]; intros a d h Hd Ha Hlen.
  - cbn [Z.of_nat]. change (seqZ a 0) with (@nil Z). cbn [zero_slots].
    cbn [Nat.mul replicate]. rewrite overwrite_nil.
    now rewrite insert_id by assumption.
  - rewrite (seqZ_cons a) by lia. cbn [zero_slots].
    unfold writeRawPointer, writeUint64. rewrite Hkd.
    unfold mbind, M_bind, bind.
    rewrite (writeUint_run 8 kd d) by (auto; lia).
    rewrite le_encode_zero.
    assert (Hfit : (Z.to_nat (slot dst a) + length (replicate 8 0%Z)
                    + length (replicate (8 * n) 0%Z) <= length d)%nat)
      by (rewrite !length_replicate; lia).
    replace (Z.pred (Z.of_nat (S n))) with (Z.of_nat n) by lia.
    assert (Hs : slot dst (Z.succ a) = slot dst a + 8) by (unfold slot; lia).
    assert (Hfit8 : (Z.to_nat (slot dst a) + length (replicate 8 0%Z)
                     <= length d)%nat) by (rewrite length_replicate; lia).
    pose proof (length_overwrite _ _ _ Hfit8) as Hlo.
    rewrite (IH (Z.succ a) (overwrite (Z.to_nat (slot dst a)) (replicate 8 0) d))
      by first [apply lookup_insert_eq | lia].
    rewrite insert_insert_eq. rewrite Hs.
    replace (Z.to_nat (slot dst a + 8))
      with (Z.to_nat (slot dst a) + length (replicate 8 0%Z))%nat
      by (rewrite length_replicate; lia).
    rewrite overwrite_overwrite_app by exact Hfit.
    rewrite <- replicate_add.
    replace (8 + 8 * n)%nat with (8 * S n)%nat by lia. reflexivity.
Qed.

(** X13. A copy without shared pointers is a copy of bytes: when the
    source or the destination has no pointer slot, [copyStruct] between
    backed structs returns, whatever the pointer layer is, no error and
    the heap in which the destination holds the source data bytes that
    fit, zeros up to its own data size, and an all-zero pointer section,
    and nothing else has changed. *)
Theorem copyStruct_no_shared_pointers
    (readPtr : SegPtr -> Z -> M (Pointer * error))
    (writePtr : copyContext -> SegPtr -> Z -> Pointer -> M error)
    (cc : copyContext) (dst src : Struct) (h : Heap) (ks kd : nat)
    (sd dd : list Z) :
  backed h dst = true -> backed h src = true ->
  seg src = Some ks -> seg dst = Some kd ->
  h !! ks = Some sd -> h !! kd = Some dd ->
  PointerCount (size src) = 0 \/ PointerCount (size dst) = 0 ->
  copyStruct readPtr writePtr cc dst src h
  = Done None
      (<[kd := overwrite (Z.to_nat (off dst))
                 (data_after (section_bytes sd (off src) (DataSize (size src)))
                             (Z.to_nat (DataSize (size dst)))
                  ++ replicate (Z.to_nat (8 * PointerCount (size dst))) 0)
                 dd]> h).
Proof.
  intros Hbd Hbs Hks Hkd Hsd Hdd Hz.
  destruct (backed_inv _ _ Hbd) as (kd' & dd' & Hkd' & Hdd' & Hvd & Hod & Hdsd & Hpcd & Hfitd & Hlend).
  assert (kd' = kd) by congruence. subst kd'.
  assert (dd' = dd) by congruence. subst dd'.
  destruct (backed_inv _ _ Hbs) as (ks' & sd' & Hks' & Hsd' & Hvs & Hos & Hdss & Hpcs & Hfits & Hlens).
  rewrite (copyStruct_refines _ _ cc dst src h ks kd sd dd) by assumption.
  set (bytes := data_after _ _).
  assert (Hbl : length bytes = Z.to_nat (DataSize (size dst)))
    by (subst bytes; apply length_data_after).
  unfold copy_pointer_section, mbind, M_bind, bind.
  replace (Z.min (PointerCount (size src)) (PointerCount (size dst))) with 0 by lia.
  change (seqZ 0 0) with (@nil Z). cbn [copy_slots].
  unfold mret, M_ret, ret. cbn beta iota.
  assert (Hfitb : (Z.to_nat (off dst) + length bytes <= length dd)%nat) by lia.
  pose proof (length_overwrite _ _ _ Hfitb) as Hlo.
  destruct Hz as [Hz | Hz].
  - rewrite Hz, Z.sub_0_r.
    replace (seqZ 0 (PointerCount (size dst)))
      with (seqZ 0 (Z.of_nat (Z.to_nat (PointerCount (size dst)))))
      by (f_equal; lia).
    rewrite (zero_slots_run dst kd Hkd _ _ (overwrite (Z.to_nat (off dst)) bytes dd))
      by first [apply lookup_insert_eq | unfold slot; lia].
    rewrite insert_insert_eq. unfold slot.
    replace (Z.to_nat (off dst + DataSize (size dst) + 8 * 0))
      with (Z.to_nat (off dst) + length bytes)%nat by lia.
    rewrite overwrite_overwrite_app by (rewrite length_replicate; lia).
    replace (8 * Z.to_nat (PointerCount (size dst)))%nat
      with (Z.to_nat (8 * PointerCount (size dst))) by lia.
    reflexivity.
  - rewrite Hz. unfold seqZ.
    replace (Z.to_nat (0 - PointerCount (size src))) with O by lia.
    cbn [seq fmap list_fmap zero_slots]. unfold mret, M_ret, ret.
    cbn [Z.mul Z.to_nat replicate]. now rewrite app_nil_r.
Qed.

(** An instance: a struct of one data word and no pointers copied into the
    larger destination of the sample heap. *)
Lemma copyStruct_no_shared_pointers_witness :
  backed sample_heap sample_dst = true /\
  backed sample_heap (mkStruct (Some 0%nat) 0 (mkObjectSize 8 0) 0) = true /\
  (PointerCount (mkObjectSize 8 0) = 0 \/ PointerCount (size sample_dst) = 0) /\
  copyStruct model_readPtr (model_writePtr 4 8) (mkCopyContext 0)
             sample_dst (mkStruct (Some 0%nat) 0 (mkObjectSize 8 0) 0)
             sample_heap
  = Done None
      (<[1%nat := [1; 2; 3; 4; 5; 6; 7; 8] ++ replicate 24 0]> sample_heap).
Proof.
  assert (H1 : backed sample_heap sample_dst = true) by reflexivity.
  assert (H2 : backed sample_heap (mkStruct (Some 0%nat) 0 (mkObjectSize 8 0) 0)
               = true) by reflexivity.
  assert (H3 : PointerCount (mkObjectSize 8 0) = 0
               \/ PointerCount (size sample_dst) = 0)
    by (left; reflexivity).
  repeat (split; [assumption |]).
  rewrite (copyStruct_no_shared_pointers model_readPtr (model_writePtr 4 8)
             (mkCopyContext 0) sample_dst
             (mkStruct (Some 0%nat) 0 (mkObjectSize 8 0) 0) sample_heap
             0%nat 1%nat _ (replicate 32 171) H1 H2 eq_refl eq_refl eq_refl
             eq_refl H3).
  reflexivity.
Defined.

(** ** Setting a pointer *)

(** A read outside the range a change was confined to returns what it
    returned before. *)
Lemma readUint_preserved n k lo hi a (h h' : Heap) (d : list Z) :
  preserved k lo hi h h' -> h !! k = Some d ->
  0 <= a -> a + Z.of_nat n <= Z.of_nat (length d) ->
  a + Z.of_nat n <= lo \/ hi <= a ->
  exists x, readUint n (Some k) a h = Done x h /\
            readUint n (Some k) a h' = Done x h'.
Proof.
  intros Hp Hd Ha Hlen Hout.
  destruct (Hp d Hd) as (d' & Hd' & Hl & Hs).
  exists (le_decode (take n (drop (Z.to_nat a) d))).
  split; [now apply readUint_run |].
  rewrite (readUint_run n k d') by (auto; lia).
  do 2 f_equal. apply list_eq. intros i.
  destruct (Nat.lt_ge_cases i n) as [Hi | Hi].
  - rewrite !lookup_take_lt by assumption. rewrite !lookup_drop.
    apply Hs; lia.
  - now rewrite !lookup_take_ge by assumption.
Qed.

(** X14. Setting a pointer touches its slot only: [SetPointer] on a backed
    struct panics with [errOutOfBounds] when the index is not below the
    pointer count, and otherwise hands the slot's address to the writer
    with a fresh copy context.  With a writer that changes nothing but the
    slot it is given and bytes it appends to the struct's segment
    ([writer_ok]), whatever it returns, every other segment, every data
    field of the struct and the word of every other pointer slot read as
    before. *)
Theorem SetPointer_frame
    (writePtr : copyContext -> SegPtr -> Z -> Pointer -> M error)
    (p : Struct) (i : Z) (src : Pointer) (kd : nat) (h : Heap) :
  backed h p = true -> seg p = Some kd -> 0 <= i < 2 ^ 16 -> ptr_sized src ->
  writer_ok writePtr (mkCopyContext 0) kd ->
  (PointerCount (size p) <= i ->
   SetPointer writePtr p i src h = Panicked (PanicError errOutOfBounds)) /\
  (i < PointerCount (size p) ->
   SetPointer writePtr p i src h
   = writePtr (mkCopyContext 0) (Some kd)
              (off p + DataSize (size p) + 8 * i) src h) /\
  forall e h', SetPointer writePtr p i src h = Done e h' ->
    i < PointerCount (size p) /\
    (forall k, k <> kd -> h' !! k = h !! k) /\
    (forall w o, In w [8; 16; 32; 64] -> 0 <= o -> o + w / 8 < 2 ^ 32 ->
       exists x, Uint_w w p o h = Done x h /\ Uint_w w p o h' = Done x h') /\
    (forall j, 0 <= j < PointerCount (size p) -> j <> i ->
       exists x,
         readRawPointer (seg p) (pointerAddress p j) h = Done x h /\
         readRawPointer (seg p) (pointerAddress p j) h' = Done x h').
Proof.
  intros Hb Hkd Hi Hsrc Hwp.
  destruct (backed_inv _ _ Hb) as (k & d & Hk & Hd & Hv & Ho & Hds & Hpc & Hfit & Hlen).
  assert (k = kd) by congruence. subst k.
  assert (Hout : PointerCount (size p) <= i ->
                 SetPointer writePtr p i src h
                 = Panicked (PanicError errOutOfBounds)).
  { intros Hge. unfold SetPointer. rewrite (proj2 (Z.leb_le _ _) Hge).
    now rewrite orb_true_r. }
  assert (Hin : i < PointerCount (size p) ->
                SetPointer writePtr p i src h
                = writePtr (mkCopyContext 0) (Some kd)
                           (off p + DataSize (size p) + 8 * i) src h).
  { intros Hlt. unfold SetPointer. rewrite Hkd. cbn [is_nil orb].
    rewrite (proj2 (Z.leb_gt _ _) Hlt).
    now rewrite (pointerAddress_backed h p i) by (auto; lia). }
  split; [exact Hout |]. split; [exact Hin |].
  intros e h' Hrun.
  assert (Hlt : i < PointerCount (size p)).
  { destruct (Z.lt_ge_cases i (PointerCount (size p))) as [Hlt | Hge];
      [assumption |].
    rewrite (Hout Hge) in Hrun. discriminate. }
  rewrite (Hin Hlt) in Hrun.
  set (a := off p + DataSize (size p) + 8 * i) in *.
  destruct (Hwp a src h h' e Hsrc ltac:(subst a; lia) Hrun) as [Honly Hpres].
  split; [assumption |]. split; [exact Honly |]. split.
  - intros w o Hw Ho0 Hno.
    destruct (Uint_w_UintN w Hw) as (-> & _ & Hpos & Hn).
    set (n := Z.to_nat (w / 8)) in *. rewrite <- Hn in Hno.
    unfold UintN. rewrite (dataAddress_no_wrap h) by (auto; lia).
    destruct (Z.ltb_spec (DataSize (size p)) (o + Z.of_nat n)) as [Hpast | Hinr].
    + exists 0. split; reflexivity.
    + cbn [negb]. rewrite Hkd.
      apply (readUint_preserved n kd a (a + 8) (off p + o) h h' d);
        try assumption; subst a; lia.
  - intros j Hj Hne.
    rewrite (pointerAddress_backed h p j) by (auto; lia).
    rewrite Hkd. unfold readRawPointer, readUint64.
    apply (readUint_preserved 8 kd a (a + 8) _ h h' d);
      try assumption; subst a; lia.
Qed.

(** An instance: a null pointer stored into the second slot of the sample
    destination over the reference layer. *)
Lemma SetPointer_frame_witness :
  backed sample_heap sample_dst = true /\ seg sample_dst = Some 1%nat /\
  0 <= 1 < 2 ^ 16 /\ ptr_sized PNil /\
  writer_ok (model_writePtr 4 8) (mkCopyContext 0) 1%nat /\
  exists h',
    SetPointer (model_writePtr 4 8) sample_dst 1 PNil sample_heap
    = Done None h' /\
    1 < PointerCount (size sample_dst) /\
    exists x, Uint_w 64 sample_dst 8 sample_heap = Done x sample_heap /\
              Uint_w 64 sample_dst 8 h' = Done x h'.
Proof.
  assert (H1 : backed sample_heap sample_dst = true) by reflexivity.
  assert (H2 : seg sample_dst = Some 1%nat) by reflexivity.
  assert (H3 : 0 <= 1 < 2 ^ 16) by (split; [lia | reflexivity]).
  assert (H4 : ptr_sized PNil) by exact I.
  pose proof (model_writer_ok 4 8 (mkCopyContext 0) 1%nat) as H5.
  repeat (split; [assumption |]).
  destruct (SetPointer (model_writePtr 4 8) sample_dst 1 PNil sample_heap)
    as [[e |] h' | x |] eqn:E; try (vm_compute in E; discriminate).
  destruct (SetPointer_frame (model_writePtr 4 8) sample_dst 1 PNil 1%nat
              sample_heap H1 H2 H3 H4 H5) as (_ & _ & Hdone).
  destruct (Hdone None h' E) as (Hlt & _ & Hdata & _).
  exists h'. split; [reflexivity |]. split; [exact Hlt |].
  apply Hdata; [simpl; auto | lia | vm_compute; reflexivity].
Defined.

(** ** Chains deeper than the depth limit *)

(** A pointer word that decodes without error keeps its meaning when the
    segment grows. *)
Lemma decode_pointer_grow s len len' a v m :
  len <= len' ->
  decode_pointer s len a v = (m, None) ->
  decode_pointer s len' a v = (m, None).
Proof.
  intros Hle. unfold decode_pointer.
  destruct (v =? 0); [exact id |].
  destruct (Z.land v 3 =? 0); [| exact id].
  set (sz := mkObjectSize _ _). set (t := a + wordSize + _).
  destruct (0 <=? t) eqn:H0; cbn [andb]; [| discriminate].
  destruct (Z.leb_spec (t + totalSize sz) len) as [H1 | H1]; [| discriminate].
  now rewrite (proj2 (Z.leb_le _ _)) by lia.
Qed.

(** A slot that decodes without error decodes to the same pointer after a
    change that was confined to bytes the slot does not lie in. *)
Lemma model_readPtr_stable kd lo hi k a (h h' hx : Heap) m :
  confined kd lo hi h h' ->
  k <> kd \/ a + 8 <= lo \/ hi <= a ->
  model_readPtr (Some k) a h = Done (m, None) hx ->
  model_readPtr (Some k) a h' = Done (m, None) h'.
Proof.
  intros [Honly Hpres] Hout Hr.
  destruct (decide (k = kd)) as [-> | Hne].
  - destruct (h !! kd) as [d |] eqn:Hd.
    + rewrite (model_readPtr_eval kd d a h Hd) in Hr.
      destruct (Z.leb_spec 0 a) as [Ha | Ha]; [| discriminate].
      cbn [andb] in Hr. change (0 <=? 8) with true in Hr. cbn [andb] in Hr.
      destruct (Z.leb_spec (a + 8) (Z.of_nat (length d))) as [Hl | Hl];
        [| discriminate].
      injection Hr as Hr _.
      destruct (Hpres d Hd) as (d' & Hd' & Hlen & Hsame).
      rewrite (model_readPtr_eval kd d' a h' Hd').
      rewrite (proj2 (Z.leb_le 0 a)) by lia.
      change (0 <=? 8) with true. cbn [andb].
      rewrite (proj2 (Z.leb_le _ _)) by lia.
      assert (E : take 8 (drop (Z.to_nat a) d') = take 8 (drop (Z.to_nat a) d)).
      { apply list_eq. intros i.
        destruct (Nat.lt_ge_cases i 8) as [Hi | Hi].
        - rewrite !lookup_take_lt by assumption. rewrite !lookup_drop.
          apply Hsame; lia.
        - now rewrite !lookup_take_ge by assumption. }
      rewrite E. f_equal.
      apply (decode_pointer_grow _ (Z.of_nat (length d))); [lia | exact Hr].
    + unfold model_readPtr, readRawPointer, readUint64, readUint, slice,
        mbind, M_bind, bind in Hr. rewrite Hd in Hr. discriminate.
  - rewrite (model_readPtr_local k a h h' (Honly k Hne)). now rewrite Hr.
Qed.

Lemma model_readPtr_seg s a (h hx : Heap) r :
  model_readPtr s a h = Done r hx -> exists k, s = Some k.
Proof.
  destruct s as [k |]; [eauto |].
  unfold model_readPtr, readRawPointer, readUint64, readUint, slice,
    mbind, M_bind, bind. discriminate.
Qed.

(** A chain stays a chain after a change that was confined to the bytes
    it keeps apart from. *)
Lemma chain_stable strict kd lo hi (h h' : Heap) :
  confined kd lo hi h h' ->
  forall js s width,
    0 <= DataSize (size s) ->
    chain strict js h s width kd lo hi -> chain strict js h' s width kd lo hi.
Proof.
  intros Hc. induction js as [| j js IH]; intros s width Hds; [exact id |].
  cbn [chain]. intros (Hj & Hap & Hnull & s' & hx & Hr & Hrest).
  destruct (model_readPtr_seg _ _ _ _ _ Hr) as [k Hk].
  assert (Hout : forall i, 0 <= i <= j ->
            k <> kd \/ slot s i + 8 <= lo \/ hi <= slot s i).
  { intros i Hi. destruct Hap as [Hap | [Hap | Hap]].
    - left. congruence.
    - right. left. unfold slot. lia.
    - right. right. unfold slot. lia. }
  split; [assumption |]. split; [assumption |]. split.
  - intros Hs i Hi. destruct (Hnull Hs i Hi) as [hy Hy].
    exists h'. rewrite Hk in *.
    apply (model_readPtr_stable kd lo hi k _ h h' hy); auto. apply Hout. lia.
  - exists s', h'. rewrite Hk in *. split.
    + apply (model_readPtr_stable kd lo hi k _ h h' hx); auto. apply Hout. lia.
    + apply IH; [| assumption].
      destruct (model_readPtr_struct _ _ _ _ _ Hr) as (_ & _ & d & _ & _ & ? & _).
      lia.
Qed.

(** The structs of a chain lie inside the segments as they are, so the
    chain keeps apart from whatever is appended to a segment. *)
Lemma chain_fresh strict kd lo hi (h : Heap) (d : list Z) top :
  h !! kd = Some d ->
  forall js s width,
    (seg s = Some kd ->
     off s + DataSize (size s) + 8 * PointerCount (size s) <= Z.of_nat (length d)) ->
    chain strict js h s width kd lo hi ->
    chain strict js h s width kd (Z.of_nat (length d)) top.
Proof.
  intros Hd. induction js as [| j js IH]; intros s width Hin; [exact id |].
  cbn [chain]. intros (Hj & Hap & Hnull & s' & hx & Hr & Hrest).
  split; [assumption |]. split.
  { destruct (decide (seg s = Some kd)) as [E | E]; [| now left].
    right. left. now apply Hin. }
  split; [assumption |].
  exists s', hx. split; [assumption |]. apply IH; [| assumption].
  destruct (model_readPtr_seg _ _ _ _ _ Hr) as [k Hk]. rewrite Hk in Hr.
  destruct (model_readPtr_struct _ _ _ _ _ Hr)
    as (_ & Hs' & d0 & Hd0 & _ & _ & _ & Hfit).
  intros E. assert (k = kd) by congruence. subst k.
  assert (d0 = d) by congruence. subst d0. exact Hfit.
Qed.

Lemma chain_weaken js : forall (h : Heap) s width kd lo hi,
  chain true js h s width kd lo hi -> chain false js h s width kd lo hi.
Proof.
  induction js as [| j js IH]; intros h s width kd lo hi; [exact id |].
  cbn [chain]. intros (Hj & Hap & _ & s' & hx & Hr & Hrest).
  split; [assumption |]. split; [assumption |].
  split; [discriminate |]. exists s', hx. auto.
Qed.

(** When the pointer loop over the reference layer returns without error,
    every listed slot was decoded and written without error, on a heap
    that differs from the first one inside the destination's extent and
    in what was appended to its segment at most. *)
Lemma copy_slots_model_success maxDepth fuel cc dst src kd lo hi js
    (h h' : Heap) :
  seg dst = Some kd ->
  (forall j, In j js -> 0 <= slot dst j /\ lo <= slot dst j /\ slot dst j + 8 <= hi) ->
  copy_slots model_readPtr (model_writePtr maxDepth fuel) cc dst src js h
  = Done None h' ->
  forall j, In j js ->
    exists hx m hy,
      confined kd lo hi h hx /\
      model_readPtr (seg src) (slot src j) hx = Done (m, None) hx /\
      model_writePtr maxDepth fuel (incDepth cc) (Some kd) (slot dst j) m hx
      = Done None hy.
Proof.
  intros Hkd. revert h. induction js as [| j0 js IH]; intros h Hin Hrun j Hj;
    [destruct Hj |].
  cbn [copy_slots] in Hrun. unfold mbind, M_bind, bind in Hrun.
  destruct (model_readPtr (seg src) (slot src j0) h) as [[m [e |]] h1 | x |] eqn:Hr;
    try discriminate.
  destruct (model_decoder_ok _ _ _ _ _ _ Hr) as [-> Hm].
  rewrite Hkd in Hrun.
  destruct (model_writePtr maxDepth fuel (incDepth cc) (Some kd) (slot dst j0) m h)
    as [[e |] h2 | x |] eqn:Hw; try discriminate.
  destruct Hj as [<- | Hj].
  - exists h, m, h2. split; [apply confined_refl | auto].
  - destruct (Hin j0 ltac:(now left)) as (H0 & Hlo & Hhi).
    assert (Hc : confined kd lo hi h h2).
    { apply (confined_weaken kd (slot dst j0) (slot dst j0 + 8)); [lia | lia |].
      exact (model_writer_ok maxDepth fuel (incDepth cc) kd _ m h h2 None Hm H0 Hw). }
    destruct (IH h2 ltac:(intros; apply Hin; now right) Hrun j Hj)
      as (hx & m' & hy & Hc' & Hr' & Hw').
    exists hx, m', hy. split; [| auto].
    now apply (confined_trans _ _ _ _ h2).
Qed.

(** A struct the decoder returned is backed, also after the allocator
    appended to a segment. *)
Lemma decoded_backed k a (h hx h' : Heap) st :
  model_readPtr (Some k) a h = Done (PStruct st, None) hx ->
  (forall d, h !! k = Some d ->
     exists d', h' !! k = Some d' /\ (length d <= length d')%nat /\
                Z.of_nat (length d') < 2 ^ 32) ->
  backed h' st = true.
Proof.
  intros Hr Hgrow.
  destruct (model_readPtr_struct _ _ _ _ _ Hr)
    as (_ & Hs & d & Hd & Ho & Hds & Hpc & Hfit).
  destruct (Hgrow d Hd) as (d' & Hd' & Hlen & Hsmall).
  apply (backed_intro h' st k d'); auto; lia.
Qed.

(** Copying a chain deeper than the levels left below the limit, through
    whatever slots it runs, never returns without error. *)
Lemma copy_chain_never_succeeds maxDepth :
  forall js fuel cc dst src (h : Heap) kd,
    seg dst = Some kd ->
    backed h dst = true -> backed h src = true ->
    chain false js h src (PointerCount (size dst)) kd (off dst)
          (off dst + DataSize (size dst) + 8 * PointerCount (size dst)) ->
    Z.max 0 (maxDepth - depth cc) < Z.of_nat (length js) ->
    forall h',
      copyStruct model_readPtr (model_writePtr maxDepth fuel) cc dst src h
      <> Done None h'.
Proof.
  induction js as [| j js IH];
    intros fuel cc dst src h kd Hkd Hbd Hbs Hch Hk h' Hrun;
    [cbn [length] in Hk; lia |].
  destruct (backed_inv _ _ Hbs)
    as (ks & sd & Hks & Hsd & Hvs & Hos & Hdss & Hpcs & Hfits & Hsl).
  destruct (backed_inv _ _ Hbd)
    as (kd' & dd & Hkd' & Hdd & Hvd & Hod & Hdsd & Hpcd & Hfitd & Hdl).
  assert (kd' = kd) by congruence. subst kd'.
  set (lo := off dst) in *.
  set (hi := off dst + DataSize (size dst) + 8 * PointerCount (size dst)) in *.
  rewrite (copyStruct_refines _ _ cc dst src h ks kd sd dd) in Hrun by assumption.
  set (bytes := data_after _ _) in Hrun.
  assert (Hbl : length bytes = Z.to_nat (DataSize (size dst)))
    by (subst bytes; apply length_data_after).
  set (h1 := (<[kd := overwrite (Z.to_nat (off dst)) bytes dd]> h : Heap)) in Hrun.
  assert (Hc1 : confined kd lo hi h h1).
  { subst h1. apply confined_store; try assumption; unfold lo, hi; lia. }
  unfold copy_pointer_section, mbind, M_bind, bind in Hrun.
  match type of Hrun with
  | context [copy_slots ?r ?w ?c ?d ?s ?l ?h0] =>
      destruct (copy_slots r w c d s l h0) as [[e |] h2 | x |] eqn:Hslots
  end; try discriminate.
  pose proof Hch as Hch0.
  cbn [chain] in Hch. destruct Hch as (Hj & Hap & _ & s0 & hx0 & Hr0 & Hrest0).
  assert (Hslot : forall i,
            In i (seqZ 0 (Z.min (PointerCount (size src)) (PointerCount (size dst)))) ->
            0 <= slot dst i /\ lo <= slot dst i /\ slot dst i + 8 <= hi).
  { intros i Hi. apply In_seqZ in Hi. unfold slot, lo, hi. lia. }
  destruct (copy_slots_model_success maxDepth fuel cc dst src kd lo hi _ h1 h2
              Hkd Hslot Hslots j ltac:(apply In_seqZ; lia))
    as (hx & m & hy & Hcx & Hrx & Hwx).
  assert (Hc : confined kd lo hi h hx) by now apply (confined_trans _ _ _ _ h1).
  pose proof (chain_stable false kd lo hi h hx Hc (j :: js) src _ Hdss Hch0) as Hchx.
  cbn [chain] in Hchx. destruct Hchx as (_ & _ & _ & s' & hx' & Hr' & Hrest).
  rewrite Hr' in Hrx. injection Hrx as <- ->.
  rewrite Hks in Hr'.
  destruct (model_readPtr_struct _ _ _ _ _ Hr')
    as (_ & Hs' & d0 & Hd0 & Ho' & Hds' & Hpc' & Hfit').
  assert (Hvalid : seg s' <> None) by congruence.
  destruct (Z.lt_ge_cases maxDepth (depth cc + 1)) as [Hdeep | Hok].
  { rewrite (model_writePtr_too_deep maxDepth fuel (incDepth cc) (Some kd)
               (slot dst j) s' hx Hvalid Hdeep) in Hwx. discriminate. }
  destruct fuel as [| fuel].
  { cbn [model_writePtr] in Hwx.
    replace (IsValid (PStruct s')) with true in Hwx
      by (symmetry; unfold IsValid, Pointer_Segment; now apply bool_decide_eq_true_2).
    cbn [negb] in Hwx.
    rewrite (proj2 (Z.ltb_ge _ _)) in Hwx by (cbn [incDepth depth]; lia).
    discriminate. }
  rewrite model_writePtr_struct in Hwx by (cbn [incDepth depth]; auto; lia).
  unfold mbind, M_bind, bind in Hwx.
  destruct (NewStruct model_alloc (Some kd) (size s') hx)
    as [[dst' [e1 |]] h3 | x |] eqn:Hnew; try discriminate.
  destruct (copyStruct model_readPtr (model_writePtr maxDepth fuel) (incDepth cc)
              dst' s' h3) as [[e2 |] h4 | x |] eqn:Hcopy; try discriminate.
  destruct (NewStruct_model_inv _ _ _ _ _ Hnew ltac:(lia) ltac:(lia))
    as (Hsd' & Hpcd' & Hbd' & Honly').
  destruct (NewStruct_model_inv_heap _ _ _ _ _ Hnew)
    as (dx & ext & Hdx & Hh3 & Hoff').
  destruct (backed_inv _ _ Hbd')
    as (k3 & d3 & Hk3 & Hd3 & _ & _ & _ & _ & _ & Hd3l).
  assert (k3 = kd) by congruence. subst k3.
  assert (d3 = dx ++ ext)
    by (rewrite Hh3, lookup_insert_eq in Hd3; congruence).
  subst d3.
  assert (Hbs' : backed h3 s' = true).
  { apply (decoded_backed ks _ hx hx h3 s' Hr'). intros d Hd.
    destruct (decide (ks = kd)) as [E | E].
    - subst ks. assert (d = dx) by congruence. subst d.
      exists (dx ++ ext). rewrite Hh3, lookup_insert_eq.
      split; [reflexivity |]. split; [rewrite length_app; lia |].
      change (2 ^ 32) with 4294967296. lia.
    - exists d. rewrite Hh3, lookup_insert_ne by congruence.
      split; [assumption |]. split; [lia |].
      destruct Hc as [Ho _]. rewrite (Ho ks E) in Hd.
      assert (d = sd) by congruence. subst d.
      change (2 ^ 32) with 4294967296. lia. }
  apply (IH fuel (incDepth cc) dst' s' h3 kd Hsd' Hbd' Hbs') with (h' := h4);
    [| cbn [incDepth depth length] in *; lia | exact Hcopy].
  rewrite Hpcd', Hoff'.
  apply (chain_stable false kd (Z.of_nat (length dx)) _ hx h3).
  - rewrite Hh3. split; [apply only_insert | now apply preserved_grow].
  - lia.
  - apply (chain_fresh false kd lo hi hx dx _ Hdx); [| exact Hrest].
    intros E. assert (ks = kd) by congruence. subst ks.
    assert (d0 = dx) by congruence. subst d0. exact Hfit'.
Qed.

Lemma model_writePtr_nil maxDepth fuel cc s a h :
  model_writePtr maxDepth fuel cc s a PNil h
  = (writeRawPointer s a 0;; mret None) h.
Proof. destruct fuel; reflexivity. Qed.

Lemma copy_slots_app readPtr writePtr cc dst src js1 js2 h :
  copy_slots readPtr writePtr cc dst src (js1 ++ js2) h
  = match copy_slots readPtr writePtr cc dst src js1 h with
    | Done None h1 => copy_slots readPtr writePtr cc dst src js2 h1
    | r => r
    end.
Proof.
  revert h. induction js1 as [| j js1 IH]; intros h; [reflexivity |].
  cbn [app copy_slots]. unfold mbind, M_bind, bind.
  destruct (readPtr (seg src) (slot src j) h) as [[m [e |]] h1 | x |];
    try reflexivity.
  destruct (writePtr (incDepth cc) (seg dst) (slot dst j) m h1)
    as [[e |] h2 | x |]; try reflexivity.
  apply IH.
Qed.

(** Source slots that hold null pointers are copied as zero words,
    without error and without changing the length of the destination's
    segment. *)
Lemma copy_slots_nulls maxDepth fuel cc dst src ks kd lo hi :
  seg dst = Some kd -> seg src = Some ks ->
  forall (n : nat) i0 (h : Heap) (d : list Z),
    h !! kd = Some d ->
    (forall i, i0 <= i < i0 + Z.of_nat n ->
       0 <= slot dst i /\ lo <= slot dst i /\ slot dst i + 8 <= hi /\
       slot dst i + 8 <= Z.of_nat (length d) /\
       (ks <> kd \/ slot src i + 8 <= lo \/ hi <= slot src i)) ->
    (forall i, i0 <= i < i0 + Z.of_nat n ->
       exists hx, model_readPtr (Some ks) (slot src i) h = Done (PNil, None) hx) ->
    exists h' d',
      copy_slots model_readPtr (model_writePtr maxDepth fuel) cc dst src
                 (seqZ i0 (Z.of_nat n)) h = Done None h' /\
      confined kd lo hi h h' /\ h' !! kd = Some d' /\ length d' = length d.
Proof.
  intros Hkd Hks. induction n as [| n IH]; intros i0 h d Hd Hslot Hnull.
  - exists h, d. split; [reflexivity |]. split; [apply confined_refl | auto].
  - rewrite (seqZ_cons i0) by lia. cbn [copy_slots].
    destruct (Hnull i0 ltac:(lia)) as [hx Hr].
    pose proof (model_readPtr_pure _ _ _ _ _ Hr). subst hx.
    destruct (Hslot i0 ltac:(lia)) as (H0 & Hlo & Hhi & Hlen & _).
    unfold mbind, M_bind, bind at 1. rewrite Hks, Hr.
    unfold mbind, M_bind, bind at 1. rewrite Hkd, model_writePtr_nil.
    unfold writeRawPointer, writeUint64, mbind, M_bind, bind.
    rewrite (writeUint_run 8 kd d) by (auto; lia).
    set (d1 := overwrite _ _ d). set (h1 := (<[kd := d1]> h : Heap)).
    assert (Hfit : (Z.to_nat (slot dst i0) + length (le_encode 8 0)
                    <= length d)%nat) by (rewrite length_le_encode; lia).
    assert (Hl1 : length d1 = length d) by (subst d1; now apply length_overwrite).
    assert (Hc1 : confined kd lo hi h h1).
    { subst h1 d1. apply confined_store; try assumption;
        rewrite ?length_le_encode; lia. }
    replace (Z.pred (Z.of_nat (S n))) with (Z.of_nat n) by lia.
    destruct (IH (Z.succ i0) h1 d1) as (h' & d' & Hrun & Hc & Hd' & Hl').
    + subst h1. apply lookup_insert_eq.
    + intros i Hi. rewrite Hl1. apply Hslot. lia.
    + intros i Hi. destruct (Hnull i ltac:(lia)) as [hy Hy].
      exists h1. apply (model_readPtr_stable kd lo hi ks _ h h1 hy); auto.
      destruct (Hslot i ltac:(lia)) as (_ & _ & _ & _ & Hout). exact Hout.
    + exists h', d'.
      split; [| split; [now apply (confined_trans _ _ _ _ h1) |
                         split; [assumption | lia]]].
      exact Hrun.
Qed.

(** Copying a chain deeper than the levels left below the limit, in which
    the slots before each hop hold null pointers, ends with the depth
    error when the destination's segment has room for the copies made on
    the way. *)
Lemma copy_chain_too_deep maxDepth :
  forall js fuel cc dst src (h : Heap) kd dd,
    seg dst = Some kd ->
    backed h dst = true -> backed h src = true ->
    h !! kd = Some dd ->
    chain true js h src (PointerCount (size dst)) kd (off dst)
          (off dst + DataSize (size dst) + 8 * PointerCount (size dst)) ->
    Z.max 0 (maxDepth - depth cc) < Z.of_nat (length js) ->
    Z.of_nat (length dd) + Z.max 0 (maxDepth - depth cc) * max_struct_bytes
    < 2 ^ 32 ->
    (Z.to_nat (maxDepth - depth cc) <= fuel)%nat ->
    exists h',
      copyStruct model_readPtr (model_writePtr maxDepth fuel) cc dst src h
      = Done (Some errCopyDepth) h'.
Proof.
  induction js as [| j js IH];
    intros fuel cc dst src h kd dd Hkd Hbd Hbs Hdd Hch Hk Hroom Hfuel;
    [cbn [length] in Hk; lia |].
  destruct (backed_inv _ _ Hbs)
    as (ks & sd & Hks & Hsd & Hvs & Hos & Hdss & Hpcs & Hfits & Hsl).
  destruct (backed_inv _ _ Hbd)
    as (kd' & dd' & Hkd' & Hdd' & Hvd & Hod & Hdsd & Hpcd & Hfitd & Hdl).
  assert (kd' = kd) by congruence. subst kd'.
  assert (dd' = dd) by congruence. subst dd'.
  set (lo := off dst) in *.
  set (hi := off dst + DataSize (size dst) + 8 * PointerCount (size dst)) in *.
  rewrite (copyStruct_refines _ _ cc dst src h ks kd sd dd) by assumption.
  set (bytes := data_after _ _).
  assert (Hbl : length bytes = Z.to_nat (DataSize (size dst)))
    by (subst bytes; apply length_data_after).
  set (dd1 := overwrite (Z.to_nat (off dst)) bytes dd).
  set (h1 := (<[kd := dd1]> h : Heap)).
  assert (Hl1 : length dd1 = length dd)
    by (subst dd1; apply length_overwrite; lia).
  assert (Hc1 : confined kd lo hi h h1).
  { subst h1 dd1. apply confined_store; try assumption; unfold lo, hi; lia. }
  assert (Hd1 : h1 !! kd = Some dd1) by (subst h1; apply lookup_insert_eq).
  pose proof (chain_stable true kd lo hi h h1 Hc1 (j :: js) src _ Hdss Hch) as Hch1.
  cbn [chain] in Hch1. destruct Hch1 as (Hj & Hap & Hnull & _).
  assert (Hout : forall i, 0 <= i <= j ->
            ks <> kd \/ slot src i + 8 <= lo \/ hi <= slot src i).
  { intros i Hi. destruct Hap as [Hap | [Hap | Hap]].
    - left. congruence.
    - right. left. unfold slot. lia.
    - right. right. unfold slot. lia. }
  (* the null slots before the hop *)
  destruct (copy_slots_nulls maxDepth fuel cc dst src ks kd lo hi Hkd Hks
              (Z.to_nat j) 0 h1 dd1 Hd1) as (hj & dj & Hrunj & Hcj & Hdj & Hlj).
  { intros i Hi. unfold slot, lo, hi. rewrite Hl1.
    repeat split; try lia. apply (Hout i). lia. }
  { intros i Hi. rewrite <- Hks. apply (Hnull eq_refl). lia. }
  rewrite Z2Nat.id in Hrunj by lia.
  assert (Hc : confined kd lo hi h hj) by now apply (confined_trans _ _ _ _ h1).
  pose proof (chain_stable true kd lo hi h hj Hc (j :: js) src _ Hdss Hch) as Hchj.
  cbn [chain] in Hchj. destruct Hchj as (_ & _ & _ & s' & hx & Hr & Hrest).
  rewrite Hks in Hr.
  pose proof (model_readPtr_pure _ _ _ _ _ Hr). subst hx.
  destruct (model_readPtr_struct _ _ _ _ _ Hr)
    as (_ & Hs' & d0 & Hd0 & Ho' & Hds' & Hpc' & Hfit').
  assert (Hvalid : seg s' <> None) by congruence.
  (* the loop up to the hop *)
  unfold copy_pointer_section.
  set (n := Z.min (PointerCount (size src)) (PointerCount (size dst))).
  replace n with (j + (n - j)) by lia.
  rewrite seqZ_app by (unfold n; lia).
  rewrite (seqZ_cons (0 + j)) by (unfold n; lia).
  rewrite Z.add_0_l.
  unfold mbind, M_bind, bind at 1.
  rewrite copy_slots_app, Hrunj. cbn [copy_slots].
  unfold mbind, M_bind, bind at 1. rewrite Hks, Hr.
  unfold mbind, M_bind, bind at 1. rewrite Hkd.
  destruct (Z.lt_ge_cases maxDepth (depth cc + 1)) as [Hdeep | Hok].
  { exists hj.
    now rewrite (model_writePtr_too_deep maxDepth fuel (incDepth cc) (Some kd)
                   (slot dst j) s' hj Hvalid Hdeep). }
  destruct fuel as [| fuel]; [lia |].
  unfold max_struct_bytes in *.
  pose proof (padToWord_bound _ Hds') as Hpad.
  set (pad := padToWord (DataSize (size s'))) in *.
  set (dd2 := dj ++ replicate (Z.to_nat (pad + 8 * PointerCount (size s'))) 0).
  set (h2 := (<[kd := dd2]> hj : Heap)).
  set (dst' := mkStruct (Some kd) (Z.of_nat (length dj))
                        (mkObjectSize pad (PointerCount (size s'))) 0).
  assert (Hnew : NewStruct model_alloc (Some kd) (size s') hj
                 = Done (dst', None) h2).
  { apply NewStruct_model_run; auto. unfold max_struct_bytes. lia. }
  assert (Hlen2 : Z.of_nat (length dd2)
                  = Z.of_nat (length dd) + pad + 8 * PointerCount (size s')).
  { subst dd2. rewrite length_app, length_replicate. lia. }
  assert (Hdd2 : h2 !! kd = Some dd2) by (subst h2; apply lookup_insert_eq).
  assert (Hbd2 : backed h2 dst' = true).
  { apply (backed_intro h2 dst' kd dd2); subst dst';
      cbn [seg off size DataSize PointerCount];
      first [reflexivity | assumption | lia]. }
  assert (Hbs2 : backed h2 s' = true).
  { apply (decoded_backed ks _ hj hj h2 s' Hr). intros d Hd.
    destruct (decide (ks = kd)) as [E | E].
    - subst ks. assert (d = dj) by congruence. subst d.
      exists dd2. split; [assumption |].
      split; [subst dd2; rewrite length_app; lia | lia].
    - exists d. subst h2. rewrite lookup_insert_ne by congruence.
      split; [assumption |]. split; [lia |].
      destruct Hc as [Ho _]. rewrite (Ho ks E) in Hd.
      assert (d = sd) by congruence. subst d.
      change (2 ^ 32) with 4294967296. lia. }
  assert (Hch2 : chain true js h2 s' (PointerCount (size dst')) kd (off dst')
                   (off dst' + DataSize (size dst')
                    + 8 * PointerCount (size dst'))).
  { subst dst'. cbn [off size DataSize PointerCount].
    apply (chain_stable true kd (Z.of_nat (length dj)) _ hj h2).
    - subst h2 dd2. split; [apply only_insert | now apply preserved_grow].
    - lia.
    - apply (chain_fresh true kd lo hi hj dj _ Hdj); [| exact Hrest].
      intros E. assert (ks = kd) by congruence. subst ks.
      assert (d0 = dj) by congruence. subst d0. exact Hfit'. }
  destruct (IH fuel (incDepth cc) dst' s' h2 kd dd2 eq_refl Hbd2 Hbs2 Hdd2 Hch2)
    as [h3 Hrec]; try (cbn [incDepth depth length] in *; lia).
  exists h3.
  rewrite model_writePtr_struct by (cbn [incDepth depth]; auto; lia).
  unfold mbind, M_bind, bind. rewrite Hnew, Hrec. reflexivity.
Qed.

(** *** The copy does not panic *)

Lemma settles_after {A} kd lo hi (h h1 : Heap) (r : Exec A) :
  confined kd lo hi h h1 -> settles kd lo hi h1 r -> settles kd lo hi h r.
Proof.
  intros Hc. destruct r as [a h' | x |]; cbn [settles]; auto.
  intros [Hc' Hs]. split; [now apply (confined_trans _ _ _ _ h1) | assumption].
Qed.

Lemma settles_weaken {A} kd lo hi lo' hi' (h : Heap) (r : Exec A) :
  lo' <= lo -> hi <= hi' -> settles kd lo hi h r -> settles kd lo' hi' h r.
Proof.
  intros Hlo Hhi. destruct r as [a h' | x |]; cbn [settles]; auto.
  intros [Hc Hs]. split; [now apply (confined_weaken kd lo hi) | assumption].
Qed.

(** A backed struct stays backed after a change confined to one segment
    that stays short. *)
Lemma backed_confined kd lo hi (h h' : Heap) p :
  backed h p = true -> confined kd lo hi h h' ->
  (forall d', h' !! kd = Some d' -> Z.of_nat (length d') < 2 ^ 32) ->
  backed h' p = true.
Proof.
  intros Hb [Honly Hpres] Hsmall.
  destruct (backed_inv _ _ Hb) as (k & d & Hk & Hd & Hv & Ho & Hds & Hpc & Hfit & Hlen).
  destruct (decide (k = kd)) as [-> | Hne].
  - destruct (Hpres d Hd) as (d' & Hd' & Hl & _).
    pose proof (Hsmall d' Hd').
    apply (backed_intro h' p kd d'); auto; lia.
  - assert (Hd' : h' !! k = Some d) by now rewrite (Honly k Hne).
    apply (backed_intro h' p k d); auto; lia.
Qed.

(** The decoder returns on every slot of a backed struct, and a struct it
    decodes is backed. *)
Lemma model_readPtr_returns (h : Heap) p j :
  backed h p = true -> 0 <= j < PointerCount (size p) ->
  exists m e,
    model_readPtr (seg p) (slot p j) h = Done (m, e) h /\
    (e = None -> ptr_sized m /\ forall st, m = PStruct st -> backed h st = true).
Proof.
  intros Hb Hj.
  destruct (backed_inv _ _ Hb) as (k & d & Hk & Hd & Hv & Ho & Hds & Hpc & Hfit & Hlen).
  rewrite Hk. rewrite (model_readPtr_eval k d _ h Hd).
  rewrite (proj2 (Z.leb_le 0 (slot p j))) by (unfold slot; lia).
  change (0 <=? 8) with true. cbn [andb].
  rewrite (proj2 (Z.leb_le _ _)) by (unfold slot; lia).
  destruct (decode_pointer (Some k) (Z.of_nat (length d)) (slot p j) _)
    as [m e] eqn:E.
  exists m, e. split; [reflexivity |]. intros ->.
  assert (Hr : model_readPtr (Some k) (slot p j) h = Done (m, None) h).
  { rewrite (model_readPtr_eval k d _ h Hd).
    rewrite (proj2 (Z.leb_le 0 (slot p j))) by (unfold slot; lia).
    change (0 <=? 8) with true. cbn [andb].
    rewrite (proj2 (Z.leb_le _ _)) by (unfold slot; lia). now rewrite E. }
  split; [exact (proj2 (model_decoder_ok _ _ _ _ _ _ Hr)) |].
  intros st ->. apply (decoded_backed k _ h h h st Hr).
  intros d0 Hd0. assert (d0 = d) by congruence. subst d0.
  exists d. split; [assumption |]. split; [lia |].
  change (2 ^ 32) with 4294967296. lia.
Qed.

Section NoPanic.

Variable maxDepth : Z.
Variable fuel : nat.
Variable kd : nat.

(** What the loops need of the writer they call. *)
Hypothesis writer_settles :
  forall cc a m (h : Heap) (d : list Z),
    h !! kd = Some d -> Z.of_nat (length d) < 2 ^ 32 ->
    0 <= a -> a + 8 <= Z.of_nat (length d) ->
    ptr_sized m ->
    (forall st, m = PStruct st -> backed h st = true) ->
    settles kd a (a + 8) h (model_writePtr maxDepth fuel cc (Some kd) a m h).

Lemma copy_slots_settles cc dst src :
  seg dst = Some kd ->
  forall js (h : Heap),
    backed h dst = true -> backed h src = true ->
    (forall j, In j js ->
       0 <= j < PointerCount (size src) /\ j < PointerCount (size dst)) ->
    settles kd (off dst)
      (off dst + DataSize (size dst) + 8 * PointerCount (size dst)) h
      (copy_slots model_readPtr (model_writePtr maxDepth fuel) cc dst src js h).
Proof.
  intros Hkd. induction js as [| j js IH]; intros h Hbd Hbs Hin.
  - cbn [copy_slots settles mret M_ret ret]. split; [apply confined_refl |].
    intros d' Hd'.
    destruct (backed_inv _ _ Hbd) as (k & d & Hk & Hd & _ & _ & _ & _ & _ & Hlen).
    assert (k = kd) by congruence. subst k.
    assert (d' = d) by congruence. subst d'.
    change (2 ^ 32) with 4294967296. lia.
  - destruct (Hin j ltac:(now left)) as [Hjs Hjd].
    destruct (backed_inv _ _ Hbd)
      as (k & d & Hk & Hd & Hv & Ho & Hds & Hpc & Hfit & Hlen).
    assert (k = kd) by congruence. subst k.
    assert (Hsmall : forall d', h !! kd = Some d' -> Z.of_nat (length d') < 2 ^ 32).
    { intros d' Hd'. assert (d' = d) by congruence. subst d'.
      change (2 ^ 32) with 4294967296. lia. }
    cbn [copy_slots]. unfold mbind, M_bind, bind.
    destruct (model_readPtr_returns h src j Hbs Hjs) as (m & e & Hr & Hm).
    rewrite Hr. destruct e as [e |].
    { cbn [settles mret M_ret ret]. split; [apply confined_refl | exact Hsmall]. }
    destruct (Hm eq_refl) as [Hsized Hback].
    rewrite Hkd.
    pose proof (writer_settles (incDepth cc) (slot dst j) m h d Hd
                  ltac:(change (2 ^ 32) with 4294967296; lia)
                  ltac:(unfold slot; lia) ltac:(unfold slot; lia)
                  Hsized Hback) as Hw.
    destruct (model_writePtr maxDepth fuel (incDepth cc) (Some kd) (slot dst j) m h)
      as [[e2 |] h2 | x |]; cbn [settles] in Hw |- *; try assumption.
    + destruct Hw as [Hc Hs]. split; [| assumption].
      eapply confined_weaken; [| | exact Hc]; unfold slot; lia.
    + destruct Hw as [Hc Hs].
      assert (Hc' : confined kd (off dst)
                      (off dst + DataSize (size dst) + 8 * PointerCount (size dst))
                      h h2)
        by (eapply confined_weaken; [| | exact Hc]; unfold slot; lia).
      apply (settles_after _ _ _ h h2); [exact Hc' |].
      apply IH.
      * exact (backed_confined _ _ _ _ _ _ Hbd Hc' Hs).
      * exact (backed_confined _ _ _ _ _ _ Hbs Hc' Hs).
      * intros i Hi. apply Hin. now right.
Qed.

Lemma copyStruct_settles cc dst src (h : Heap) :
  seg dst = Some kd -> backed h dst = true -> backed h src = true ->
  settles kd (off dst)
    (off dst + DataSize (size dst) + 8 * PointerCount (size dst)) h
    (copyStruct model_readPtr (model_writePtr maxDepth fuel) cc dst src h).
Proof.
  intros Hkd Hbd Hbs.
  destruct (backed_inv _ _ Hbs)
    as (ks & sd & Hks & Hsd & Hvs & Hos & Hdss & Hpcs & Hfits & Hsl).
  destruct (backed_inv _ _ Hbd)
    as (kd' & dd & Hkd' & Hdd & Hvd & Hod & Hdsd & Hpcd & Hfitd & Hdl).
  assert (kd' = kd) by congruence. subst kd'.
  set (lo := off dst).
  set (hi := off dst + DataSize (size dst) + 8 * PointerCount (size dst)).
  rewrite (copyStruct_refines _ _ cc dst src h ks kd sd dd) by assumption.
  set (bytes := data_after _ _).
  assert (Hbl : length bytes = Z.to_nat (DataSize (size dst)))
    by (subst bytes; apply length_data_after).
  set (dd1 := overwrite (Z.to_nat (off dst)) bytes dd).
  set (h1 := (<[kd := dd1]> h : Heap)).
  assert (Hl1 : length dd1 = length dd)
    by (subst dd1; apply length_overwrite; lia).
  assert (Hc1 : confined kd lo hi h h1).
  { subst h1 dd1. apply confined_store; try assumption; unfold lo, hi; lia. }
  assert (Hd1 : h1 !! kd = Some dd1) by (subst h1; apply lookup_insert_eq).
  assert (Hs1 : forall d', h1 !! kd = Some d' -> Z.of_nat (length d') < 2 ^ 32).
  { intros d' Hd'. assert (d' = dd1) by congruence. subst d'.
    rewrite Hl1. change (2 ^ 32) with 4294967296. lia. }
  pose proof (backed_confined _ _ _ _ _ _ Hbd Hc1 Hs1) as Hbd1.
  pose proof (backed_confined _ _ _ _ _ _ Hbs Hc1 Hs1) as Hbs1.
  apply (settles_after _ _ _ h h1); [exact Hc1 |].
  unfold copy_pointer_section, mbind, M_bind, bind.
  set (n := Z.min (PointerCount (size src)) (PointerCount (size dst))).
  pose proof (copy_slots_settles cc dst src Hkd (seqZ 0 n) h1 Hbd1 Hbs1
                ltac:(intros j Hj; apply In_seqZ in Hj; unfold n in Hj; lia)) as Hslots.
  fold lo hi in Hslots.
  destruct (copy_slots model_readPtr (model_writePtr maxDepth fuel) cc dst src
              (seqZ 0 n) h1) as [[e |] h2 | x |]; cbn [settles] in Hslots |- *;
    try assumption.
  destruct Hslots as [Hc2 Hs2].
  destruct Hc2 as [Ho2 Hp2].
  destruct (Hp2 dd1 Hd1) as (d2 & Hd2 & Hl2 & _).
  destruct (Z.le_gt_cases (PointerCount (size dst)) (PointerCount (size src)))
    as [Hle | Hgt].
  - unfold seqZ.
    replace (Z.to_nat (PointerCount (size dst) - PointerCount (size src)))
      with O by lia.
    cbn [seq fmap list_fmap zero_slots mret M_ret ret settles].
    split; [split; assumption | assumption].
  - replace (PointerCount (size dst) - PointerCount (size src))
      with (Z.of_nat (Z.to_nat (PointerCount (size dst) - PointerCount (size src))))
      by lia.
    rewrite (zero_slots_run dst kd Hkd _ _ d2 h2 Hd2)
      by (unfold slot; lia).
    cbn [settles mret M_ret ret].
    assert (Hfit : (Z.to_nat (slot dst (PointerCount (size src)))
                    + length (replicate
                        (8 * Z.to_nat (PointerCount (size dst)
                                       - PointerCount (size src))) 0%Z)
                    <= length d2)%nat)
      by (rewrite length_replicate; unfold slot; lia).
    split.
    + apply (confined_trans _ _ _ _ h2); [split; assumption |].
      apply confined_store; try assumption;
        rewrite ?length_replicate; unfold slot, lo, hi; lia.
    + intros d' Hd'. rewrite lookup_insert_eq in Hd'. injection Hd' as <-.
      rewrite length_overwrite by exact Hfit. now apply Hs2.
Qed.

End NoPanic.

Lemma NewStruct_model_returns kd sz (h : Heap) (d : list Z) :
  h !! kd = Some d ->
  exists dst e h1, NewStruct model_alloc (Some kd) sz h = Done (dst, e) h1.
Proof.
  intros Hd. unfold NewStruct. destruct (negb (isValid sz)); [eauto |].
  unfold model_alloc, segLen, grow, mbind, M_bind, bind. rewrite Hd.
  destruct (_ <? 2 ^ 32); [| eauto]. rewrite Hd. eauto.
Qed.

(** The reference pointer writer does not panic on a slot inside a short
    segment, and leaves the segment short. *)
Lemma model_writePtr_settles maxDepth kd fuel :
  forall cc a m (h : Heap) (d : list Z),
    h !! kd = Some d -> Z.of_nat (length d) < 2 ^ 32 ->
    0 <= a -> a + 8 <= Z.of_nat (length d) ->
    ptr_sized m ->
    (forall st, m = PStruct st -> backed h st = true) ->
    settles kd a (a + 8) h (model_writePtr maxDepth fuel cc (Some kd) a m h).
Proof.
  assert (Hzero : forall a v (h : Heap) (d : list Z),
            h !! kd = Some d -> Z.of_nat (length d) < 2 ^ 32 ->
            0 <= a -> a + 8 <= Z.of_nat (length d) ->
            settles kd a (a + 8) h
              ((writeRawPointer (Some kd) a v;; mret (None : error)) h)).
  { intros a v h d Hd Hs Ha Hl.
    unfold writeRawPointer, writeUint64, mbind, M_bind, bind.
    rewrite (writeUint_run 8 kd d) by (auto; lia).
    cbn [settles mret M_ret ret].
    assert (Hfit : (Z.to_nat a + length (le_encode 8 v) <= length d)%nat)
      by (rewrite length_le_encode; lia).
    split.
    - apply confined_store; try assumption; rewrite ?length_le_encode; lia.
    - intros d' Hd'. rewrite lookup_insert_eq in Hd'. injection Hd' as <-.
      now rewrite length_overwrite by exact Hfit. }
  assert (Hsame : forall a (h : Heap) (d : list Z) (e : error),
            h !! kd = Some d -> Z.of_nat (length d) < 2 ^ 32 ->
            settles kd a (a + 8) h (Done e h)).
  { intros a h d e Hd Hs. cbn [settles]. split; [apply confined_refl |].
    intros d' Hd'. assert (d' = d) by congruence. now subst d'. }
  induction fuel as [| fuel IH]; intros cc a m h d Hd Hs Ha Hl Hsized Hm.
  - destruct m as [| st | o].
    + rewrite model_writePtr_nil. now apply (Hzero a 0 h d).
    + cbn [model_writePtr].
      destruct (negb (IsValid (PStruct st))); [now apply (Hzero a 0 h d) |].
      destruct (_ <? _); [now apply (Hsame a h d) | exact I].
    + cbn [model_writePtr].
      destruct (negb (IsValid (POther o)));
        [now apply (Hzero a 0 h d) | now apply (Hsame a h d)].
  - destruct m as [| st | o].
    + rewrite model_writePtr_nil. now apply (Hzero a 0 h d).
    + cbn [model_writePtr].
      destruct (negb (IsValid (PStruct st))); [now apply (Hzero a 0 h d) |].
      destruct (_ <? _); [now apply (Hsame a h d) |].
      pose proof (Hm st eq_refl) as Hbst.
      cbn [ptr_sized] in Hsized.
      unfold mbind, M_bind, bind.
      destruct (NewStruct_model_returns kd (size st) h d Hd)
        as (dst & e1 & h1 & Hnew).
      rewrite Hnew. destruct e1 as [e1 |].
      { apply NewStruct_model_fail in Hnew. subst h1. now apply (Hsame a h d). }
      destruct (NewStruct_model_inv _ _ _ _ _ Hnew ltac:(lia) ltac:(lia))
        as (Hsd & Hpcd & Hbd & Honly).
      destruct (NewStruct_model_inv_heap _ _ _ _ _ Hnew)
        as (d0 & ext & Hd0 & Hh1 & Hoff).
      assert (d0 = d) by congruence. subst d0.
      destruct (backed_inv _ _ Hbd)
        as (k1 & d1 & Hk1 & Hd1 & _ & _ & _ & _ & _ & Hd1l).
      assert (k1 = kd) by congruence. subst k1.
      assert (d1 = d ++ ext)
        by (rewrite Hh1, lookup_insert_eq in Hd1; congruence).
      subst d1.
      assert (Hc1 : confined kd a (a + 8) h h1).
      { rewrite Hh1. split; [apply only_insert | now apply preserved_grow]. }
      assert (Hs1 : forall d', h1 !! kd = Some d' -> Z.of_nat (length d') < 2 ^ 32).
      { intros d' Hd'. rewrite Hh1, lookup_insert_eq in Hd'. injection Hd' as <-.
        change (2 ^ 32) with 4294967296. lia. }
      pose proof (backed_confined _ _ _ _ _ _ Hbst Hc1 Hs1) as Hbst1.
      pose proof (copyStruct_settles maxDepth fuel kd IH cc dst st h1
                    Hsd Hbd Hbst1) as Hcopy.
      destruct (copyStruct model_readPtr (model_writePtr maxDepth fuel) cc dst st h1)
        as [[e2 |] h2 | x |]; cbn [settles] in Hcopy |- *; try assumption.
      * destruct Hcopy as [Hc2 Hs2]. split; [| assumption].
        apply (confined_after_grow kd a (a + 8)
                 (off dst + DataSize (size dst) + 8 * PointerCount (size dst))
                 h h2 d ext Hd).
        rewrite <- Hoff, <- Hh1. exact Hc2.
      * destruct Hcopy as [Hc2 Hs2].
        assert (Hc : confined kd a (a + 8) h h2).
        { apply (confined_after_grow kd a (a + 8)
                   (off dst + DataSize (size dst) + 8 * PointerCount (size dst))
                   h h2 d ext Hd).
          rewrite <- Hoff, <- Hh1. exact Hc2. }
        destruct Hc as [Ho Hp].
        destruct (Hp d Hd) as (d2 & Hd2 & Hl2 & _).
        apply (settles_after _ _ _ h h2); [split; assumption |].
        apply (Hzero a _ h2 d2); auto; lia.
    + cbn [model_writePtr].
      destruct (negb (IsValid (POther o)));
        [now apply (Hzero a 0 h d) | now apply (Hsame a h d)].
Qed.

(** Over the reference layer, a copy between backed structs returns: it
    neither panics nor, with fuel for the levels left below the limit,
    runs out of fuel. *)
Lemma copyStruct_model_returns maxDepth fuel cc dst src (h : Heap) :
  backed h dst = true -> backed h src = true ->
  (Z.to_nat (maxDepth - depth cc) <= fuel)%nat ->
  exists e h',
    copyStruct model_readPtr (model_writePtr maxDepth fuel) cc dst src h
    = Done e h'.
Proof.
  intros Hbd Hbs Hfuel.
  destruct (backed_inv _ _ Hbd) as (kd & dd & Hkd & _ & _ & _ & _ & Hpcd & _).
  destruct (backed_inv _ _ Hbs) as (ks & sd & _ & _ & _ & _ & _ & Hpcs & _).
  pose proof (copyStruct_settles maxDepth fuel kd
                (model_writePtr_settles maxDepth kd fuel) cc dst src h
                Hkd Hbd Hbs) as Hs.
  pose proof (copyStruct_model_total maxDepth fuel cc dst src h
                ltac:(lia) ltac:(lia) Hfuel) as Hf.
  destruct (copyStruct model_readPtr (model_writePtr maxDepth fuel) cc dst src h)
    as [e h' | x |]; [eauto | destruct Hs | congruence].
Qed.

(** *** The errors of a copy *)

Section Errors.

Variable readPtr : SegPtr -> Z -> M (Pointer * error).
Variable writePtr : copyContext -> SegPtr -> Z -> Pointer -> M error.
Variable P : ErrorValue -> Prop.

Hypothesis read_sized : decoder_ok readPtr.
Hypothesis read_error :
  forall s a (h h' : Heap) m e, readPtr s a h = Done (m, Some e) h' -> P e.
Hypothesis write_error :
  forall cc s a m (h h' : Heap) e,
    ptr_sized m -> writePtr cc s a m h = Done (Some e) h' -> P e.

Lemma copy_ptrs_errors fuel cc dst src a b ns nd :
  forall j (h h' : Heap) e,
    copy_ptrs readPtr writePtr fuel cc dst src a b ns nd j h = Done (Some e) h' ->
    P e.
Proof.
  induction fuel as [| fuel IH]; intros j h h' e.
  - cbn [copy_ptrs]. destruct (_ && _); discriminate.
  - cbn [copy_ptrs]. destruct (_ && _); [| discriminate].
    unfold mbind, M_bind, bind.
    destruct (readPtr (seg src) (element a j wordSize) h)
      as [[m [e1 |]] h1 | x |] eqn:Hr; try discriminate.
    + intros [= <- _]. exact (read_error _ _ _ _ _ _ Hr).
    + destruct (writePtr (incDepth cc) (seg dst) (element b j wordSize) m h1)
        as [[e2 |] h2 | x |] eqn:Hw; try discriminate.
      * intros [= <- _].
        exact (write_error _ _ _ _ _ _ _ (proj2 (read_sized _ _ _ _ _ _ Hr)) Hw).
      * apply IH.
Qed.

Lemma copyStruct_errors cc dst src (h h' : Heap) e :
  copyStruct readPtr writePtr cc dst src h = Done (Some e) h' -> P e.
Proof.
  unfold copyStruct. destruct (is_nil (seg dst)); [discriminate |].
  unfold mbind, M_bind, bind.
  destruct (slice (seg src) _ _ h) as [sdata h1 | x1 |]; try discriminate.
  destruct (slice (seg dst) _ _ h1) as [ddata h2 | x2 |]; try discriminate.
  destruct (go_copy ddata sdata h2) as [c h3 | x3 |]; try discriminate.
  destruct (zero_data _ _ 0 h3) as [[] h4 | x4 |]; try discriminate.
  destruct (copy_ptrs _ _ _ _ _ _ _ _ _ _ _ h4) as [[e1 |] h5 | x5 |] eqn:Hp;
    try discriminate.
  - intros [= <- _]. exact (copy_ptrs_errors _ _ _ _ _ _ _ _ _ _ _ _ Hp).
  - destruct (zero_ptrs _ _ _ _ _ h5) as [[] h6 | x6 |]; discriminate.
Qed.

End Errors.

Lemma model_readPtr_error s a (h h' : Heap) m e :
  model_readPtr s a h = Done (m, Some e) h' -> e = errPointerAddress.
Proof.
  unfold model_readPtr, mbind, M_bind, bind.
  destruct (readRawPointer s a h) as [v h1 | x |]; try discriminate.
  destruct (segLen s h1) as [len h2 | x |]; try discriminate.
  unfold decode_pointer.
  destruct (v =? 0); [discriminate |].
  destruct (Z.land v 3 =? 0); [| discriminate].
  destruct (_ && _); [discriminate |]. now intros [= _ <- _].
Qed.

Lemma model_alloc_error s n (h h' : Heap) sg a e :
  model_alloc s n h = Done (sg, a, Some e) h' -> e = errAlloc.
Proof.
  unfold model_alloc, mbind, M_bind, bind.
  destruct (segLen s h) as [len h1 | x |]; try discriminate.
  destruct (_ <? 2 ^ 32).
  - destruct (grow s n h1) as [[] h2 | x |]; discriminate.
  - now intros [= _ _ <- _].
Qed.

(** Every error of the reference writer, and so of a copy over the
    reference layer, is one of [copy_error]. *)
Lemma model_writePtr_errors maxDepth fuel :
  forall cc s a m (h h' : Heap) e,
    ptr_sized m ->
    model_writePtr maxDepth fuel cc s a m h = Done (Some e) h' -> copy_error e.
Proof.
  induction fuel as [| fuel IH]; intros cc s a m h h' e Hm.
  - cbn [model_writePtr]. unfold mbind, M_bind, bind.
    destruct (negb (IsValid m)).
    + destruct (writeRawPointer s a 0 h) as [[] h1 | x |]; discriminate.
    + destruct m as [| st | o]; try (intros [= <- _]; unfold copy_error; tauto).
      destruct (_ <? _); [| discriminate].
      intros [= <- _]. unfold copy_error. tauto.
  - cbn [model_writePtr]. unfold mbind, M_bind, bind.
    destruct (negb (IsValid m)).
    + destruct (writeRawPointer s a 0 h) as [[] h1 | x |]; discriminate.
    + destruct m as [| st | o]; try (intros [= <- _]; unfold copy_error; tauto).
      destruct (_ <? _); [intros [= <- _]; unfold copy_error; tauto |].
      cbn [ptr_sized] in Hm.
      destruct (NewStruct model_alloc s (size st) h)
        as [[dst [e1 |]] h1 | x |] eqn:Hnew; try discriminate.
      * intros [= <- _]. unfold NewStruct, isValid, wordSize in Hnew.
        rewrite (proj2 (Z.leb_le _ _)) in Hnew by lia. cbn [negb] in Hnew.
        unfold mbind, M_bind, bind in Hnew.
        destruct (model_alloc s _ h) as [[[sg ad] [e2 |]] h2 | x |] eqn:Ha;
          try discriminate.
        injection Hnew as _ <- _.
        apply model_alloc_error in Ha. unfold copy_error. tauto.
      * destruct (copyStruct model_readPtr (model_writePtr maxDepth fuel) cc dst st h1)
          as [[e2 |] h2 | x |] eqn:Hcopy; try discriminate.
        -- intros [= <- _].
           apply (copyStruct_errors model_readPtr (model_writePtr maxDepth fuel)
                    copy_error model_decoder_ok) in Hcopy; [assumption | |].
           ++ intros s0 a0 h0 h0' m0 e0 Hr. apply model_readPtr_error in Hr.
              unfold copy_error. tauto.
           ++ intros cc0 s0 a0 m0 h0 h0' e0. apply IH.
        -- destruct (writeRawPointer s a (value dst a) h2) as [[] h3 | x |];
             discriminate.
Qed.

Lemma model_copy_errors maxDepth fuel cc dst src (h h' : Heap) e :
  copyStruct model_readPtr (model_writePtr maxDepth fuel) cc dst src h
  = Done (Some e) h' ->
  copy_error e.
Proof.
  apply (copyStruct_errors model_readPtr (model_writePtr maxDepth fuel)
           copy_error model_decoder_ok).
  - intros s0 a0 h0 h0' m0 e0 Hr. apply model_readPtr_error in Hr.
    unfold copy_error. tauto.
  - intros cc0 s0 a0 m0 h0 h0' e0. apply model_writePtr_errors.
Qed.

(** *** The depth limit *)



